(** * Logitech G29 driver: report decoding, change detection and command frames

    A shallow embedding of [src/data-map.ts] (module [DataMap]) and of the
    [LogitechG29] class (module [Rig]), followed by the properties proved
    about them.

    Modelling conventions.
    - A report is a [list Z]; node-hid delivers bytes, so the bitwise
      operators of the source are [Z.land] on values in 0..255.
    - A finite JavaScript number is the rational it denotes, in canonical
      form ([Qc]); [NaN] is a separate value.  Arithmetic is that of
      IEEE 754 binary64: the exact result of an operation is rounded to the
      nearest double, ties to even ([double]), with gradual underflow.
      Results stay far below 2^1024 for bytes and for levels in [0, 1], so
      overflow to an infinity is left out.  Strict equality [===] on numbers
      is Leibniz equality on [Qc], and never holds for [NaN].
    - [Math.round x] is [floor (x + 1/2)], computed exactly.
    - A JavaScript object used as a dictionary whose iteration order is
      observable ([changes], the [pairs] literals) is an association list in
      insertion order; the rig state, which is only read and written by key,
      is a [gmap]. *)

From Stdlib Require Import ZArith QArith Qcanon Qround Qfield Qpower Lia Lqa.
From Stdlib Require Import DecimalNat.
From Equations Require Import Equations.
From stdpp Require Import base numbers list strings gmap.

Local Open Scope Z_scope.

(* ===================================================================== *)
(** * JavaScript numbers                                                  *)
(* ===================================================================== *)

Inductive number : Type :=
| Fin (q : Qc)
| NaN.

(** An integer seen as a number. *)
Definition int (z : Z) : number := Fin (Qc_of_Z z).

(** [a === b] on numbers: [NaN] is equal to nothing, itself included. *)
Definition strict_eq (a b : number) : bool :=
  match a, b with
  | Fin x, Fin y => bool_decide (x = y)
  | _, _ => false
  end.

(** [Math.round]: the nearest integer, halves going up. *)
Definition Math_round (x : Qc) : Z := Qfloor (x + (1 # 2))%Q.

(** [Math.max] and [Math.min] on finite numbers. *)
Definition Qc_max (a b : Qc) : Qc := if Qclt_le_dec a b then b else a.
Definition Qc_min (a b : Qc) : Qc := if Qclt_le_dec b a then b else a.

(** [Math.abs] on finite numbers. *)
Definition Qc_abs (x : Qc) : Qc :=
  if Qclt_le_dec x (Qc_of_Z 0) then (- x)%Qc else x.

(** The integer nearest to [x]; a tie goes to the even one. *)
Definition round_even (x : Q) : Z :=
  let f := Qfloor x in
  match (x - inject_Z f ?= 1 # 2)%Q with
  | Lt => f
  | Gt => f + 1
  | Eq => if Z.even f then f else f + 1
  end.

(** The exponent [e] with 2^e <= x < 2^(e+1), for a positive [x]. *)
Definition binade (x : Q) : Z :=
  let k := Z.log2 (Qnum x) - Z.log2 (Zpos (Qden x)) in
  if Qle_bool (2 ^ k) x then k else k - 1.

(** The distance between the doubles around a positive [x]: a significand
    has 53 bits, and below 2^-1022 the doubles are the multiples of
    2^-1074. *)
Definition quantum (x : Q) : Q := (2 ^ (Z.max (binade x) (-1022) - 52))%Q.

(** The double nearest to a positive [x]. *)
Definition nearest (x : Q) : Q :=
  (inject_Z (round_even (x / quantum x)) * quantum x)%Q.

(** The double nearest to [x]: the rounding that ends every arithmetic
    operation. *)
Definition double (x : Qc) : Qc :=
  match Qnum x with
  | Z0 => x
  | Zpos _ => Q2Qc (nearest x)
  | Zneg _ => (- Q2Qc (nearest (- x)))%Qc
  end.

(** [a + b], [a - b], [a * b] and [a / b] on doubles. *)
Definition fadd (a b : Qc) : Qc := double (a + b).
Definition fsub (a b : Qc) : Qc := double (a - b).
Definition fmul (a b : Qc) : Qc := double (a * b).
Definition fdiv (a b : Qc) : Qc := double (a / b).

(* ===================================================================== *)
(** * data-map.ts                                                         *)
(* ===================================================================== *)

Module DataMap.

(** The [while] loop of [reduceNumberFromTo], with [to] already doubled.
    The probe [y] only takes the values 128, 64, ..., 1, on which [y / 2]
    is exact. *)
Equations? reduce_while (to num y : Z) : Z by wf (Z.to_nat y) lt :=
  reduce_while to num y with Z_lt_dec 1 y := {
    | left Hy =>
        if num <? to then num
        else reduce_while to (if 0 <=? num - y then num - y else num) (y / 2)
    | right _ => num }.
Proof.
  assert (y / 2 < y) by (apply Z.div_lt; lia).
  assert (0 <= y / 2) by (apply Z.div_pos; lia).
  lia.
Qed.

(** [reduceNumberFromTo(num, to)]. *)
Definition reduceNumberFromTo (num to : Z) : Z :=
  reduce_while (to * 2) num 128.

(** The same loop run with a bound [fuel] on the number of entries into the
    loop body; [None] when another entry would be needed after the bound is
    used up.  The second component counts the entries made (an entry that
    leaves through [break] included). *)
Fixpoint reduce_fuel (fuel : nat) (to num y : Z) {struct fuel}
  : option (Z * nat) :=
  if 1 <? y then
    match fuel with
    | O => None
    | S fuel' =>
        if num <? to then Some (num, 1%nat)
        else
          match reduce_fuel fuel' to
                  (if 0 <=? num - y then num - y else num) (y / 2) with
          | Some (r, k) => Some (r, S k)
          | None => None
          end
    end
  else Some (num, 0%nat).

(** [round(num, exp)]; [Math.pow(10, exp)] is the double of 10^exp. *)
Definition round (num : Qc) (exp : nat) : Qc :=
  let factor := double (Qc_of_Z 10 ^ exp)%Qc in
  fdiv (Qc_of_Z (Math_round (fmul num factor))) factor.

(** The [switch] of [wheelDpad], on the recovered code. *)
Definition dpad_of_code (code : Z) : Z :=
  match code with
  | 8 => 0
  | 7 => 8
  | 6 => 7
  | 5 => 6
  | 4 => 5
  | 3 => 4
  | 2 => 3
  | 1 => 2
  | 0 => 1
  | _ => 0
  end.

Definition wheelDpad (value : Z) : Z :=
  dpad_of_code (reduceNumberFromTo value 8).

(** The [switch] of [shifterGear], on the recovered code. *)
Definition gear_of_code (code : Z) : Z :=
  match code with
  | 0 => 0
  | 1 => 1
  | 2 => 2
  | 4 => 3
  | 8 => 4
  | 16 => 5
  | 32 => 6
  | 64 => -1
  | _ => 0
  end.

Definition shifterGear (value : Z) : Z :=
  gear_of_code (reduceNumberFromTo value 64).

(** A number used as a condition is true unless it is zero. *)
Definition truthy (z : Z) : bool := negb (z =? 0).

(** [value & mask ? 1 : 0]. *)
Definition flag (value mask : Z) : number :=
  if truthy (Z.land value mask) then int 1 else int 0.

(** The two terms of [wheelTurn], from the bytes at indices 4 and 5. *)
Definition wheelFine (d4 : Z) : Qc :=
  fmul (fdiv (Qc_of_Z d4) (Qc_of_Z 255)) (fdiv (Qc_of_Z 100) (Qc_of_Z 256)).

Definition wheelCourse (d5 : Z) : Qc :=
  fmul (fdiv (Qc_of_Z d5) (Qc_of_Z 255))
    (fsub (Qc_of_Z 100) (fdiv (Qc_of_Z 100) (Qc_of_Z 256))).

Definition wheelTurn (data : list Z) : number :=
  match data !! 4%nat, data !! 5%nat with
  | Some d4, Some d5 =>
      Fin (Qc_min
             (Qc_max (round (fadd (wheelCourse d5) (wheelFine d4)) 2)
                (Qc_of_Z 0))
             (Qc_of_Z 100))
  | _, _ => NaN (* an undefined operand makes the whole expression NaN *)
  end.

Definition pedalToPercent (num : Z) : number :=
  Fin (round (fdiv (Qc_of_Z (Z.abs (num - 255))) (Qc_of_Z 255)) 2).

(** An object literal or accumulator whose keys are enumerated in insertion
    order. *)
Definition obj : Type := list (string * number).

(** [o[key] = value]: overwrite in place, or append a new key. *)
Fixpoint obj_set (key : string) (value : number) (o : obj) : obj :=
  match o with
  | [] => [(key, value)]
  | (k, v) :: o' =>
      if bool_decide (k = key) then (k, value) :: o'
      else (k, v) :: obj_set key value o'
  end.

(** [state[key] !== value], where [state[key]] may be undefined. *)
Definition differs (old : option number) (value : number) : bool :=
  match old with
  | Some o => negb (strict_eq o value)
  | None => true
  end.

(** [compareState({state, changes, pairs})]: both [state] and [changes] are
    mutated, so both are threaded. *)
Definition compareState (pairs : obj)
    (sc : gmap string number * obj) : gmap string number * obj :=
  fold_left
    (fun acc kv =>
       if differs (acc.1 !! kv.1) kv.2
       then (<[kv.1 := kv.2]> acc.1, obj_set kv.1 kv.2 acc.2)
       else acc)
    pairs sc.

(** The [pairs] literal built by the [switch (index)] of [updateState]; an
    index without a [case] compares nothing.  Inside the loop
    [index < data.length], so [data[index]] is defined; in [case 11],
    [data[2]] is defined as well. *)
Definition pairs_at (index : nat) (data : list Z) : obj :=
  match index with
  | 0%nat =>
      let value0 := data !!! 0%nat in
      [ ("wheel-dpad", int (wheelDpad value0));
        ("wheel-button_x", flag value0 16);
        ("wheel-button_square", flag value0 32);
        ("wheel-button_circle", flag value0 64);
        ("wheel-button_triangle", flag value0 128) ]
  | 1%nat =>
      let value1 := data !!! 1%nat in
      [ ("wheel-shift_right", int (Z.land value1 1));
        ("wheel-shift_left", flag value1 2);
        ("wheel-button_r2", flag value1 4);
        ("wheel-button_l2", flag value1 8);
        ("wheel-button_share", flag value1 16);
        ("wheel-button_option", flag value1 32);
        ("wheel-button_r3", flag value1 64);
        ("wheel-button_l3", flag value1 128) ]
  | 2%nat =>
      let value2 := data !!! 2%nat in
      [ ("shifter-gear", int (shifterGear value2));
        ("wheel-button_plus", flag value2 128) ]
  | 3%nat =>
      let value3 := data !!! 3%nat in
      let spinner :=
        if truthy (Z.land value3 2) then 1
        else if truthy (Z.land value3 4) then -1
        else 0 in
      [ ("wheel-spinner", int spinner);
        ("wheel-button_minus", int (Z.land value3 1));
        ("wheel-button_spinner", flag value3 8);
        ("wheel-button_playstation", flag value3 16) ]
  | 4%nat | 5%nat => [ ("wheel-turn", wheelTurn data) ]
  | 6%nat => [ ("pedals-gas", pedalToPercent (data !!! 6%nat)) ]
  | 7%nat => [ ("pedals-brake", pedalToPercent (data !!! 7%nat)) ]
  | 8%nat => [ ("pedals-clutch", pedalToPercent (data !!! 8%nat)) ]
  | 11%nat => [ ("shifter-gear", int (shifterGear (data !!! 2%nat))) ]
  | _ => []
  end.

(** The keys of that literal. *)
Definition keys_at (index : nat) : list string := (pairs_at index []).*1.

(** One turn of the [for] loop of [updateState]. *)
Definition update_index (data lastData : list Z)
    (sc : gmap string number * obj) (index : nat) : gmap string number * obj :=
  if bool_decide (data !! index ≠ lastData !! index)
  then compareState (pairs_at index data) sc
  else sc.

(** [updateState(data, lastData, state)]: the mutated state and the returned
    [changes]. *)
Definition updateState (data lastData : list Z) (state : gmap string number)
  : gmap string number * obj :=
  fold_left (update_index data lastData) (seq 0 (length data)) (state, []).

End DataMap.

(* ===================================================================== *)
(** * The LogitechG29 class                                               *)
(* ===================================================================== *)

Module Rig.

Record LogitechG29Options : Type := {
  autocenter : bool;
  debug : bool;
  range : Z }.

(** What an event carries: a value, the changes, the copy of the state, the
    raw report, the error of the device, or nothing. *)
Inductive payload : Type :=
| PNumber (v : number)
| PChanges (changes : DataMap.obj)
| PState (snapshot : gmap string (option Qc))
| PData (data : list Z)
| PError
| PNone.

(** [eventEmitter.emit(channel, arg)]. *)
Record event : Type := Emit { channel : string; arg : payload }.

(** The fields of an instance.  The HID handle is the log of the frames
    written to it ([None] while [device] is undefined), and [emitted] is the
    log of the calls to [eventEmitter.emit]. *)
Record LogitechG29 : Type := {
  device : option (list (list Z));
  emitted : list event;
  lastData : list Z;
  lastLedValue : Z;
  options : LogitechG29Options;
  prependWrite : bool;
  state : gmap string number }.

(** [new LogitechG29(options)]; [win32] is [os.platform() === 'win32']. *)
Definition new (win32 : bool) (opts : LogitechG29Options) : LogitechG29 :=
  {| device := None;
     emitted := [];
     lastData := replicate 12 0;
     lastLedValue := 0;
     options := {| autocenter := autocenter opts;
                   debug := debug opts;
                   range := Z.min (Z.max (range opts) 40) 900 |};
     prependWrite := win32;
     state := ∅ |}.

(** The part of [connect] that opens the handle:
    [this.device = new hid.HID(...)]. *)
Definition open_device (self : LogitechG29) : LogitechG29 :=
  {| device := Some [];
     emitted := emitted self;
     lastData := lastData self;
     lastLedValue := lastLedValue self;
     options := options self;
     prependWrite := prependWrite self;
     state := state self |}.

(** [relay(data)]: [this.device?.write(data)]. *)
Definition relay (data : list Z) (self : LogitechG29) : LogitechG29 :=
  {| device := (fun log => log ++ [data]) <$> device self;
     emitted := emitted self;
     lastData := lastData self;
     lastLedValue := lastLedValue self;
     options := options self;
     prependWrite := prependWrite self;
     state := state self |}.

(** [relayOS(data)]. *)
Definition relayOS (data : list Z) (self : LogitechG29) : LogitechG29 :=
  relay (if prependWrite self then 0 :: data else data) self.

(** [setRange()]. *)
Definition setRange (self : LogitechG29) : LogitechG29 :=
  let range1 := Z.land (range (options self)) 0x00ff in
  let range2 := Z.shiftr (Z.land (range (options self)) 0xff00) 8 in
  relayOS [0xf8; 0x81; range1; range2; 0x00; 0x00; 0x00] self.

(** [leds(value)]. *)
Definition leds (value : Z) (self : LogitechG29) : LogitechG29 :=
  if lastLedValue self =? value then self
  else
    let value := Z.min (Z.max value 0) 31 in
    let self := relayOS [0xf8; 0x12; value; 0x00; 0x00; 0x00; 0x01] self in
    {| device := device self;
       emitted := emitted self;
       lastData := lastData self;
       lastLedValue := value;
       options := options self;
       prependWrite := prependWrite self;
       state := state self |}.

(** [JSON.parse(JSON.stringify(state))]: a copy in which a finite number is
    itself and [NaN] has become [null] ([None]). *)
Definition snapshot (state : gmap string number) : gmap string (option Qc) :=
  (λ v, match v with Fin q => Some q | NaN => None end) <$> state.

(** The events emitted for one report, given the result of [updateState]. *)
Definition report_events (data : list Z) (state' : gmap string number)
    (changes : DataMap.obj) : list event :=
  (if bool_decide (0 < length changes)%nat
   then map (fun kv => Emit kv.1 (PNumber kv.2)) changes
        ++ [Emit "changes" (PChanges changes)]
   else [])
  ++ [Emit "all" (PState (snapshot state')); Emit "data" (PData data)].

(** The ['data'] handler installed by [listen]. *)
Definition on_data (data : list Z) (self : LogitechG29) : LogitechG29 :=
  let r := DataMap.updateState data (lastData self) (state self) in
  {| device := device self;
     emitted := emitted self ++ report_events data r.1 r.2;
     lastData := data;
     lastLedValue := lastLedValue self;
     options := options self;
     prependWrite := prependWrite self;
     state := r.1 |}.



(** What [relayOS] hands to the device for a 7-byte command frame. *)
Definition os_frame (self : LogitechG29) (frame : list Z) : list Z :=
  if prependWrite self then 0 :: frame else frame.

(** [parseInt] of a string made of the prefix [0x] and of decimal digits:
    every decimal digit is a hexadecimal digit, so the whole string is read
    in base 16. *)
Fixpoint hex_value (digits : Decimal.uint) (acc : Z) : Z :=
  match digits with
  | Decimal.Nil => acc
  | Decimal.D0 d => hex_value d (16 * acc + 0)
  | Decimal.D1 d => hex_value d (16 * acc + 1)
  | Decimal.D2 d => hex_value d (16 * acc + 2)
  | Decimal.D3 d => hex_value d (16 * acc + 3)
  | Decimal.D4 d => hex_value d (16 * acc + 4)
  | Decimal.D5 d => hex_value d (16 * acc + 5)
  | Decimal.D6 d => hex_value d (16 * acc + 6)
  | Decimal.D7 d => hex_value d (16 * acc + 7)
  | Decimal.D8 d => hex_value d (16 * acc + 8)
  | Decimal.D9 d => hex_value d (16 * acc + 9)
  end.

(** The first digit of a decimal numeral. *)
Definition first_digit (digits : Decimal.uint) : Z :=
  match digits with
  | Decimal.Nil | Decimal.D0 _ => 0
  | Decimal.D1 _ => 1
  | Decimal.D2 _ => 2
  | Decimal.D3 _ => 3
  | Decimal.D4 _ => 4
  | Decimal.D5 _ => 5
  | Decimal.D6 _ => 6
  | Decimal.D7 _ => 7
  | Decimal.D8 _ => 8
  | Decimal.D9 _ => 9
  end.

(** From 10^21 on, [toFixed] gives the exponent notation of the number:
    "de+NN" when a decimal d × 10^NN of one digit has [slot] as its nearest
    double, and "d.ddd…e+NN" otherwise.  The result is the digit [d] of the
    first form, if that is the form. *)
Definition single_digit (slot : nat) : option Z :=
  let d := first_digit (Nat.to_uint slot) in
  let e := Z.of_nat (Decimal.nb_digits (Nat.to_uint slot)) - 1 in
  if bool_decide (double (Qc_of_Z (d * 10 ^ e)) = Qc_of_Z (Z.of_nat slot))
  then Some d
  else if bool_decide (double (Qc_of_Z ((d + 1) * 10 ^ e))
                       = Qc_of_Z (Z.of_nat slot))
  then Some (if d =? 9 then 1 else d + 1)
  else None.

(** [parseInt(`0x${slot.toFixed(0)}0`)] for a slot that is a non-negative
    integer.  Below 10^21, [toFixed(0)] gives the decimal digits of the
    slot, which are read first, and then the final [0].  From 10^21 on the
    string is in exponent notation and [parseInt] stops at its sign or at
    its point: it has read the first digit and the [e] of "de+NN", or the
    first digit of "d.ddd…e+NN". *)
Definition slot_opcode (slot : nat) : Z :=
  if Z.of_nat slot <? 10 ^ 21
  then hex_value (Decimal.D0 Decimal.Nil) (hex_value (Nat.to_uint slot) 0)
  else match single_digit slot with
       | Some d => 16 * d + 14
       | None => first_digit (Nat.to_uint slot)
       end.

(** [forceOff(slot = 0)]; the slot is a non-negative integer, [None] when
    the argument is left out. *)
Definition forceOff (slot : option nat) (self : LogitechG29) : LogitechG29 :=
  let slot := default 0%nat slot in
  let slot := if (slot =? 0)%nat then 0xf3 else slot_opcode slot in
  relayOS [slot; 0x00; 0x00; 0x00; 0x00; 0x00; 0x00] self.

(** [forceConstant(number = 0.5)]; the level is a finite double. *)
Definition forceConstant (number : option Qc) (self : LogitechG29)
  : LogitechG29 :=
  let number := default (Q2Qc (1 # 2)) number in
  if bool_decide (number = Q2Qc (1 # 2)) then forceOff (Some 1%nat) self
  else
    relayOS
      [0x11; 0x00;
       Math_round (fmul (Qc_abs (fsub number (Qc_of_Z 1))) (Qc_of_Z 255));
       0x00; 0x00; 0x00; 0x00] self.

(** [forceFriction(number = 0)]; the level is a finite double. *)
Definition forceFriction (number : option Qc) (self : LogitechG29)
  : LogitechG29 :=
  let number := default (Qc_of_Z 0) number in
  if bool_decide (number = Qc_of_Z 0) then forceOff (Some 2%nat) self
  else
    let number := Math_round (fmul number (Qc_of_Z 7)) in
    relayOS [0x21; 0x02; number; 0x00; number; 0x00; 0x00] self.

(** [ledsSimple(value)]. *)
Definition ledsSimple (value : Z) (self : LogitechG29) : LogitechG29 :=
  let value :=
    if 5 <=? value then 31
    else if 4 <=? value then 15
    else if 3 <=? value then 7
    else if 2 <=? value then 3
    else if 1 <=? value then 1
    else 0 in
  leds value self.

(** [autoCenter()].  [options.autocenter] is declared a boolean, for which
    [Array.isArray] is false: an enabled auto-center always takes the
    default strength profile. *)
Definition autoCenter (self : LogitechG29) : LogitechG29 :=
  if autocenter (options self) then
    let self := relayOS [0x14; 0x00; 0x00; 0x00; 0x00; 0x00; 0x00] self in
    relayOS [0xfe; 0x0d; 0x07; 0x07; 0xff; 0x00; 0x00; 0x00] self
  else relayOS [0xf5; 0x00; 0x00; 0x00; 0x00; 0x00; 0x00] self.

(** [eventEmitter.emit(channel, arg)] on the emitter of the instance. *)
Definition emit (channel : string) (arg : payload) (self : LogitechG29)
  : LogitechG29 :=
  {| device := device self;
     emitted := emitted self ++ [Emit channel arg];
     lastData := lastData self;
     lastLedValue := lastLedValue self;
     options := options self;
     prependWrite := prependWrite self;
     state := state self |}.

(** [listen(ready)]: the handle is opened anew unless the wheel is ready,
    the range and the auto-centering are sent, the ['data'] handler
    [on_data] is installed, the LEDs are switched off and ['ready'] is
    emitted. *)
Definition listen (ready : bool) (self : LogitechG29) : LogitechG29 :=
  let self := if ready then self else open_device self in
  let self := autoCenter (setRange self) in
  let self := leds 0 self in
  emit "ready" PNone self.

(** [connect()], with the steps in the order in which they run: the handle
    is opened and [forceConstant(1)] makes the wheel answer; [read] is the
    report that the callback of [device.read] receives, [None] when it
    receives an error.  A wheel that does not answer with 12 bytes is sent
    the two initialisation frames before [listen(false)]. *)
Definition connect (read : option (list Z)) (self : LogitechG29)
  : LogitechG29 :=
  let self := forceConstant (Some (Qc_of_Z 1)) (open_device self) in
  match read with
  | None => self
  | Some data =>
      let self := forceOff None self in
      if (length data =? 12)%nat then listen true self
      else
        let self := relayOS [0xf8; 0x0a; 0x00; 0x00; 0x00; 0x00; 0x00] self in
        let self := relayOS [0xf8; 0x09; 0x05; 0x01; 0x01; 0x00; 0x00] self in
        listen false self
  end.

(** The instances that a program can see: a constructed instance, after
    any sequence of method calls, of input reports and of errors of the
    device, which the ['error'] handler installed by [listen] passes on. *)
Inductive reachable : LogitechG29 → Prop :=
| reach_new (win32 : bool) (opts : LogitechG29Options) :
    reachable (new win32 opts)
| reach_open (self : LogitechG29) :
    reachable self → reachable (open_device self)
| reach_setRange (self : LogitechG29) :
    reachable self → reachable (setRange self)
| reach_leds (value : Z) (self : LogitechG29) :
    reachable self → reachable (leds value self)
| reach_data (data : list Z) (self : LogitechG29) :
    reachable self →
    length data = 12%nat → Forall (λ b, 0 <= b <= 255) data →
    reachable (on_data data self)
| reach_ledsSimple (value : Z) (self : LogitechG29) :
    reachable self → reachable (ledsSimple value self)
| reach_autoCenter (self : LogitechG29) :
    reachable self → reachable (autoCenter self)
| reach_forceOff (slot : option nat) (self : LogitechG29) :
    reachable self → reachable (forceOff slot self)
| reach_forceConstant (number : option Qc) (self : LogitechG29) :
    reachable self → reachable (forceConstant number self)
| reach_forceFriction (number : option Qc) (self : LogitechG29) :
    reachable self → reachable (forceFriction number self)
| reach_relay (data : list Z) (self : LogitechG29) :
    reachable self → reachable (relay data self)
| reach_relayOS (data : list Z) (self : LogitechG29) :
    reachable self → reachable (relayOS data self)
| reach_listen (ready : bool) (self : LogitechG29) :
    reachable self → reachable (listen ready self)
| reach_connect (read : option (list Z)) (self : LogitechG29) :
    reachable self → reachable (connect read self)
| reach_error (self : LogitechG29) :
    reachable self → reachable (emit "error" PError self).

(** A call made on an instance: one of the command methods, or the arrival
    of an input report. *)
Inductive call : Type :=
| CallSetRange
| CallAutoCenter
| CallLeds (value : Z)
| CallLedsSimple (value : Z)
| CallForceOff (slot : option nat)
| CallForceConstant (number : option Qc)
| CallForceFriction (number : option Qc)
| CallData (data : list Z).

Definition do_call (c : call) (self : LogitechG29) : LogitechG29 :=
  match c with
  | CallSetRange => setRange self
  | CallAutoCenter => autoCenter self
  | CallLeds value => leds value self
  | CallLedsSimple value => ledsSimple value self
  | CallForceOff slot => forceOff slot self
  | CallForceConstant number => forceConstant number self
  | CallForceFriction number => forceFriction number self
  | CallData data => on_data data self
  end.

(** The calls of a list, made one after the other. *)
Definition do_calls (cs : list call) (self : LogitechG29) : LogitechG29 :=
  fold_left (λ self c, do_call c self) cs self.


End Rig.

(* ===================================================================== *)
(** * utils.ts                                                            *)
(* ===================================================================== *)

Module Utils.

(** The fields of a node-hid device description that the search reads;
    [path], [product] and [usagePage] may be undefined. *)
Record Device : Type := {
  vendorId : Z;
  productId : Z;
  path : option string;
  product : option string;
  interface : Z;
  usagePage : option Z }.

(** The predicate given to [find]. *)
Definition is_wheel (device : Device) : bool :=
  (vendorId device =? 1133)
  && ((productId device =? 49743)
      || bool_decide (product device = Some "G29 Driving Force Racing Wheel"))
  && ((interface device =? 0) || bool_decide (usagePage device = Some 1)).

(** [new DeviceError({name, message})]. *)
Record DeviceError : Type := { name : string; message : string }.

(** [getWheelDevicePath(options)], given the list returned by
    [hid.devices()]; a thrown error is the right summand. *)
Definition getWheelDevicePath (devices : list Device) : string + DeviceError :=
  let devicePath :=
    match List.find is_wheel devices with
    | Some device => path device
    | None => None
    end in
  match devicePath with
  | None =>
      inr {| name := "DEVICE_NOT_FOUND";
             message :=
               "Could not find a G29 Wheel. Make sure it's plugged in." |}
  | Some devicePath => inl devicePath
  end.

End Utils.

(* ===================================================================== *)
(** * The specification's own formulas                                    *)
(* ===================================================================== *)

Module Spec.

(** A value given in hundredths. *)
Definition hundredths (n : Z) : Qc := (Qc_of_Z n / Qc_of_Z 100)%Qc.

(** "round to 2 decimals". *)
Definition round_2dec (x : Qc) : Qc :=
  hundredths (Qfloor (x * Qc_of_Z 100 + Q2Qc (1 # 2))%Qc).

(** "clamp(x, lo, hi)". *)
Definition clamp (x lo hi : Qc) : Qc :=
  if decide (x < lo)%Qc then lo else if decide (hi < x)%Qc then hi else x.

(** "fine = (byte4/255) × (100/256)". *)
Definition fine (byte4 : Z) : Qc :=
  (Qc_of_Z byte4 / Qc_of_Z 255 * (Qc_of_Z 100 / Qc_of_Z 256))%Qc.

(** "coarse = (byte5/255) × (100 − 100/256)". *)
Definition coarse (byte5 : Z) : Qc :=
  (Qc_of_Z byte5 / Qc_of_Z 255
   * (Qc_of_Z 100 - Qc_of_Z 100 / Qc_of_Z 256))%Qc.

(** "turn = clamp(round(coarse+fine, 2 decimals), 0, 100)". *)
Definition turn (byte4 byte5 : Z) : Qc :=
  clamp (round_2dec (coarse byte5 + fine byte4)%Qc) (Qc_of_Z 0) (Qc_of_Z 100).


(** The double that the decimal n/100 stands for. *)
Definition double_hundredths (n : Z) : Qc := double (hundredths n).

(** The values of 255 × byte5 + byte4 whose exact sum coarse + fine ends in
    half a hundredth and whose sum in doubles is below that half. *)
Definition rounds_down (n : Z) : bool :=
  (n =? 20808) || (n =? 35496) || (n =? 39576).

(** The hundredths of the turn that the arithmetic of doubles gives. *)
Definition turn_code (byte4 byte5 : Z) : Z :=
  let n := 255 * byte5 + byte4 in
  (125 * n + 408) / 816 - (if rounds_down n then 1 else 0).

(** A lookup table with a value for "anything else". *)
Fixpoint lookup_code (table : list (Z * Z)) (other code : Z) : Z :=
  match table with
  | [] => other
  | (c, v) :: table' => if code =? c then v else lookup_code table' other code
  end.

(** "dpad: 8→0, 7→8, 6→7, 5→6, 4→5, 3→4, 2→3, 1→2, 0→1, anything else→0". *)
Definition dpad_table : list (Z * Z) :=
  [(8, 0); (7, 8); (6, 7); (5, 6); (4, 5); (3, 4); (2, 3); (1, 2); (0, 1)].

(** "gear: 0→0,1→1,2→2,4→3,8→4,16→5,32→6,64→−1, anything else→0". *)
Definition gear_table : list (Z * Z) :=
  [(0, 0); (1, 1); (2, 2); (4, 3); (8, 4); (16, 5); (32, 6); (64, -1)].

(** The sum of the flag bits 16, 32, 64, 128 that are set. *)
Definition flag_bits (b16 b32 b64 b128 : bool) : Z :=
  (if b16 then 16 else 0) + (if b32 then 32 else 0)
  + (if b64 then 64 else 0) + (if b128 then 128 else 0).

(** "clamped to lo–hi", on integers. *)
Definition clamp_int (x lo hi : Z) : Z :=
  if x <? lo then lo else if hi <? x then hi else x.

(** The documented range of a field: an interval of integers or of
    fractions. *)
Inductive range : Type :=
| Ints (lo hi : Z)
| Fractions (lo hi : Z).

(** "dpad ∈ {0..8}; gear ∈ {-1,0,1,2,3,4,5,6}; turn ∈ [0,100]; pedal values
    ∈ [0,1]; spinner (−1, 0, or 1); every boolean field ∈ {0,1}". *)
Definition field_ranges : list (string * range) :=
  [ ("wheel-dpad", Ints 0 8);
    ("shifter-gear", Ints (-1) 6);
    ("wheel-turn", Fractions 0 100);
    ("pedals-gas", Fractions 0 1);
    ("pedals-brake", Fractions 0 1);
    ("pedals-clutch", Fractions 0 1);
    ("wheel-spinner", Ints (-1) 1);
    ("wheel-button_x", Ints 0 1);
    ("wheel-button_square", Ints 0 1);
    ("wheel-button_circle", Ints 0 1);
    ("wheel-button_triangle", Ints 0 1);
    ("wheel-shift_right", Ints 0 1);
    ("wheel-shift_left", Ints 0 1);
    ("wheel-button_r2", Ints 0 1);
    ("wheel-button_l2", Ints 0 1);
    ("wheel-button_share", Ints 0 1);
    ("wheel-button_option", Ints 0 1);
    ("wheel-button_r3", Ints 0 1);
    ("wheel-button_l3", Ints 0 1);
    ("wheel-button_plus", Ints 0 1);
    ("wheel-button_minus", Ints 0 1);
    ("wheel-button_spinner", Ints 0 1);
    ("wheel-button_playstation", Ints 0 1) ].

Fixpoint range_of (table : list (string * range)) (key : string)
  : option range :=
  match table with
  | [] => None
  | (k, r) :: table' =>
      if String.eqb key k then Some r else range_of table' key
  end.

Definition in_range (r : range) (v : number) : Prop :=
  match r, v with
  | Ints lo hi, Fin q => ∃ z : Z, q = Qc_of_Z z ∧ lo <= z <= hi
  | Fractions lo hi, Fin q => (Qc_of_Z lo <= q)%Qc ∧ (q <= Qc_of_Z hi)%Qc
  | _, NaN => False
  end.

(** The value [v] of field [key] is in the documented range of that field;
    a key that is not a field has no admissible value. *)
Definition field_ok (key : string) (v : number) : Prop :=
  match range_of field_ranges key with
  | Some r => in_range r v
  | None => False
  end.

Definition state_ok (state : gmap string number) : Prop :=
  ∀ key v, state !! key = Some v → field_ok key v.

Definition obj_ok (o : list (string * number)) : Prop :=
  Forall (λ kv, field_ok kv.1 kv.2) o.

(** "new report [0,0,0,0,0,0,128,255,255,0,0,0] → changed-field set exactly
    {gas: 0.50, brake: 0.00, clutch: 0.00}". *)
Definition scenario_report : list Z :=
  [0; 0; 0; 0; 0; 0; 128; 255; 255; 0; 0; 0].


(** The state and the accumulated changes hold in-range values only. *)
Definition both_ok (sc : gmap string number * list (string * number)) : Prop :=
  state_ok sc.1 ∧ obj_ok sc.2.

(** The value [v] is what a report gives for field [key], at some index. *)
Definition decodes (data : list Z) (key : string) (v : number) : Prop :=
  ∃ index : nat, (key, v) ∈ DataMap.pairs_at index data.

(** The state holds, for every field it has, the value that the last report
    gives for it. *)
Definition follows_last_report (lastData : list Z)
    (state : gmap string number) : Prop :=
  ∀ key v, state !! key = Some v → decodes lastData key v.

(** The pair [sc] of a state and of a list of changes is the state [st0]
    together with its difference to [st0]: the changes have distinct keys,
    each is decoded from the report, is in the state and is not in [st0],
    and the state is [st0] at every other key. *)
Definition is_diff (data : list Z) (st0 : gmap string number)
    (sc : gmap string number * DataMap.obj) : Prop :=
  NoDup sc.2.*1
  ∧ (∀ key v, (key, v) ∈ sc.2 →
       sc.1 !! key = Some v ∧ st0 !! key ≠ Some v ∧ decodes data key v)
  ∧ (∀ key, key ∉ sc.2.*1 → sc.1 !! key = st0 !! key).

(** The bit of [value] selected by [mask], as 0 or 1. *)
Definition bit (value mask : Z) : Z :=
  if DataMap.truthy (Z.land value mask) then 1 else 0.

(** An input report: 12 bytes. *)
Definition is_byte (b : Z) : Prop := 0 <= b <= 255.
Definition is_report (data : list Z) : Prop :=
  length data = 12%nat ∧ Forall is_byte data.

End Spec.

(* ===================================================================== *)
(** * The bitfield-recovery loop                                          *)
(* ===================================================================== *)

Section ReduceLoop.

(** One unfolding of the loop. *)
Lemma reduce_while_unfold (to num y : Z) :
  DataMap.reduce_while to num y =
  if 1 <? y then
    if num <? to then num
    else DataMap.reduce_while to
           (if 0 <=? num - y then num - y else num) (y / 2)
  else num.
Proof.
  rewrite DataMap.reduce_while_equation_1.
  destruct (Z_lt_dec 1 y) as [Hy | Hy]; simpl.
  - apply Z.ltb_lt in Hy. rewrite Hy. reflexivity.
  - apply Z.ltb_nlt in Hy. rewrite Hy. reflexivity.
Qed.

(** A run that finishes within its fuel returns what the loop returns. *)
Lemma reduce_fuel_sound (fuel : nat) :
  ∀ to num y r k,
    DataMap.reduce_fuel fuel to num y = Some (r, k) →
    DataMap.reduce_while to num y = r ∧ (k ≤ fuel)%nat.
Proof.
  induction fuel as [| fuel IH]; intros to num y r k Hrun;
    rewrite reduce_while_unfold; simpl in Hrun;
    destruct (1 <? y) eqn:Hy; try discriminate.
  - injection Hrun as <- <-. split; [reflexivity | lia].
  - destruct (num <? to) eqn:Hlt.
    + injection Hrun as <- <-. split; [reflexivity | lia].
    + destruct (DataMap.reduce_fuel fuel to _ (y / 2)) as [[r' k'] |] eqn:Hrec;
        try discriminate.
      injection Hrun as <- <-.
      apply IH in Hrec as [Hr Hk]. split; [exact Hr | lia].
  - injection Hrun as <- <-. split; [reflexivity | lia].
Qed.

(** The probe is halved on every entry, so [fuel] entries are enough as
    soon as [y <= 2 ^ fuel]. *)
Lemma reduce_fuel_enough (fuel : nat) :
  ∀ to num y, y <= 2 ^ Z.of_nat fuel →
    ∃ r k, DataMap.reduce_fuel fuel to num y = Some (r, k).
Proof.
  induction fuel as [| fuel IH]; intros to num y Hy; simpl.
  - change (2 ^ Z.of_nat 0) with 1 in Hy.
    assert ((1 <? y) = false) as -> by (apply Z.ltb_ge; lia). eauto.
  - destruct (1 <? y) eqn:H1; [| eauto].
    destruct (num <? to); [eauto |].
    destruct (IH to (if 0 <=? num - y then num - y else num) (y / 2))
      as (r & k & Hrec).
    { rewrite Nat2Z.inj_succ, Z.pow_succ_r in Hy by lia.
      apply Z.div_le_upper_bound; lia. }
    rewrite Hrec. eauto.
Qed.

(** More fuel does not change a finished run. *)
Lemma reduce_fuel_mono (fuel : nat) :
  ∀ fuel' to num y r k,
    (fuel ≤ fuel')%nat →
    DataMap.reduce_fuel fuel to num y = Some (r, k) →
    DataMap.reduce_fuel fuel' to num y = Some (r, k).
Proof.
  induction fuel as [| fuel IH]; intros fuel' to num y r k Hle Hrun;
    simpl in Hrun; destruct (1 <? y) eqn:Hy; try discriminate.
  - destruct fuel'; simpl; rewrite Hy; exact Hrun.
  - destruct fuel' as [| fuel']; [lia |]. simpl. rewrite Hy.
    destruct (num <? to); [exact Hrun |].
    destruct (DataMap.reduce_fuel fuel to _ (y / 2)) as [[r' k'] |] eqn:Hrec;
      try discriminate.
    rewrite (IH fuel' _ _ _ _ _ ltac:(lia) Hrec). exact Hrun.
  - destruct fuel'; simpl; rewrite Hy; exact Hrun.
Qed.

End ReduceLoop.

(** The bound of 7 entries is reached, so it cannot be lowered. *)
Example reduce_fuel_seven_entries :
  DataMap.reduce_fuel 7 (0 * 2) 255 128 = Some (1, 7%nat)
  ∧ DataMap.reduce_fuel 6 (0 * 2) 255 128 = None.
Proof. split; reflexivity. Qed.

(** C10. [reduceNumberFromTo] terminates on every input and threshold:
    the loop body is entered [k] times for some [k <= 7], after which the
    loop has exited with the value the function returns, and any bound of at
    least 7 entries gives that same run.  Hence [wheelDpad] and
    [shifterGear], which apply their switch to the value recovered with
    thresholds 8 and 64, return on every input. *)
Theorem reduceNumberFromTo_terminates (num to : Z) :
  (∃ k : nat,
      (k ≤ 7)%nat
      ∧ ∀ fuel : nat, (7 ≤ fuel)%nat →
          DataMap.reduce_fuel fuel (to * 2) num 128
          = Some (DataMap.reduceNumberFromTo num to, k))
  ∧ (∃ (k : nat) (code : Z),
        (k ≤ 7)%nat
        ∧ DataMap.reduce_fuel 7 (8 * 2) num 128 = Some (code, k)
        ∧ DataMap.wheelDpad num = DataMap.dpad_of_code code)
  ∧ (∃ (k : nat) (code : Z),
        (k ≤ 7)%nat
        ∧ DataMap.reduce_fuel 7 (64 * 2) num 128 = Some (code, k)
        ∧ DataMap.shifterGear num = DataMap.gear_of_code code).
Proof.
  assert (Hrun : ∀ t, ∃ k, (k ≤ 7)%nat ∧
            DataMap.reduce_fuel 7 t num 128
            = Some (DataMap.reduce_while t num 128, k)).
  { intros t.
    destruct (reduce_fuel_enough 7 t num 128) as (r & k & Hrun); [lia |].
    destruct (reduce_fuel_sound _ _ _ _ _ _ Hrun) as [<- Hk]. eauto. }
  split; [| split].
  - destruct (Hrun (to * 2)) as (k & Hk & Hk7).
    exists k. split; [exact Hk |].
    intros fuel Hfuel. eapply reduce_fuel_mono; [exact Hfuel | exact Hk7].
  - destruct (Hrun (8 * 2)) as (k & Hk & Hk7). eauto.
  - destruct (Hrun (64 * 2)) as (k & Hk & Hk7). eauto.
Qed.

(* ===================================================================== *)
(** * Bitfield recovery and the lookup tables                             *)
(* ===================================================================== *)

Section Bitfields.

(** The switch of [wheelDpad] is the dpad table of the specification. *)
Lemma dpad_of_code_table (code : Z) :
  DataMap.dpad_of_code code = Spec.lookup_code Spec.dpad_table 0 code.
Proof.
  destruct code as [| p | p]; try reflexivity.
  do 4 (try destruct p as [p | p |]; try reflexivity).
Qed.

(** The switch of [shifterGear] is the gear table of the specification. *)
Lemma gear_of_code_table (code : Z) :
  DataMap.gear_of_code code = Spec.lookup_code Spec.gear_table 0 code.
Proof.
  destruct code as [| p | p]; try reflexivity.
  do 7 (try destruct p as [p | p |]; try reflexivity).
Qed.

Lemma dpad_of_code_range (code : Z) : 0 <= DataMap.dpad_of_code code <= 8.
Proof.
  rewrite dpad_of_code_table. unfold Spec.dpad_table. simpl.
  repeat (destruct (code =? _); [lia |]). lia.
Qed.

Lemma gear_of_code_range (code : Z) : -1 <= DataMap.gear_of_code code <= 6.
Proof.
  rewrite gear_of_code_table. unfold Spec.gear_table. simpl.
  repeat (destruct (code =? _); [lia |]). lia.
Qed.

(** A property checked on each of the 256 byte values holds of every
    byte. *)
Lemma forall_bytes (P : Z → bool) :
  forallb P (map Z.of_nat (seq 0 256)) = true →
  ∀ b, Spec.is_byte b → P b = true.
Proof.
  intros Hall b [Hlo Hhi].
  rewrite forallb_forall in Hall. apply Hall.
  apply in_map_iff. exists (Z.to_nat b). split; [lia |].
  apply in_seq. lia.
Qed.

(** On a byte, recovery with threshold 8 keeps the low four bits and
    recovery with threshold 64 keeps the low seven. *)
Lemma reduce_byte_8 (b : Z) :
  Spec.is_byte b → DataMap.reduceNumberFromTo b 8 = b mod 16.
Proof.
  intros Hb. apply Z.eqb_eq.
  apply (forall_bytes (λ b, DataMap.reduceNumberFromTo b 8 =? b mod 16));
    [vm_compute; reflexivity | exact Hb].
Qed.

Lemma reduce_byte_64 (b : Z) :
  Spec.is_byte b → DataMap.reduceNumberFromTo b 64 = b mod 128.
Proof.
  intros Hb. apply Z.eqb_eq.
  apply (forall_bytes (λ b, DataMap.reduceNumberFromTo b 64 =? b mod 128));
    [vm_compute; reflexivity | exact Hb].
Qed.

Lemma flag_bits_mult (b16 b32 b64 b128 : bool) :
  ∃ m, 0 <= m < 16 ∧ Spec.flag_bits b16 b32 b64 b128 = 16 * m.
Proof.
  destruct b16, b32, b64, b128; unfold Spec.flag_bits;
    match goal with
    | |- ∃ m, _ ∧ ?s = _ => exists (s / 16)
    end; vm_compute; repeat split; congruence.
Qed.

End Bitfields.

(** C3. Flag bits above the field do not disturb bitfield recovery: for a
    dpad code [c] in 0..8 and any combination [F] of the bits 16, 32, 64 and
    128, the byte [c + F] recovers the code [c] and decodes to the same dpad
    value as the byte [c]; for a gear code [c] among 0, 1, 2, 4, 8, 16, 32
    and 64, the byte [c + 128] recovers [c] and decodes to the same gear as
    [c], while the buttonPlus entry of the same byte reads bit 128 on its
    own (1 with the bit, 0 without). *)
Theorem bitfield_recovery_ignores_flags :
  (∀ (c : Z) (b16 b32 b64 b128 : bool),
      0 <= c <= 8 →
      let F := Spec.flag_bits b16 b32 b64 b128 in
      DataMap.reduceNumberFromTo (c + F) 8 = c
      ∧ DataMap.wheelDpad (c + F) = DataMap.wheelDpad c)
  ∧ (∀ c : Z,
        c ∈ [0; 1; 2; 4; 8; 16; 32; 64] →
        DataMap.reduceNumberFromTo (c + 128) 64 = c
        ∧ DataMap.shifterGear (c + 128) = DataMap.shifterGear c
        ∧ ∀ data : list Z,
            data !! 2%nat = Some (c + 128) →
            DataMap.pairs_at 2 data
            = [("shifter-gear", int (DataMap.shifterGear c));
               ("wheel-button_plus", int 1)])
  ∧ (∀ c : Z,
        c ∈ [0; 1; 2; 4; 8; 16; 32; 64] →
        ∀ data : list Z,
          data !! 2%nat = Some c →
          DataMap.pairs_at 2 data
          = [("shifter-gear", int (DataMap.shifterGear c));
             ("wheel-button_plus", int 0)]).
Proof.
  assert (Hdpad : ∀ c b16 b32 b64 b128, 0 <= c <= 8 →
            DataMap.reduceNumberFromTo
              (c + Spec.flag_bits b16 b32 b64 b128) 8 = c).
  { intros c b16 b32 b64 b128 Hc.
    destruct (flag_bits_mult b16 b32 b64 b128) as (m & Hm & ->).
    rewrite reduce_byte_8 by (unfold Spec.is_byte; lia).
    replace (c + 16 * m) with (c + m * 16) by lia.
    rewrite Z.mod_add by lia. apply Z.mod_small. lia. }
  assert (Hgear : ∀ c, c ∈ [0; 1; 2; 4; 8; 16; 32; 64] →
            DataMap.reduceNumberFromTo (c + 128) 64 = c
            ∧ DataMap.reduceNumberFromTo c 64 = c).
  { intros c Hc. repeat (apply elem_of_cons in Hc as [-> | Hc]);
      [split; reflexivity .. |]. inversion Hc. }
  split; [| split].
  - intros c b16 b32 b64 b128 Hc F. subst F. split.
    + apply Hdpad, Hc.
    + unfold DataMap.wheelDpad. rewrite (Hdpad _ _ _ _ _ Hc).
      rewrite reduce_byte_8 by (unfold Spec.is_byte; lia).
      rewrite Z.mod_small by lia. reflexivity.
  - intros c Hc. destruct (Hgear c Hc) as [Hhi Hlo].
    assert (Hsame : DataMap.shifterGear (c + 128) = DataMap.shifterGear c).
    { unfold DataMap.shifterGear. rewrite Hhi, Hlo. reflexivity. }
    split; [exact Hhi |]. split; [exact Hsame |].
    intros data Hd. unfold DataMap.pairs_at.
    rewrite (list_lookup_total_correct _ _ _ Hd), Hsame.
    do 2 f_equal. f_equal.
    repeat (apply elem_of_cons in Hc as [-> | Hc]); [reflexivity .. |].
    inversion Hc.
  - intros c Hc data Hd. unfold DataMap.pairs_at.
    rewrite (list_lookup_total_correct _ _ _ Hd).
    do 2 f_equal. f_equal.
    repeat (apply elem_of_cons in Hc as [-> | Hc]); [reflexivity .. |].
    inversion Hc.
Qed.

(* ===================================================================== *)
(** * Rounding to the nearest double                                      *)
(* ===================================================================== *)

Section Binary64.

Local Open Scope Q_scope.

(** Powers of two, with integer exponents. *)
Lemma pow2_pos (e : Z) : 0 < 2 ^ e.
Proof. apply Qpower_0_lt. reflexivity. Qed.

Lemma pow2_Z (a : Z) : (0 <= a)%Z → 2 ^ a == inject_Z (2 ^ a).
Proof. intros Ha. rewrite Zpower_Qpower by exact Ha. reflexivity. Qed.

(** A fraction against a quotient of two powers of two, by
    cross-multiplication. *)
Lemma fraction_pow2 (n : Z) (d : positive) (a b : Z) :
  (0 <= a)%Z → (0 <= b)%Z →
  ((2 ^ a * Zpos d <= n * 2 ^ b)%Z ↔ 2 ^ (a - b) <= n # d)
  ∧ ((n * 2 ^ b < 2 ^ a * Zpos d)%Z ↔ n # d < 2 ^ (a - b)).
Proof.
  intros Ha Hb.
  assert (Hpb : (0 < 2 ^ b)%Z) by (apply Z.pow_pos_nonneg; lia).
  assert (E : 2 ^ (a - b) == (2 ^ a # Z.to_pos (2 ^ b))).
  { rewrite Qpower_minus by discriminate. rewrite !pow2_Z by assumption.
    rewrite (Qmake_Qdiv (2 ^ a)). rewrite Z2Pos.id by exact Hpb.
    reflexivity. }
  rewrite E. unfold Qle, Qlt. cbn [Qnum Qden].
  rewrite Z2Pos.id by exact Hpb. split; split; lia.
Qed.

(** [binade x] is the exponent of the power of two at or below [x]. *)
Lemma binade_spec (x : Q) :
  0 < x → 2 ^ binade x <= x ∧ x < 2 ^ (binade x + 1).
Proof.
  destruct x as [n d]. intros Hx.
  assert (Hn : (0 < n)%Z).
  { unfold Qlt in Hx. cbn in Hx. lia. }
  unfold binade. cbn [Qnum Qden].
  pose proof (Z.log2_spec n Hn) as [Hn1 Hn2].
  pose proof (Z.log2_spec (Zpos d) eq_refl) as [Hd1 Hd2].
  pose proof (Z.log2_nonneg n) as Ha.
  pose proof (Z.log2_nonneg (Zpos d)) as Hb.
  set (a := Z.log2 n) in *. set (b := Z.log2 (Zpos d)) in *.
  assert (Hpa : (0 < 2 ^ a)%Z) by (apply Z.pow_pos_nonneg; lia).
  assert (Hpb : (0 < 2 ^ b)%Z) by (apply Z.pow_pos_nonneg; lia).
  destruct (Qle_bool (2 ^ (a - b)) (n # d)) eqn:Hle.
  - split; [by apply Qle_bool_iff |].
    replace (a - b + 1)%Z with (Z.succ a - b)%Z by lia.
    apply (fraction_pow2 n d (Z.succ a) b); [lia | lia |]. nia.
  - split.
    + replace (a - b - 1)%Z with (a - Z.succ b)%Z by lia.
      apply (fraction_pow2 n d a (Z.succ b)); [lia | lia |]. nia.
    + replace (a - b - 1 + 1)%Z with (a - b)%Z by lia.
      apply Qnot_le_lt. intros H. apply Qle_bool_iff in H. congruence.
Qed.

(** Rounding to an integer goes to the floor or to the next integer, by at
    most a half, and is monotone. *)
Lemma round_even_cases (x : Q) :
  (round_even x = Qfloor x ∧ x - inject_Z (Qfloor x) <= 1 # 2)
  ∨ (round_even x = (Qfloor x + 1)%Z ∧ 1 # 2 <= x - inject_Z (Qfloor x)).
Proof.
  unfold round_even.
  destruct (x - inject_Z (Qfloor x) ?= 1 # 2) eqn:Hc.
  - apply Qeq_alt in Hc. destruct (Z.even (Qfloor x)); [left | right];
      (split; [reflexivity | rewrite Hc; apply Qle_refl]).
  - apply Qlt_alt in Hc. left. split; [reflexivity | by apply Qlt_le_weak].
  - apply Qgt_alt in Hc. right. split; [reflexivity | by apply Qlt_le_weak].
Qed.

Lemma round_even_error (x : Q) :
  - (1 # 2) <= inject_Z (round_even x) - x
  ∧ inject_Z (round_even x) - x <= 1 # 2.
Proof.
  pose proof (Qfloor_le x) as Hlo. pose proof (Qlt_floor x) as Hhi.
  rewrite inject_Z_plus in Hhi. change (inject_Z 1) with 1 in Hhi.
  destruct (round_even_cases x) as [[-> H] | [-> H]].
  - split; lra.
  - rewrite inject_Z_plus. change (inject_Z 1) with 1. split; lra.
Qed.

Lemma round_even_mono (x y : Q) : x <= y → (round_even x <= round_even y)%Z.
Proof.
  intros Hxy.
  pose proof (Qfloor_resp_le _ _ Hxy) as Hf.
  destruct (Z.eq_dec (Qfloor x) (Qfloor y)) as [Heq | Hne].
  - unfold round_even. rewrite <- Heq.
    destruct (Qcompare_spec (x - inject_Z (Qfloor x)) (1 # 2))
      as [Hx | Hx | Hx];
      destruct (Qcompare_spec (y - inject_Z (Qfloor x)) (1 # 2))
        as [Hy | Hy | Hy];
      try destruct (Z.even (Qfloor x)); try lia; exfalso; lra.
  - destruct (round_even_cases x) as [[-> _] | [-> _]];
      destruct (round_even_cases y) as [[-> _] | [-> _]]; lia.
Qed.

Lemma round_even_Z (z : Z) : round_even (inject_Z z) = z.
Proof.
  unfold round_even. rewrite Qfloor_Z.
  replace (inject_Z z - inject_Z z ?= 1 # 2) with Lt; [reflexivity |].
  symmetry. apply (proj1 (Qlt_alt _ _)). lra.
Qed.

Lemma quantum_pos (x : Q) : 0 < quantum x.
Proof. apply pow2_pos. Qed.

(** The nearest double of a value in (0, B] is within B × 2^-53 of it. *)
Lemma nearest_error (x B : Q) :
  0 < x → x <= B → 1 <= B →
  - (B * (1 # 2 ^ 53)) <= nearest x - x ∧ nearest x - x <= B * (1 # 2 ^ 53).
Proof.
  intros Hx HB H1. unfold nearest.
  assert (Hqb : quantum x <= B * (1 # 2 ^ 52)).
  { unfold quantum.
    rewrite Qpower_minus by discriminate.
    assert (Hm : 2 ^ Z.max (binade x) (-1022) <= B).
    { destruct (Z.max_spec (binade x) (-1022)) as [[_ ->] | [_ ->]].
      - apply Qle_trans with 1; [| exact H1].
        apply Qlt_le_weak. reflexivity.
      - apply Qle_trans with x; [| exact HB]. by apply binade_spec. }
    set (p := 2 ^ Z.max (binade x) (-1022)) in *.
    change (2 ^ 52) with (4503599627370496 # 1).
    change (1 # 2 ^ 52) with (1 # 4503599627370496).
    unfold Qdiv.
    change (/ (4503599627370496 # 1)) with (1 # 4503599627370496).
    lra. }
  pose proof (quantum_pos x) as Hq.
  set (q := quantum x) in *.
  destruct (round_even_error (x / q)) as [Hlo Hhi].
  set (r := inject_Z (round_even (x / q))) in *.
  assert (Hxq : x / q * q == x) by (field; lra).
  set (y := x / q) in *.
  assert (Hlo' : 0 <= (r - y + (1 # 2)) * q)
    by (apply Qmult_le_0_compat; lra).
  assert (Hhi' : 0 <= ((1 # 2) - (r - y)) * q)
    by (apply Qmult_le_0_compat; lra).
  change (1 # 2 ^ 53) with (1 # 9007199254740992).
  change (1 # 2 ^ 52) with (1 # 4503599627370496) in Hqb.
  split; nra.
Qed.

(** Rounding to the nearest double is monotone: within a binade it is the
    rounding to an integer, and between two binades lies a power of two,
    which is a double. *)
Lemma nearest_mono (x y : Q) : 0 < x → x <= y → nearest x <= nearest y.
Proof.
  intros Hx Hxy.
  assert (Hy : 0 < y) by lra.
  destruct (binade_spec x Hx) as [Hx1 Hx2].
  destruct (binade_spec y Hy) as [Hy1 Hy2].
  assert (He : (binade x <= binade y)%Z).
  { apply Z.lt_succ_r.
    apply (Qpower_lt_compat_l_inv 2); [| reflexivity].
    unfold Z.succ. lra. }
  unfold nearest, quantum.
  set (ex := Z.max (binade x) (-1022)). set (ey := Z.max (binade y) (-1022)).
  pose proof (pow2_pos (ex - 52)) as Hqx.
  pose proof (pow2_pos (ey - 52)) as Hqy.
  destruct (Z.eq_dec ex ey) as [Heq | Hne].
  - rewrite <- Heq.
    apply Qmult_le_compat_r; [| lra].
    rewrite <- Zle_Qle. apply round_even_mono.
    apply Qmult_le_compat_r; [exact Hxy |].
    apply Qlt_le_weak, Qinv_lt_0_compat, Hqx.
  - assert (Hlt : (ex < ey)%Z) by lia.
    assert (Hey : ey = binade y) by lia.
    apply Qle_trans with (2 ^ ey).
    + (* the left value is at most 2^(ex+1) *)
      apply Qle_trans with (2 ^ (ex + 1)).
      * assert (Hr : (round_even (x / 2 ^ (ex - 52)) <= 2 ^ 53)%Z).
        { rewrite <- (round_even_Z (2 ^ 53)). apply round_even_mono.
          apply Qle_shift_div_r; [exact Hqx |].
          assert (E : inject_Z (2 ^ 53) * 2 ^ (ex - 52) == 2 ^ (ex + 1)).
          { rewrite <- pow2_Z by lia. rewrite <- Qpower_plus by discriminate.
            f_equiv. lia. }
          rewrite E. apply Qle_trans with (2 ^ (binade x + 1)); [lra |].
          apply Qpower_le_compat_l; [lia | discriminate]. }
        rewrite Zle_Qle in Hr.
        assert (E : 2 ^ (ex + 1) == inject_Z (2 ^ 53) * 2 ^ (ex - 52)).
        { rewrite <- pow2_Z by lia. rewrite <- Qpower_plus by discriminate.
          f_equiv. lia. }
        rewrite E. apply Qmult_le_compat_r; [exact Hr | lra].
      * apply Qpower_le_compat_l; [lia | discriminate].
    + assert (Hr : (2 ^ 52 <= round_even (y / 2 ^ (ey - 52)))%Z).
      { rewrite <- (round_even_Z (2 ^ 52)) at 1. apply round_even_mono.
        apply Qle_shift_div_l; [exact Hqy |].
        assert (E : inject_Z (2 ^ 52) * 2 ^ (ey - 52) == 2 ^ ey).
        { rewrite <- pow2_Z by lia. rewrite <- Qpower_plus by discriminate.
          f_equiv. lia. }
        rewrite E, Hey. exact Hy1. }
      rewrite Zle_Qle in Hr.
      assert (E : 2 ^ ey == inject_Z (2 ^ 52) * 2 ^ (ey - 52)).
      { rewrite <- pow2_Z by lia. rewrite <- Qpower_plus by discriminate.
        f_equiv. lia. }
      rewrite E at 1. apply Qmult_le_compat_r; [exact Hr | lra].
Qed.

Lemma nearest_nonneg (x : Q) : 0 < x → 0 <= nearest x.
Proof.
  intros Hx. unfold nearest. apply Qmult_le_0_compat.
  - change 0 with (inject_Z 0). rewrite <- Zle_Qle.
    rewrite <- (round_even_Z 0). apply round_even_mono.
    apply Qle_shift_div_l; [apply quantum_pos |].
    change (inject_Z 0) with 0. lra.
  - apply Qlt_le_weak, quantum_pos.
Qed.

End Binary64.

(** The same on numbers in canonical form. *)
Section Doubles.

(** [double] by the sign of its argument. *)
Lemma double_pos (x : Qc) : (0 < x)%Q → double x = Q2Qc (nearest x).
Proof.
  destruct x as [[n d] Hc]. unfold Qlt, double. cbn [this Qnum Qden].
  destruct n; [lia | reflexivity | lia].
Qed.

Lemma double_neg (x : Qc) :
  (x < 0)%Q → double x = (- Q2Qc (nearest (- x)))%Qc.
Proof.
  destruct x as [[n d] Hc]. unfold Qlt, double. cbn [this Qnum Qden].
  destruct n; [lia | lia | reflexivity].
Qed.

Lemma double_zero (x : Qc) : (x == 0)%Q → double x = x.
Proof.
  destruct x as [[n d] Hc]. unfold Qeq, double. cbn [this Qnum Qden].
  destruct n; [reflexivity | lia | lia].
Qed.

Lemma double_cases (x : Qc) :
  ((x == 0)%Q ∧ (double x == 0)%Q)
  ∨ ((0 < x)%Q ∧ (double x == nearest x)%Q)
  ∨ ((x < 0)%Q ∧ (double x == - nearest (- x))%Q).
Proof.
  destruct (Q_dec x 0) as [[Hlt | Hgt] | Heq].
  - right. right. split; [exact Hlt |]. rewrite double_neg by exact Hlt.
    cbn [this Qcopp Q2Qc]. rewrite !Qred_correct. reflexivity.
  - right. left. split; [exact Hgt |]. rewrite double_pos by exact Hgt.
    cbn [this Q2Qc]. rewrite Qred_correct. reflexivity.
  - left. split; [exact Heq |]. rewrite double_zero by exact Heq. exact Heq.
Qed.

(** The rounding error of a value in [0, B]. *)
Lemma double_error (x : Qc) (B : Q) :
  (0 <= x)%Q → (x <= B)%Q → (1 <= B)%Q →
  (- (B * (1 # 2 ^ 53)) <= double x - x)%Q
  ∧ (double x - x <= B * (1 # 2 ^ 53))%Q.
Proof.
  intros H0 HB H1.
  change (1 # 2 ^ 53)%Q with (1 # 9007199254740992)%Q.
  destruct (double_cases x) as [[Hx Hd] | [[Hx Hd] | [Hx _]]].
  - rewrite Hd, Hx. split; lra.
  - rewrite Hd. apply nearest_error; assumption.
  - exfalso. lra.
Qed.

Lemma double_nonneg (x : Qc) : (0 <= x)%Q → (0 <= double x)%Q.
Proof.
  intros H0.
  destruct (double_cases x) as [[Hx Hd] | [[Hx Hd] | [Hx _]]].
  - rewrite Hd. apply Qle_refl.
  - rewrite Hd. by apply nearest_nonneg.
  - exfalso. lra.
Qed.

(** [double] is monotone. *)
Lemma double_mono (x y : Qc) : (x <= y)%Qc → (double x <= double y)%Qc.
Proof.
  unfold Qcle. intros Hxy.
  destruct (double_cases x) as [[Hx Hdx] | [[Hx Hdx] | [Hx Hdx]]];
    destruct (double_cases y) as [[Hy Hdy] | [[Hy Hdy] | [Hy Hdy]]];
    rewrite Hdx, Hdy; try (exfalso; lra).
  - apply Qle_refl.
  - apply nearest_nonneg, Hy.
  - by apply nearest_mono.
  - pose proof (nearest_nonneg (- x)). lra.
  - pose proof (nearest_nonneg (- x)). pose proof (nearest_nonneg y). lra.
  - pose proof (nearest_mono (- y) (- x)). lra.
Qed.

End Doubles.

(* ===================================================================== *)
(** * Rounding to hundredths                                              *)
(* ===================================================================== *)

Section Rounding.

Lemma Fin_inj (x y : Qc) : Fin x = Fin y → x = y.
Proof. by intros [= ->]. Qed.

Lemma factor_100 : double (Qc_of_Z 10 ^ 2)%Qc = Qc_of_Z 100.
Proof. apply Qc_is_canon. vm_compute. reflexivity. Qed.

(** Rounding a fraction [a / b] to two decimals, in integers. *)
Lemma round_2_fraction (a b : Z) :
  0 < b →
  Spec.round_2dec (Qc_of_Z a / Qc_of_Z b)%Qc
  = Spec.hundredths ((200 * a + b) / (2 * b)).
Proof.
  intros Hb. unfold Spec.round_2dec. f_equal.
  rewrite Zdiv_Qdiv. apply Qfloor_comp.
  rewrite inject_Z_plus, !inject_Z_mult.
  unfold Qcplus, Qcdiv, Qcmult, Qcinv, Q2Qc, Qc_of_Z. cbn [this].
  rewrite !Qred_correct.
  assert (~ inject_Z b == 0)%Q.
  { change 0%Q with (inject_Z 0). rewrite inject_Z_injective. lia. }
  change (inject_Z 200) with (200 # 1)%Q.
  change (inject_Z 100) with (100 # 1)%Q.
  change (inject_Z 2) with (2 # 1)%Q.
  field. assumption.
Qed.

Lemma hundredths_le (n m : Z) :
  n <= m → (Spec.hundredths n <= Spec.hundredths m)%Qc.
Proof.
  intros H. unfold Spec.hundredths, Qcdiv.
  apply Qcmult_le_mono_nonneg_r.
  - apply Qclt_le_weak, Qcinv_pos. rewrite <- Z2Qc_inj_0.
    apply (proj1 (Z2Qc_inj_lt 0 100)). lia.
  - apply (proj1 (Z2Qc_inj_le n m)), H.
Qed.

Lemma hundredths_0 : Spec.hundredths 0 = Qc_of_Z 0.
Proof. apply Qc_is_canon. reflexivity. Qed.
Lemma hundredths_100 (n : Z) : Spec.hundredths (100 * n) = Qc_of_Z n.
Proof.
  unfold Spec.hundredths. rewrite Z2Qc_inj_mul.
  field. rewrite <- Z2Qc_inj_0. rewrite Z2Qc_inj_iff. lia.
Qed.

Lemma Qc_of_Z_pos_ne (b : Z) : 0 < b → Qc_of_Z b ≠ 0%Qc.
Proof. intros Hb. rewrite <- Z2Qc_inj_0, Z2Qc_inj_iff. lia. Qed.

Lemma Qc_of_Z_pos (b : Z) : 0 < b → (0 < Qc_of_Z b)%Qc.
Proof. intros Hb. rewrite <- Z2Qc_inj_0. apply (proj1 (Z2Qc_inj_lt 0 b)), Hb. Qed.

(** Comparing two fractions by cross-multiplication. *)
Lemma fraction_le (a b c d : Z) :
  0 < b → 0 < d → a * d <= c * b →
  (Qc_of_Z a / Qc_of_Z b <= Qc_of_Z c / Qc_of_Z d)%Qc.
Proof.
  intros Hb Hd Hle.
  apply (Qcmult_le_mono_pos_r _ _ (Qc_of_Z b * Qc_of_Z d)%Qc).
  { apply Qcmult_pos_pos; apply Qc_of_Z_pos; assumption. }
  replace (Qc_of_Z a / Qc_of_Z b * (Qc_of_Z b * Qc_of_Z d))%Qc
    with (Qc_of_Z (a * d)).
  2:{ rewrite Z2Qc_inj_mul. field. apply Qc_of_Z_pos_ne, Hb. }
  replace (Qc_of_Z c / Qc_of_Z d * (Qc_of_Z b * Qc_of_Z d))%Qc
    with (Qc_of_Z (c * b)).
  2:{ rewrite Z2Qc_inj_mul. field. apply Qc_of_Z_pos_ne, Hd. }
  apply (proj1 (Z2Qc_inj_le _ _)), Hle.
Qed.

(** A value between the bounds is left as it is. *)
Lemma min_max_id (x lo hi : Qc) :
  (lo <= x)%Qc → (x <= hi)%Qc → Qc_min (Qc_max x lo) hi = x.
Proof.
  intros Hlo Hhi. unfold Qc_min, Qc_max.
  destruct (Qclt_le_dec x lo) as [Hx | Hx].
  - exfalso. exact (Qclt_not_le _ _ Hx Hlo).
  - destruct (Qclt_le_dec hi x) as [Hx' | Hx']; [| reflexivity].
    exfalso. exact (Qclt_not_le _ _ Hx' Hhi).
Qed.

(** The two terms of the wheel angle over a common denominator. *)
Lemma coarse_plus_fine (b4 b5 : Z) :
  (Spec.coarse b5 + Spec.fine b4)%Qc
  = (Qc_of_Z (100 * (255 * b5 + b4)) / Qc_of_Z 65280)%Qc.
Proof.
  unfold Spec.coarse, Spec.fine.
  rewrite Z2Qc_inj_mul, Z2Qc_inj_add, Z2Qc_inj_mul.
  change 65280 with (255 * 256). rewrite (Z2Qc_inj_mul 255 256).
  change (Qc_of_Z 100) with (Qc_of_Z 100).
  assert (H255 := Qc_of_Z_pos_ne 255 eq_refl).
  assert (H256 := Qc_of_Z_pos_ne 256 eq_refl).
  assert (Hk : Qc_of_Z 255 = (Qc_of_Z 256 - 1)%Qc).
  { apply Qc_is_canon. reflexivity. }
  rewrite Hk in *. field. split; assumption.
Qed.

(** The specification's turn, in exact arithmetic, in hundredths. *)
Lemma turn_hundredths (b4 b5 : Z) :
  Spec.is_byte b4 → Spec.is_byte b5 →
  Spec.turn b4 b5 = Spec.hundredths ((125 * (255 * b5 + b4) + 408) / 816).
Proof.
  intros [H4 H4'] [H5 H5']. unfold Spec.turn.
  rewrite coarse_plus_fine, round_2_fraction by lia.
  replace (200 * (100 * (255 * b5 + b4)) + 65280)
    with (160 * (125 * (255 * b5 + b4) + 408)) by lia.
  change (2 * 65280) with (160 * 816).
  rewrite Z.div_mul_cancel_l by lia.
  set (n := (125 * (255 * b5 + b4) + 408) / 816).
  assert (Hn : 0 <= n <= 10000).
  { subst n. split.
    - apply Z.div_pos; lia.
    - apply Z.lt_succ_r, Z.div_lt_upper_bound; lia. }
  unfold Spec.clamp.
  rewrite decide_False.
  2:{ apply Qcle_not_lt. rewrite <- hundredths_0. apply hundredths_le. lia. }
  rewrite decide_False; [reflexivity |].
  apply Qcle_not_lt. rewrite <- (hundredths_100 100). apply hundredths_le. lia.
Qed.


End Rounding.

(* ===================================================================== *)
(** * The decoders in the arithmetic of doubles                           *)
(* ===================================================================== *)

Section Decoders.

Local Open Scope Q_scope.

Lemma this_plus (a b : Qc) : (a + b)%Qc == a + b.
Proof. unfold Qcplus, Q2Qc. cbn [this]. apply Qred_correct. Qed.

Lemma this_minus (a b : Qc) : (a - b)%Qc == a - b.
Proof.
  unfold Qcminus, Qcplus, Qcopp, Q2Qc. cbn [this].
  rewrite !Qred_correct. reflexivity.
Qed.

Lemma this_mult (a b : Qc) : (a * b)%Qc == a * b.
Proof. unfold Qcmult, Q2Qc. cbn [this]. apply Qred_correct. Qed.

Lemma this_div (a b : Qc) : (a / b)%Qc == a / b.
Proof.
  unfold Qcdiv, Qcmult, Qcinv, Q2Qc. cbn [this].
  rewrite !Qred_correct. reflexivity.
Qed.

(** One operation: the result is within [B] × 2^-53 of the exact value [v],
    which is in [0, B]. *)
Lemma double_step (y : Qc) (v B : Q) :
  y == v → 0 <= v → v <= B → 1 <= B →
  0 <= double y
  ∧ v - B * (1 # 9007199254740992) <= double y
  ∧ double y <= v + B * (1 # 9007199254740992).
Proof.
  intros Hy H0 HB H1. rewrite <- Hy in H0, HB.
  destruct (double_error y B H0 HB H1) as [Hlo Hhi].
  change (1 # 2 ^ 53) with (1 # 9007199254740992) in Hlo, Hhi.
  pose proof (double_nonneg y H0). rewrite <- Hy. repeat split; lra.
Qed.

Lemma Qfloor_interval (x : Q) (k : Z) :
  inject_Z k <= x → x < inject_Z (k + 1) → Qfloor x = k.
Proof.
  intros Hlo Hhi. apply Z.le_antisymm.
  - apply Z.lt_succ_r. rewrite Zlt_Qlt.
    apply Qle_lt_trans with x; [apply Qfloor_le | exact Hhi].
  - rewrite <- (Qfloor_Z k). by apply Qfloor_resp_le.
Qed.

Lemma fdiv_100_256 : fdiv (Qc_of_Z 100) (Qc_of_Z 256) = Q2Qc (25 # 64).
Proof. apply Qc_is_canon. vm_compute. reflexivity. Qed.

Lemma fsub_100 : fsub (Qc_of_Z 100) (Q2Qc (25 # 64)) = Q2Qc (6375 # 64).
Proof. apply Qc_is_canon. vm_compute. reflexivity. Qed.

(** A byte divided by 255. *)
Lemma byte_fraction (b : Z) :
  (0 <= b <= 255)%Z →
  let a := fdiv (Qc_of_Z b) (Qc_of_Z 255) in
  0 <= a
  ∧ inject_Z b * (1 # 255) - (1 # 9007199254740992) <= a
  ∧ a <= inject_Z b * (1 # 255) + (1 # 9007199254740992).
Proof.
  intros [Hlo Hhi]. rewrite Zle_Qle in Hlo, Hhi.
  change (inject_Z 0) with 0 in Hlo. change (inject_Z 255) with 255 in Hhi.
  cbv zeta. unfold fdiv.
  destruct (double_step (Qc_of_Z b / Qc_of_Z 255)%Qc
              (inject_Z b * (1 # 255)) 1) as (H0 & H1 & H2);
    [by rewrite this_div | lra .. |].
  repeat split; lra.
Qed.

(** The sum of the two terms times 100, which [round] rounds to an
    integer, is within 10^-9 of 125 × (255 × b5 + b4) / 816. *)
Lemma wheel_sum_near (b4 b5 : Z) :
  (0 <= b4 <= 255)%Z → (0 <= b5 <= 255)%Z →
  let t := fmul (fadd (DataMap.wheelCourse b5) (DataMap.wheelFine b4))
             (Qc_of_Z 100) in
  inject_Z (125 * (255 * b5 + b4)) * (1 # 816) - (1 # 1000000000) <= t
  ∧ t <= inject_Z (125 * (255 * b5 + b4)) * (1 # 816) + (1 # 1000000000).
Proof.
  intros Hb4 Hb5. cbv zeta.
  unfold DataMap.wheelCourse, DataMap.wheelFine.
  rewrite fdiv_100_256, fsub_100.
  destruct (byte_fraction b4 Hb4) as (Ha4 & Ha4l & Ha4h).
  destruct (byte_fraction b5 Hb5) as (Ha5 & Ha5l & Ha5h).
  cbv zeta in *.
  set (a4 := fdiv (Qc_of_Z b4) (Qc_of_Z 255)) in *.
  set (a5 := fdiv (Qc_of_Z b5) (Qc_of_Z 255)) in *.
  destruct Hb4 as [H4 H4']. destruct Hb5 as [H5 H5'].
  rewrite Zle_Qle in H4, H4', H5, H5'.
  change (inject_Z 0) with 0 in H4, H5.
  change (inject_Z 255) with 255 in H4', H5'.
  rewrite !inject_Z_mult, inject_Z_plus, inject_Z_mult.
  change (inject_Z 125) with 125. change (inject_Z 255) with 255.
  set (x4 := inject_Z b4) in *. set (x5 := inject_Z b5) in *.
  unfold fmul, fadd.
  destruct (double_step (a4 * Q2Qc (25 # 64))%Qc (a4 * (25 # 64)) 1)
    as (Hf & Hfl & Hfh); [by rewrite this_mult | lra .. |].
  set (f := double (a4 * Q2Qc (25 # 64))%Qc) in *.
  destruct (double_step (a5 * Q2Qc (6375 # 64))%Qc (a5 * (6375 # 64)) 128)
    as (Hc & Hcl & Hch); [by rewrite this_mult | lra .. |].
  set (c := double (a5 * Q2Qc (6375 # 64))%Qc) in *.
  destruct (double_step (c + f)%Qc (c + f) 128) as (Hs & Hsl & Hsh);
    [apply this_plus | lra .. |].
  set (s := double (c + f)%Qc) in *.
  destruct (double_step (s * Qc_of_Z 100)%Qc (s * 100) 16384)
    as (Ht & Htl & Hth); [by rewrite this_mult | lra .. |].
  split; lra.
Qed.

(** Away from a half, [Math.round] of that product is the exact rounding. *)
Lemma wheel_round_generic (b4 b5 : Z) :
  (0 <= b4 <= 255)%Z → (0 <= b5 <= 255)%Z →
  ((125 * (255 * b5 + b4) + 408) mod 816 ≠ 0)%Z →
  Math_round (fmul (fadd (DataMap.wheelCourse b5) (DataMap.wheelFine b4))
                (Qc_of_Z 100))
  = ((125 * (255 * b5 + b4) + 408) / 816)%Z.
Proof.
  intros Hb4 Hb5 Hr.
  destruct (wheel_sum_near b4 b5 Hb4 Hb5) as [Hlo Hhi]. cbv zeta in Hlo, Hhi.
  set (t := fmul _ _) in *. unfold Math_round.
  pose proof (Z.div_mod (125 * (255 * b5 + b4) + 408)%Z 816%Z ltac:(lia))
    as Hdm.
  pose proof (Z.mod_pos_bound (125 * (255 * b5 + b4) + 408)%Z 816%Z
                ltac:(lia)) as Hm.
  set (k := ((125 * (255 * b5 + b4) + 408) / 816)%Z) in *.
  set (r := ((125 * (255 * b5 + b4) + 408) mod 816)%Z) in *.
  assert (E : inject_Z (125 * (255 * b5 + b4))
              = inject_Z (816 * k + r - 408)) by (f_equal; lia).
  rewrite E in Hlo, Hhi. clear E.
  unfold Zminus in Hlo, Hhi.
  rewrite inject_Z_plus, inject_Z_plus, inject_Z_mult in Hlo, Hhi.
  assert (Hr1 : 1 <= inject_Z r).
  { change 1 with (inject_Z 1). rewrite <- Zle_Qle. lia. }
  assert (Hr2 : inject_Z r <= 815).
  { change 815 with (inject_Z 815). rewrite <- Zle_Qle. lia. }
  change (inject_Z 816) with 816 in Hlo, Hhi.
  change (inject_Z (- (408))) with (- (408)) in Hlo, Hhi.
  apply Qfloor_interval.
  - lra.
  - rewrite inject_Z_plus. change (inject_Z 1) with 1. lra.
Qed.

(** At a half, the product is computed. *)
Lemma wheel_round_ties :
  forallb
    (λ b5, forallb
       (λ b4, if ((125 * (255 * b5 + b4) + 408) mod 816 =? 0)%Z
              then (Math_round
                      (fmul (fadd (DataMap.wheelCourse b5)
                               (DataMap.wheelFine b4)) (Qc_of_Z 100))
                    =? Spec.turn_code b4 b5)%Z
              else true)
       (map Z.of_nat (seq 0 256)))
    (map Z.of_nat (seq 0 256)) = true.
Proof. vm_compute. reflexivity. Qed.

Lemma wheel_round_checked (b4 b5 : Z) :
  Spec.is_byte b4 → Spec.is_byte b5 →
  (if ((125 * (255 * b5 + b4) + 408) mod 816 =? 0)%Z
              then (Math_round
                      (fmul (fadd (DataMap.wheelCourse b5)
                               (DataMap.wheelFine b4)) (Qc_of_Z 100))
                    =? Spec.turn_code b4 b5)%Z
              else true) = true.
Proof.
  intros Hb4 Hb5.
  exact (forall_bytes _ (forall_bytes _ wheel_round_ties b5 Hb5) b4 Hb4).
Qed.

Lemma wheel_round_tie (b4 b5 : Z) :
  Spec.is_byte b4 → Spec.is_byte b5 →
  ((125 * (255 * b5 + b4) + 408) mod 816 = 0)%Z →
  Math_round (fmul (fadd (DataMap.wheelCourse b5) (DataMap.wheelFine b4))
                (Qc_of_Z 100))
  = Spec.turn_code b4 b5.
Proof.
  intros Hb4 Hb5 Hr.
  pose proof (wheel_round_checked b4 b5 Hb4 Hb5) as H4.
  destruct ((125 * (255 * b5 + b4) + 408) mod 816 =? 0)%Z eqn:E.
  - apply Z.eqb_eq. exact H4.
  - rewrite Hr in E. discriminate E.
Qed.

(** The integer that [round] divides by 100, for every pair of bytes. *)
Lemma wheel_round (b4 b5 : Z) :
  Spec.is_byte b4 → Spec.is_byte b5 →
  Math_round (fmul (fadd (DataMap.wheelCourse b5) (DataMap.wheelFine b4))
                (Qc_of_Z 100))
  = Spec.turn_code b4 b5.
Proof.
  intros Hb4 Hb5.
  destruct (Z.eq_dec ((125 * (255 * b5 + b4) + 408) mod 816)%Z 0%Z)
    as [Hr | Hr]; [by apply wheel_round_tie |].
  rewrite wheel_round_generic by assumption.
  unfold Spec.turn_code, Spec.rounds_down. cbv zeta.
  destruct (Z.eqb_spec (255 * b5 + b4)%Z 20808%Z) as [E | _];
    [exfalso; rewrite E in Hr; by apply Hr |].
  destruct (Z.eqb_spec (255 * b5 + b4)%Z 35496%Z) as [E | _];
    [exfalso; rewrite E in Hr; by apply Hr |].
  destruct (Z.eqb_spec (255 * b5 + b4)%Z 39576%Z) as [E | _];
    [exfalso; rewrite E in Hr; by apply Hr |].
  cbn [orb]. lia.
Qed.

(** [round(x, 2)] is the double of an integer number of hundredths. *)
Lemma round_2_code (x : Qc) :
  DataMap.round x 2
  = Spec.double_hundredths (Math_round (fmul x (Qc_of_Z 100))).
Proof. unfold DataMap.round. rewrite factor_100. reflexivity. Qed.

(** The double of n/100 is within 128 × 2^-53 of it, up to 128. *)
Lemma double_hundredths_near (n : Z) :
  (0 <= n <= 12800)%Z →
  0 <= Spec.double_hundredths n
  ∧ inject_Z n * (1 # 100) - 128 * (1 # 9007199254740992)
    <= Spec.double_hundredths n
  ∧ Spec.double_hundredths n
    <= inject_Z n * (1 # 100) + 128 * (1 # 9007199254740992).
Proof.
  intros [Hlo Hhi]. rewrite Zle_Qle in Hlo, Hhi.
  change (inject_Z 0) with 0 in Hlo. change (inject_Z 12800) with 12800 in Hhi.
  unfold Spec.double_hundredths, Spec.hundredths.
  apply double_step; [by rewrite this_div | lra ..].
Qed.

Lemma double_hundredths_lt (n m : Z) :
  (0 <= n)%Z → (n < m)%Z → (m <= 12800)%Z →
  (Spec.double_hundredths n < Spec.double_hundredths m)%Qc.
Proof.
  intros H0 Hlt Hm. unfold Qclt.
  destruct (double_hundredths_near n) as (_ & _ & Hn); [lia |].
  destruct (double_hundredths_near m) as (_ & Hm' & _); [lia |].
  assert (H : inject_Z n + 1 <= inject_Z m).
  { change 1 with (inject_Z 1). rewrite <- inject_Z_plus, <- Zle_Qle. lia. }
  lra.
Qed.

Lemma double_hundredths_le (n m : Z) :
  (n <= m)%Z → (Spec.double_hundredths n <= Spec.double_hundredths m)%Qc.
Proof. intros H. by apply double_mono, hundredths_le. Qed.

Lemma double_hundredths_inj (n m : Z) :
  (0 <= n <= 12800)%Z → (0 <= m <= 12800)%Z →
  Spec.double_hundredths n = Spec.double_hundredths m → n = m.
Proof.
  intros Hn Hm Heq.
  destruct (Z.lt_trichotomy n m) as [Hlt | [-> | Hgt]]; [| reflexivity |].
  - exfalso. apply (Qclt_not_eq _ _ (double_hundredths_lt n m
      ltac:(lia) Hlt ltac:(lia))), Heq.
  - exfalso. apply (Qclt_not_eq _ _ (double_hundredths_lt m n
      ltac:(lia) ltac:(lia) ltac:(lia))). by symmetry.
Qed.

Lemma double_hundredths_0 : Spec.double_hundredths 0 = Qc_of_Z 0.
Proof. apply Qc_is_canon. vm_compute. reflexivity. Qed.

Lemma double_hundredths_100 : Spec.double_hundredths 100 = Qc_of_Z 1.
Proof. apply Qc_is_canon. vm_compute. reflexivity. Qed.

Lemma double_hundredths_10000 : Spec.double_hundredths 10000 = Qc_of_Z 100.
Proof. apply Qc_is_canon. vm_compute. reflexivity. Qed.


Lemma double_hundredths_5000 :
  Spec.double_hundredths 5000 = Spec.hundredths 5000.
Proof. apply Qc_is_canon. vm_compute. reflexivity. Qed.

Lemma turn_code_range (b4 b5 : Z) :
  Spec.is_byte b4 → Spec.is_byte b5 → (0 <= Spec.turn_code b4 b5 <= 10000)%Z.
Proof.
  intros [H4 H4'] [H5 H5']. unfold Spec.turn_code, Spec.rounds_down.
  cbv zeta.
  destruct (Z.eqb_spec (255 * b5 + b4)%Z 20808%Z) as [E | _];
    [rewrite E; vm_compute; split; discriminate |].
  destruct (Z.eqb_spec (255 * b5 + b4)%Z 35496%Z) as [E | _];
    [rewrite E; vm_compute; split; discriminate |].
  destruct (Z.eqb_spec (255 * b5 + b4)%Z 39576%Z) as [E | _];
    [rewrite E; vm_compute; split; discriminate |].
  cbn [orb]. split.
  - assert (0 <= (125 * (255 * b5 + b4) + 408) / 816)%Z
      by (apply Z.div_pos; lia). lia.
  - assert ((125 * (255 * b5 + b4) + 408) / 816 < 10001)%Z
      by (apply Z.div_lt_upper_bound; lia). lia.
Qed.

(** The hundredths as a function of 255 × b5 + b4. *)
Lemma turn_code_cases (b4 b5 : Z) :
  (((255 * b5 + b4 = 20808 ∧ Spec.turn_code b4 b5 = 3187)
    ∨ (255 * b5 + b4 = 35496 ∧ Spec.turn_code b4 b5 = 5437)
    ∨ (255 * b5 + b4 = 39576 ∧ Spec.turn_code b4 b5 = 6062))
   ∨ (255 * b5 + b4 ≠ 20808 ∧ 255 * b5 + b4 ≠ 35496
      ∧ 255 * b5 + b4 ≠ 39576
      ∧ Spec.turn_code b4 b5 = (125 * (255 * b5 + b4) + 408) / 816))%Z.
Proof.
  unfold Spec.turn_code, Spec.rounds_down. cbv zeta.
  destruct (Z.eqb_spec (255 * b5 + b4)%Z 20808%Z) as [E | ?];
    [rewrite E; left; left; split; reflexivity |].
  destruct (Z.eqb_spec (255 * b5 + b4)%Z 35496%Z) as [E | ?];
    [rewrite E; left; right; left; split; reflexivity |].
  destruct (Z.eqb_spec (255 * b5 + b4)%Z 39576%Z) as [E | ?];
    [rewrite E; left; right; right; split; reflexivity |].
  right. cbn [orb]. repeat split; try assumption. lia.
Qed.

(** The decoded turn, as the double of its hundredths. *)
Lemma wheelTurn_code (data : list Z) (b4 b5 : Z) :
  data !! 4%nat = Some b4 → data !! 5%nat = Some b5 →
  Spec.is_byte b4 → Spec.is_byte b5 →
  DataMap.wheelTurn data = Fin (Spec.double_hundredths (Spec.turn_code b4 b5)).
Proof.
  intros H4 H5 Hb4 Hb5. unfold DataMap.wheelTurn. rewrite H4, H5.
  rewrite round_2_code, wheel_round by assumption.
  pose proof (turn_code_range b4 b5 Hb4 Hb5) as [Hlo Hhi].
  f_equal. apply min_max_id.
  - rewrite <- double_hundredths_0. by apply double_hundredths_le.
  - rewrite <- double_hundredths_10000. by apply double_hundredths_le.
Qed.

(** The pedal fraction times 100, which [round] rounds to an integer, is
    within 10^-9 of 100 × (255 − b) / 255. *)
Lemma pedal_near (b : Z) :
  (0 <= b <= 255)%Z →
  let t := fmul (fdiv (Qc_of_Z (Z.abs (b - 255))) (Qc_of_Z 255))
             (Qc_of_Z 100) in
  inject_Z (100 * (255 - b)) * (1 # 255) - (1 # 1000000000) <= t
  ∧ t <= inject_Z (100 * (255 - b)) * (1 # 255) + (1 # 1000000000).
Proof.
  intros Hb. cbv zeta.
  replace (Z.abs (b - 255)%Z) with (255 - b)%Z by lia.
  destruct (byte_fraction (255 - b)%Z) as (Ha & Hal & Hah); [lia |].
  cbv zeta in *.
  set (a := fdiv (Qc_of_Z (255 - b)%Z) (Qc_of_Z 255)) in *.
  assert (H0 : 0 <= inject_Z (255 - b)%Z).
  { change 0 with (inject_Z 0). rewrite <- Zle_Qle. lia. }
  assert (H1 : inject_Z (255 - b)%Z <= 255).
  { change 255 with (inject_Z 255). rewrite <- Zle_Qle. lia. }
  rewrite inject_Z_mult. change (inject_Z 100) with 100.
  set (x := inject_Z (255 - b)%Z) in *.
  unfold fmul.
  destruct (double_step (a * Qc_of_Z 100)%Qc (a * 100) 128)
    as (Ht & Htl & Hth); [by rewrite this_mult | lra .. |].
  split; lra.
Qed.

Lemma pedal_round (b : Z) :
  Spec.is_byte b →
  Math_round (fmul (fdiv (Qc_of_Z (Z.abs (b - 255))) (Qc_of_Z 255))
                (Qc_of_Z 100))
  = ((200 * (255 - b) + 255) / 510)%Z.
Proof.
  intros Hb.
  destruct (pedal_near b Hb) as [Hlo Hhi]. cbv zeta in Hlo, Hhi.
  set (t := fmul _ _) in *. unfold Math_round.
  pose proof (Z.div_mod (200 * (255 - b) + 255)%Z 510%Z ltac:(lia)) as Hdm.
  pose proof (Z.mod_pos_bound (200 * (255 - b) + 255)%Z 510%Z ltac:(lia))
    as Hm.
  set (k := ((200 * (255 - b) + 255) / 510)%Z) in *.
  set (r := ((200 * (255 - b) + 255) mod 510)%Z) in *.
  assert (E : inject_Z (100 * (255 - b)) * (1 # 255)
              == inject_Z (510 * k + r - 255) * (1 # 510)).
  { replace (510 * k + r - 255)%Z with (2 * (100 * (255 - b)))%Z by lia.
    rewrite (inject_Z_mult 2). change (inject_Z 2) with 2. field. }
  rewrite E in Hlo, Hhi. clear E.
  unfold Zminus in Hlo, Hhi.
  rewrite inject_Z_plus, inject_Z_plus, inject_Z_mult in Hlo, Hhi.
  assert (Hr1 : 1 <= inject_Z r).
  { change 1 with (inject_Z 1). rewrite <- Zle_Qle. lia. }
  assert (Hr2 : inject_Z r <= 509).
  { change 509 with (inject_Z 509). rewrite <- Zle_Qle. lia. }
  change (inject_Z 510) with 510 in Hlo, Hhi.
  change (inject_Z (- (255))) with (- (255)) in Hlo, Hhi.
  apply Qfloor_interval.
  - lra.
  - rewrite inject_Z_plus. change (inject_Z 1) with 1. lra.
Qed.

(** The decoded pedal, as the double of its hundredths. *)
Lemma pedalToPercent_code (b : Z) :
  Spec.is_byte b →
  DataMap.pedalToPercent b
  = Fin (Spec.double_hundredths ((200 * (255 - b) + 255) / 510)).
Proof.
  intros Hb. unfold DataMap.pedalToPercent.
  by rewrite round_2_code, pedal_round.
Qed.

End Decoders.

(* ===================================================================== *)
(** * Change detection                                                    *)
(* ===================================================================== *)

Section ChangeDetection.

Implicit Types (st : gmap string number) (ch pairs : DataMap.obj).
Implicit Types (sc : gmap string number * DataMap.obj).
Implicit Types (data lastData : list Z) (k : string) (v : number).

(** When [state[key] !== value] is false, the state already holds the
    value. *)
Lemma differs_false (old : option number) v :
  DataMap.differs old v = false → old = Some v.
Proof.
  destruct old as [[x |] |], v as [y |]; simpl; try discriminate.
  intros H. apply negb_false_iff, bool_decide_eq_true in H. by subst.
Qed.

Lemma compareState_cons kv pairs sc :
  DataMap.compareState (kv :: pairs) sc
  = DataMap.compareState pairs
      (if DataMap.differs (sc.1 !! kv.1) kv.2
       then (<[kv.1 := kv.2]> sc.1, DataMap.obj_set kv.1 kv.2 sc.2)
       else sc).
Proof. reflexivity. Qed.

(** A key outside [pairs] keeps its entry. *)
Lemma compareState_lookup_other pairs sc k :
  k ∉ pairs.*1 → (DataMap.compareState pairs sc).1 !! k = sc.1 !! k.
Proof.
  revert sc. induction pairs as [| [k' v'] pairs IH]; intros sc Hk;
    [reflexivity |].
  rewrite fmap_cons in Hk. apply not_elem_of_cons in Hk as [Hne Hk].
  rewrite compareState_cons, IH by exact Hk.
  simpl. destruct (DataMap.differs _ _); [| reflexivity].
  simpl. apply lookup_insert_ne. intros ->. by apply Hne.
Qed.

(** A key of [pairs] ends with the value paired with it. *)
Lemma compareState_lookup_in pairs sc k v :
  NoDup pairs.*1 → (k, v) ∈ pairs →
  (DataMap.compareState pairs sc).1 !! k = Some v.
Proof.
  revert sc. induction pairs as [| [k' v'] pairs IH]; intros sc Hnd Hin;
    [by apply elem_of_nil in Hin |].
  rewrite fmap_cons in Hnd. apply NoDup_cons in Hnd as [Hk' Hnd].
  rewrite compareState_cons.
  apply elem_of_cons in Hin as [[= -> ->] | Hin].
  - rewrite compareState_lookup_other by exact Hk'. simpl.
    destruct (DataMap.differs _ _) eqn:Hd; simpl.
    + apply lookup_insert_eq.
    + apply differs_false, Hd.
  - apply IH; assumption.
Qed.

(** An index whose byte did not change is skipped. *)
Lemma update_index_same data lastData sc (i : nat) :
  data !! i = lastData !! i → DataMap.update_index data lastData sc i = sc.
Proof.
  intros H. unfold DataMap.update_index.
  rewrite bool_decide_eq_false_2; [reflexivity | by intros []].
Qed.

Lemma update_index_changed data lastData sc (i : nat) :
  data !! i ≠ lastData !! i →
  DataMap.update_index data lastData sc i
  = DataMap.compareState (DataMap.pairs_at i data) sc.
Proof.
  intros H. unfold DataMap.update_index.
  by rewrite bool_decide_eq_true_2.
Qed.

Lemma update_index_lookup_other data lastData sc (i : nat) k :
  k ∉ (DataMap.pairs_at i data).*1 →
  (DataMap.update_index data lastData sc i).1 !! k = sc.1 !! k.
Proof.
  intros Hk. unfold DataMap.update_index. case_bool_decide; [| reflexivity].
  by apply compareState_lookup_other.
Qed.

Lemma fold_update_lookup_other data lastData (l : list nat) sc k :
  (∀ i, i ∈ l → k ∉ (DataMap.pairs_at i data).*1) →
  (fold_left (DataMap.update_index data lastData) l sc).1 !! k = sc.1 !! k.
Proof.
  revert sc. induction l as [| i l IH]; intros sc Hl; [reflexivity |].
  simpl. rewrite IH by (intros; apply Hl, elem_of_cons; by right).
  apply update_index_lookup_other, Hl, elem_of_cons. by left.
Qed.

(** The keys written for an index do not depend on the report. *)
Lemma pairs_at_keys (i : nat) data :
  (DataMap.pairs_at i data).*1 = DataMap.keys_at i.
Proof. do 12 (try destruct i as [| i]); reflexivity. Qed.

Lemma pairs_at_NoDup (i : nat) data : NoDup (DataMap.pairs_at i data).*1.
Proof.
  rewrite pairs_at_keys.
  do 12 (try destruct i as [| i]); apply (bool_decide_unpack _); vm_compute; exact I.
Qed.


(** A report equal to the previous one changes nothing. *)
Lemma updateState_same data lastData st :
  (∀ i : nat, (i < length data)%nat → data !! i = lastData !! i) →
  DataMap.updateState data lastData st = (st, []).
Proof.
  intros Hsame. unfold DataMap.updateState.
  assert (Hfold : ∀ (l : list nat) sc,
            (∀ i, i ∈ l → (i < length data)%nat) →
            fold_left (DataMap.update_index data lastData) l sc = sc).
  { induction l as [| i l IH]; intros sc Hl; [reflexivity |].
    simpl. rewrite update_index_same.
    - apply IH. intros j Hj. apply Hl, elem_of_cons. by right.
    - apply Hsame, Hl, elem_of_cons. by left. }
  apply Hfold. intros i Hi. apply elem_of_seq in Hi. lia.
Qed.

(** [wheel-turn] is written at indices 4 and 5, with the same value. *)
Lemma updateState_lookup_turn data lastData st :
  (6 ≤ length data)%nat →
  (DataMap.updateState data lastData st).1 !! "wheel-turn"
  = if bool_decide (data !! 4%nat ≠ lastData !! 4%nat
                    ∨ data !! 5%nat ≠ lastData !! 5%nat)
    then Some (DataMap.wheelTurn data) else st !! "wheel-turn".
Proof.
  intros Hlen. unfold DataMap.updateState.
  replace (length data) with (4 + (2 + (length data - 6)))%nat by lia.
  rewrite seq_app, fold_left_app, seq_app, fold_left_app.
  rewrite (fold_update_lookup_other _ _ (seq _ (length data - 6))).
  2:{ intros i Hi. rewrite pairs_at_keys. apply elem_of_seq in Hi.
      do 6 (destruct i as [| i]; [lia |]).
      do 6 (try destruct i as [| i]);
        apply (bool_decide_unpack _); vm_compute; exact I. }
  set (sc := fold_left _ (seq 0 4) _).
  assert (Hsc : sc.1 !! "wheel-turn" = st !! "wheel-turn").
  { subst sc. rewrite fold_update_lookup_other; [reflexivity |].
    intros i Hi. rewrite pairs_at_keys. apply elem_of_seq in Hi.
    do 4 (destruct i as [| i];
          [apply (bool_decide_unpack _); vm_compute; exact I |]).
    lia. }
  simpl seq. simpl fold_left.
  assert (Hhit : ∀ sc' (i : nat), i = 4%nat ∨ i = 5%nat →
            data !! i ≠ lastData !! i →
            (DataMap.update_index data lastData sc' i).1 !! "wheel-turn"
            = Some (DataMap.wheelTurn data)).
  { intros sc' i Hi Hch. rewrite update_index_changed by exact Hch.
    apply compareState_lookup_in; [apply pairs_at_NoDup |].
    destruct Hi as [-> | ->]; apply elem_of_cons; by left. }
  destruct (decide (data !! 5%nat = lastData !! 5%nat)) as [H5 | H5].
  - rewrite (update_index_same _ _ _ 5) by exact H5.
    destruct (decide (data !! 4%nat = lastData !! 4%nat)) as [H4 | H4].
    + rewrite (update_index_same _ _ _ 4) by exact H4.
      rewrite bool_decide_eq_false_2 by (intros [? | ?]; contradiction).
      exact Hsc.
    + rewrite bool_decide_eq_true_2 by (left; exact H4).
      apply Hhit; [by left | exact H4].
  - rewrite bool_decide_eq_true_2 by (right; exact H5).
    apply Hhit; [by right | exact H5].
Qed.

End ChangeDetection.

(* ===================================================================== *)
(** * Reachable instances                                                 *)
(* ===================================================================== *)

Section Reachable.


(** The commands leave the state and the last report as they are. *)
Lemma leds_data (value : Z) (self : Rig.LogitechG29) :
  Rig.state (Rig.leds value self) = Rig.state self
  ∧ Rig.lastData (Rig.leds value self) = Rig.lastData self.
Proof. unfold Rig.leds. destruct (_ =? _); split; reflexivity. Qed.

Lemma autoCenter_data (self : Rig.LogitechG29) :
  Rig.state (Rig.autoCenter self) = Rig.state self
  ∧ Rig.lastData (Rig.autoCenter self) = Rig.lastData self.
Proof.
  unfold Rig.autoCenter. destruct (Rig.autocenter _); split; reflexivity.
Qed.

Lemma forceConstant_data number (self : Rig.LogitechG29) :
  Rig.state (Rig.forceConstant number self) = Rig.state self
  ∧ Rig.lastData (Rig.forceConstant number self) = Rig.lastData self.
Proof.
  unfold Rig.forceConstant. cbv zeta. case_bool_decide; split; reflexivity.
Qed.

Lemma forceFriction_data number (self : Rig.LogitechG29) :
  Rig.state (Rig.forceFriction number self) = Rig.state self
  ∧ Rig.lastData (Rig.forceFriction number self) = Rig.lastData self.
Proof.
  unfold Rig.forceFriction. cbv zeta. case_bool_decide; split; reflexivity.
Qed.

Lemma listen_data (ready : bool) (self : Rig.LogitechG29) :
  Rig.state (Rig.listen ready self) = Rig.state self
  ∧ Rig.lastData (Rig.listen ready self) = Rig.lastData self.
Proof.
  unfold Rig.listen. cbv zeta. cbn [Rig.emit Rig.state Rig.lastData].
  destruct (leds_data 0
              (Rig.autoCenter
                 (Rig.setRange (if ready then self else Rig.open_device self))))
    as [-> ->].
  destruct (autoCenter_data
              (Rig.setRange (if ready then self else Rig.open_device self)))
    as [-> ->].
  destruct ready; split; reflexivity.
Qed.

Lemma connect_data read (self : Rig.LogitechG29) :
  Rig.state (Rig.connect read self) = Rig.state self
  ∧ Rig.lastData (Rig.connect read self) = Rig.lastData self.
Proof.
  unfold Rig.connect. cbv zeta.
  pose proof (forceConstant_data (Some (Qc_of_Z 1)) (Rig.open_device self))
    as [Hs Hl].
  destruct read as [data |]; [| by rewrite Hs, Hl].
  destruct (_ =? _)%nat;
    match goal with
    | |- context [Rig.listen ?r ?x] =>
        destruct (listen_data r x) as [-> ->]
    end; cbn [Rig.forceOff Rig.relayOS Rig.relay Rig.state Rig.lastData];
    by rewrite Hs, Hl.
Qed.

(** A property of the state and of the last report that holds of a new
    instance and that every report keeps, holds of every reachable
    instance. *)
Lemma reachable_data_ind (P : gmap string number → list Z → Prop) :
  P ∅ (replicate 12 0) →
  (∀ (data : list Z) (st : gmap string number) (last : list Z),
      P st last → length data = 12%nat → Forall Spec.is_byte data →
      P (DataMap.updateState data last st).1 data) →
  ∀ self : Rig.LogitechG29,
    Rig.reachable self → P (Rig.state self) (Rig.lastData self).
Proof.
  intros Hnew Hdata self Hreach.
  induction Hreach as
    [ win32 opts | self _ IH | self _ IH | value self _ IH
    | data self _ IH Hlen Hbytes | value self _ IH | self _ IH
    | slot self _ IH | number self _ IH | number self _ IH
    | frame self _ IH | frame self _ IH | ready self _ IH
    | read self _ IH | self _ IH ].
  - exact Hnew.
  - exact IH.
  - exact IH.
  - by destruct (leds_data value self) as [-> ->].
  - cbn [Rig.on_data Rig.state Rig.lastData]. by apply Hdata.
  - unfold Rig.ledsSimple. cbv zeta.
    match goal with
    | |- context [Rig.leds ?v self] => by destruct (leds_data v self) as [-> ->]
    end.
  - by destruct (autoCenter_data self) as [-> ->].
  - exact IH.
  - by destruct (forceConstant_data number self) as [-> ->].
  - by destruct (forceFriction_data number self) as [-> ->].
  - exact IH.
  - exact IH.
  - by destruct (listen_data ready self) as [-> ->].
  - by destruct (connect_data read self) as [-> ->].
  - exact IH.
Qed.








End Reachable.

(* ===================================================================== *)
(** * Decoding: tables and test vectors                                   *)
(* ===================================================================== *)

(** C5. The recovered code is mapped by the fixed tables: [wheelDpad] is
    the dpad table (8→0, 7→8, 6→7, 5→6, 4→5, 3→4, 2→3, 1→2, 0→1, otherwise 0)
    applied to the code recovered with threshold 8, and [shifterGear] is the
    gear table (0→0, 1→1, 2→2, 4→3, 8→4, 16→5, 32→6, 64→−1, otherwise 0)
    applied to the code recovered with threshold 64.  In particular byte 0
    gives dpad 1, byte 64 gives gear −1, byte 32 gives gear 6, and byte 130
    at index 2 gives gear 2 with buttonPlus 1. *)
Theorem lookup_tables_exact :
  (∀ value : Z,
      DataMap.wheelDpad value
      = Spec.lookup_code Spec.dpad_table 0
          (DataMap.reduceNumberFromTo value 8))
  ∧ (∀ value : Z,
        DataMap.shifterGear value
        = Spec.lookup_code Spec.gear_table 0
            (DataMap.reduceNumberFromTo value 64))
  ∧ DataMap.wheelDpad 0 = 1
  ∧ DataMap.shifterGear 64 = -1
  ∧ DataMap.shifterGear 32 = 6
  ∧ DataMap.shifterGear 130 = 2
  ∧ (∀ (d0 d1 : Z) (rest : list Z),
        DataMap.pairs_at 2 (d0 :: d1 :: 130 :: rest)
        = [("shifter-gear", int 2); ("wheel-button_plus", int 1)]).
Proof.
  split; [| split].
  - intros value. apply dpad_of_code_table.
  - intros value. apply gear_of_code_table.
  - repeat split; reflexivity.
Qed.

(** C2, as amended. The turn decoder on the three test vectors: bytes
    (0, 0) give 0.00 and bytes (255, 255) give 100.00; bytes
    (byte4, byte5) = (0, 128) give exactly 50.00. *)
Theorem turn_test_vectors (data : list Z) :
  (data !! 4%nat = Some 0 → data !! 5%nat = Some 0 →
   DataMap.wheelTurn data = Fin (Spec.hundredths 0))
  ∧ (data !! 4%nat = Some 255 → data !! 5%nat = Some 255 →
     DataMap.wheelTurn data = Fin (Spec.hundredths 10000))
  ∧ (data !! 4%nat = Some 0 → data !! 5%nat = Some 128 →
     DataMap.wheelTurn data = Fin (Spec.hundredths 5000)).
Proof.
  split; [| split]; intros H4 H5;
    rewrite (wheelTurn_code _ _ _ H4 H5) by (unfold Spec.is_byte; lia).
  - change (Spec.turn_code 0 0) with 0.
    by rewrite double_hundredths_0, hundredths_0.
  - change (Spec.turn_code 255 255) with 10000.
    rewrite double_hundredths_10000. change 10000 with (100 * 100).
    by rewrite hundredths_100.
  - change (Spec.turn_code 0 128) with 5000.
    by rewrite double_hundredths_5000.
Qed.

(** The third vector of C2 as the specification has it: the value decoded
    from (byte4, byte5) = (0, 128) is not within 0.01 of 50.20. *)
Lemma turn_0_128_not_near_50_20 :
  ∃ t : Qc,
    DataMap.wheelTurn [0; 0; 0; 0; 0; 128; 0; 0; 0; 0; 0; 0] = Fin t
    ∧ ¬ (Spec.hundredths 5019 <= t ∧ t <= Spec.hundredths 5021)%Qc.
Proof.
  exists (Spec.hundredths 5000). split.
  - rewrite (wheelTurn_code _ 0 128)
      by (try reflexivity; unfold Spec.is_byte; lia).
    change (Spec.turn_code 0 128) with 5000.
    by rewrite double_hundredths_5000.
  - intros [Hlo _]. revert Hlo. apply Qclt_not_le.
    unfold Qclt. vm_compute. reflexivity.
Qed.

(** The fine and coarse terms as fractions, and their ranges. *)
Lemma fine_fraction (b4 : Z) :
  Spec.fine b4 = (Qc_of_Z (100 * b4) / Qc_of_Z 65280)%Qc.
Proof.
  unfold Spec.fine. rewrite Z2Qc_inj_mul.
  change 65280 with (255 * 256). rewrite (Z2Qc_inj_mul 255 256).
  field. split; apply Qc_of_Z_pos_ne; reflexivity.
Qed.

Lemma coarse_fraction (b5 : Z) :
  Spec.coarse b5 = (Qc_of_Z (100 * b5) / Qc_of_Z 256)%Qc.
Proof.
  unfold Spec.coarse. rewrite Z2Qc_inj_mul.
  assert (H255 := Qc_of_Z_pos_ne 255 eq_refl).
  assert (H256 := Qc_of_Z_pos_ne 256 eq_refl).
  assert (Hk : Qc_of_Z 256 = (Qc_of_Z 255 + 1)%Qc).
  { apply Qc_is_canon. reflexivity. }
  rewrite Hk in *. field. split; assumption.
Qed.

Lemma decimal_fraction (n : Z) (d : positive) :
  Q2Qc (n # d) = (Qc_of_Z n / Qc_of_Z (Z.pos d))%Qc.
Proof.
  apply Qc_is_canon. unfold Qcdiv, Qcmult, Qcinv, Q2Qc, Qc_of_Z. cbn [this].
  rewrite !Qred_correct. unfold Qeq, Qmult, Qinv, inject_Z. simpl. lia.
Qed.

Lemma fine_range (b4 : Z) :
  Spec.is_byte b4 →
  (Qc_of_Z 0 <= Spec.fine b4)%Qc
  ∧ (Spec.fine b4 <= Q2Qc (390625 # 1000000))%Qc.
Proof.
  intros [Hlo Hhi]. rewrite fine_fraction, decimal_fraction. split.
  - replace (Qc_of_Z 0) with (Qc_of_Z 0 / Qc_of_Z 1)%Qc
      by (apply Qc_is_canon; reflexivity).
    apply fraction_le; lia.
  - apply fraction_le; lia.
Qed.

Lemma coarse_range (b5 : Z) :
  Spec.is_byte b5 →
  (Qc_of_Z 0 <= Spec.coarse b5)%Qc
  ∧ (Spec.coarse b5 <= Q2Qc (99609375 # 1000000))%Qc.
Proof.
  intros [Hlo Hhi]. rewrite coarse_fraction, decimal_fraction. split.
  - replace (Qc_of_Z 0) with (Qc_of_Z 0 / Qc_of_Z 1)%Qc
      by (apply Qc_is_canon; reflexivity).
    apply fraction_le; lia.
  - apply fraction_le; lia.
Qed.

(** The two terms in doubles, in their ranges. *)
Lemma byte_fraction_range (b : Z) :
  Spec.is_byte b →
  (Qc_of_Z 0 <= fdiv (Qc_of_Z b) (Qc_of_Z 255))%Qc
  ∧ (fdiv (Qc_of_Z b) (Qc_of_Z 255) <= Qc_of_Z 1)%Qc.
Proof.
  intros [Hlo Hhi]. unfold fdiv. split.
  - change (Qc_of_Z 0) with (double (Qc_of_Z 0)). apply double_mono.
    replace (Qc_of_Z 0) with (Qc_of_Z 0 / Qc_of_Z 1)%Qc
      by (apply Qc_is_canon; reflexivity).
    apply fraction_le; lia.
  - replace (Qc_of_Z 1) with (double (Qc_of_Z 1))
      by (apply Qc_is_canon; vm_compute; reflexivity).
    apply double_mono.
    replace (Qc_of_Z 1) with (Qc_of_Z 1 / Qc_of_Z 1)%Qc
      by (apply Qc_is_canon; reflexivity).
    apply fraction_le; lia.
Qed.

Lemma scaled_fraction_range (a k : Qc) :
  (Qc_of_Z 0 <= a)%Qc → (a <= Qc_of_Z 1)%Qc → (Qc_of_Z 0 <= k)%Qc →
  double k = k →
  (Qc_of_Z 0 <= fmul a k)%Qc ∧ (fmul a k <= k)%Qc.
Proof.
  intros Ha0 Ha1 Hk Hdk. unfold fmul. unfold Qcle in Ha0, Ha1, Hk.
  change (this (Qc_of_Z 0)) with 0%Q in Ha0, Hk.
  change (this (Qc_of_Z 1)) with 1%Q in Ha1.
  split.
  - change (Qc_of_Z 0) with (double (Qc_of_Z 0)). apply double_mono.
    unfold Qcle. rewrite this_mult. change (this (Qc_of_Z 0)) with 0%Q.
    by apply Qmult_le_0_compat.
  - rewrite <- Hdk at 2. apply double_mono.
    unfold Qcle. rewrite this_mult. nra.
Qed.

Lemma wheelFine_range (b4 : Z) :
  Spec.is_byte b4 →
  (Qc_of_Z 0 <= DataMap.wheelFine b4)%Qc
  ∧ (DataMap.wheelFine b4 <= Q2Qc (390625 # 1000000))%Qc.
Proof.
  intros Hb. destruct (byte_fraction_range b4 Hb) as [H0 H1].
  unfold DataMap.wheelFine. rewrite fdiv_100_256.
  replace (Q2Qc (390625 # 1000000)) with (Q2Qc (25 # 64))
    by (apply Qc_is_canon; reflexivity).
  apply scaled_fraction_range; try assumption.
  - unfold Qcle. vm_compute. discriminate.
  - apply Qc_is_canon. vm_compute. reflexivity.
Qed.

Lemma wheelCourse_range (b5 : Z) :
  Spec.is_byte b5 →
  (Qc_of_Z 0 <= DataMap.wheelCourse b5)%Qc
  ∧ (DataMap.wheelCourse b5 <= Q2Qc (99609375 # 1000000))%Qc.
Proof.
  intros Hb. destruct (byte_fraction_range b5 Hb) as [H0 H1].
  unfold DataMap.wheelCourse. rewrite fdiv_100_256, fsub_100.
  replace (Q2Qc (99609375 # 1000000)) with (Q2Qc (6375 # 64))
    by (apply Qc_is_canon; reflexivity).
  apply scaled_fraction_range; try assumption.
  - unfold Qcle. vm_compute. discriminate.
  - apply Qc_is_canon. vm_compute. reflexivity.
Qed.

Lemma hundredths_pred (n : Z) :
  (Spec.hundredths n - Spec.hundredths 1)%Qc = Spec.hundredths (n - 1).
Proof.
  unfold Spec.hundredths. rewrite Z2Qc_inj_sub.
  field. by apply Qc_of_Z_pos_ne.
Qed.

(** C4, as amended. For bytes [b4] and [b5] in 0..255 the decoded turn is
    clamp(round(fine + coarse, 2 decimals), 0, 100) computed in doubles,
    with fine = (b4/255)×(100/256) in 0..0.390625 and
    coarse = (b5/255)×(100 − 100/256) in 0..99.609375, in doubles as in
    exact arithmetic.  The result is the double nearest to the value of the
    formula in exact arithmetic, floor((125×(255×b5 + b4) + 408) / 816)
    hundredths, except when 255×b5 + b4 is 20808, 35496 or 39576: the exact
    sum then ends in half a hundredth, the sum in doubles is below it, and
    the result is one hundredth lower.  Both bytes of the current report
    enter the value whichever of indices 4 and 5 changed, and that value is
    what [updateState] leaves in the state. *)
Theorem turn_formula (b4 b5 : Z) :
  Spec.is_byte b4 → Spec.is_byte b5 →
  ((Qc_of_Z 0 <= DataMap.wheelFine b4)%Qc
   ∧ (DataMap.wheelFine b4 <= Q2Qc (390625 # 1000000))%Qc)
  ∧ ((Qc_of_Z 0 <= DataMap.wheelCourse b5)%Qc
     ∧ (DataMap.wheelCourse b5 <= Q2Qc (99609375 # 1000000))%Qc)
  ∧ ((Qc_of_Z 0 <= Spec.fine b4)%Qc
     ∧ (Spec.fine b4 <= Q2Qc (390625 # 1000000))%Qc)
  ∧ ((Qc_of_Z 0 <= Spec.coarse b5)%Qc
     ∧ (Spec.coarse b5 <= Q2Qc (99609375 # 1000000))%Qc)
  ∧ Spec.turn b4 b5 = Spec.hundredths ((125 * (255 * b5 + b4) + 408) / 816)
  ∧ ∀ data : list Z,
      data !! 4%nat = Some b4 → data !! 5%nat = Some b5 →
      DataMap.wheelTurn data
      = Fin (Spec.double_hundredths (Spec.turn_code b4 b5))
      ∧ (Spec.rounds_down (255 * b5 + b4) = false →
         DataMap.wheelTurn data = Fin (double (Spec.turn b4 b5)))
      ∧ (Spec.rounds_down (255 * b5 + b4) = true →
         DataMap.wheelTurn data
         = Fin (double (Spec.turn b4 b5 - Spec.hundredths 1)%Qc))
      ∧ DataMap.pairs_at 4 data = [("wheel-turn", DataMap.wheelTurn data)]
      ∧ DataMap.pairs_at 5 data = [("wheel-turn", DataMap.wheelTurn data)]
      ∧ ∀ (lastData : list Z) (state : gmap string number),
          length data = 12%nat →
          data !! 4%nat ≠ lastData !! 4%nat
          ∨ data !! 5%nat ≠ lastData !! 5%nat →
          (DataMap.updateState data lastData state).1 !! "wheel-turn"
          = Some (DataMap.wheelTurn data).
Proof.
  intros Hb4 Hb5.
  split; [by apply wheelFine_range |].
  split; [by apply wheelCourse_range |].
  split; [by apply fine_range |]. split; [by apply coarse_range |].
  pose proof (turn_hundredths b4 b5 Hb4 Hb5) as Hexact.
  split; [exact Hexact |].
  intros data H4 H5.
  pose proof (wheelTurn_code data b4 b5 H4 H5 Hb4 Hb5) as Hturn.
  split; [exact Hturn |].
  split; [| split].
  - intros Hno. rewrite Hturn, Hexact.
    unfold Spec.double_hundredths, Spec.turn_code. cbv zeta.
    by rewrite Hno, Z.sub_0_r.
  - intros Hyes. rewrite Hturn, Hexact, hundredths_pred.
    unfold Spec.double_hundredths, Spec.turn_code. cbv zeta.
    by rewrite Hyes.
  - split; [reflexivity |]. split; [reflexivity |].
    intros lastData state Hlen Hch.
    rewrite updateState_lookup_turn by lia.
    by rewrite bool_decide_eq_true_2.
Qed.

(** C4 as the specification words it, in exact arithmetic: the bytes
    (byte4, byte5) = (153, 81) decode to the double of 31.87, while the
    formula gives 31.88; the decoded value is neither 31.88 nor the double
    nearest to it. *)
Lemma turn_153_81_below_formula :
  let data := [0; 0; 0; 0; 153; 81; 0; 0; 0; 0; 0; 0] in
  DataMap.wheelTurn data = Fin (Spec.double_hundredths 3187)
  ∧ Spec.turn 153 81 = Spec.hundredths 3188
  ∧ DataMap.wheelTurn data ≠ Fin (Spec.turn 153 81)
  ∧ DataMap.wheelTurn data ≠ Fin (double (Spec.turn 153 81)).
Proof.
  intros data.
  assert (Hb : Spec.is_byte 153 ∧ Spec.is_byte 81)
    by (unfold Spec.is_byte; lia).
  destruct Hb as [Hb4 Hb5].
  assert (Hturn : DataMap.wheelTurn data = Fin (Spec.double_hundredths 3187)).
  { by rewrite (wheelTurn_code data 153 81). }
  assert (Hexact : Spec.turn 153 81 = Spec.hundredths 3188).
  { by rewrite turn_hundredths. }
  split; [exact Hturn |]. split; [exact Hexact |].
  rewrite Hturn, Hexact. split.
  - intros H%Fin_inj. revert H. apply Qclt_not_eq.
    unfold Qclt. vm_compute. reflexivity.
  - intros H%Fin_inj. assert (3187 = 3188); [| lia].
    apply double_hundredths_inj; [lia | lia | exact H].
Qed.

(* ===================================================================== *)
(** * Reports and dispatch                                                *)
(* ===================================================================== *)

(** C1, as amended. A report whose 12 bytes equal those of the previous
    report gives an empty changed-field set and leaves the state as it was;
    no per-field event and no 'changes' event is emitted, while 'all' (with
    the unchanged snapshot) and 'data' (with the raw report) are each
    emitted once. *)
Theorem identical_report_no_change (self : Rig.LogitechG29) (data : list Z) :
  length data = 12%nat →
  length (Rig.lastData self) = 12%nat →
  (∀ i : nat, (i < 12)%nat → data !! i = Rig.lastData self !! i) →
  DataMap.updateState data (Rig.lastData self) (Rig.state self)
  = (Rig.state self, [])
  ∧ Rig.state (Rig.on_data data self) = Rig.state self
  ∧ Rig.emitted (Rig.on_data data self)
    = Rig.emitted self
      ++ [Rig.Emit "all" (Rig.PState (Rig.snapshot (Rig.state self)));
          Rig.Emit "data" (Rig.PData data)].
Proof.
  intros Hlen _ Hsame.
  assert (Hupd : DataMap.updateState data (Rig.lastData self) (Rig.state self)
                 = (Rig.state self, [])).
  { apply updateState_same. intros i Hi. apply Hsame. lia. }
  split; [exact Hupd |].
  unfold Rig.on_data. cbn [Rig.state Rig.emitted]. rewrite Hupd.
  split; reflexivity.
Qed.

(** C1 as the specification words it ("no dispatch"): on a fresh instance,
    a report equal to the previous one (all zero) still emits events. *)
Lemma identical_report_dispatches :
  let self := Rig.new false
                {| Rig.autocenter := false; Rig.debug := false;
                   Rig.range := 900 |} in
  let data := replicate 12 0 in
  (∀ i : nat, data !! i = Rig.lastData self !! i)
  ∧ Rig.emitted (Rig.on_data data self)
    = [Rig.Emit "all" (Rig.PState ∅); Rig.Emit "data" (Rig.PData data)]
  ∧ Rig.emitted (Rig.on_data data self) ≠ Rig.emitted self.
Proof.
  intros self data.
  assert (Hupd : DataMap.updateState data (Rig.lastData self) (Rig.state self)
                 = (∅, [])).
  { apply updateState_same. reflexivity. }
  split; [reflexivity |].
  unfold Rig.on_data. cbn [Rig.emitted]. rewrite Hupd.
  split; [reflexivity | discriminate].
Qed.


(* ===================================================================== *)
(** * Field ranges                                                        *)
(* ===================================================================== *)

Section Ranges.

Lemma report_lookup (data : list Z) (i : nat) :
  Spec.is_report data → (i < 12)%nat →
  data !! i = Some (data !!! i) ∧ Spec.is_byte (data !!! i).
Proof.
  intros [Hlen Hbytes] Hi.
  destruct (lookup_lt_is_Some_2 data i) as [b Hb]; [lia |].
  rewrite (list_lookup_total_correct _ _ _ Hb). split; [exact Hb |].
  rewrite Forall_lookup in Hbytes. by apply (Hbytes i).
Qed.

Lemma field_ok_int (key : string) (lo hi z : Z) :
  Spec.range_of Spec.field_ranges key = Some (Spec.Ints lo hi) →
  lo <= z <= hi → Spec.field_ok key (int z).
Proof. intros Hr Hz. unfold Spec.field_ok. rewrite Hr. simpl. eauto. Qed.

Lemma field_ok_flag (key : string) (value mask : Z) :
  Spec.range_of Spec.field_ranges key = Some (Spec.Ints 0 1) →
  Spec.field_ok key (DataMap.flag value mask).
Proof.
  intros Hr. unfold DataMap.flag.
  destruct (DataMap.truthy _); apply (field_ok_int _ _ _ _ Hr); lia.
Qed.

Lemma field_ok_hundredths (key : string) (n : Z) :
  Spec.range_of Spec.field_ranges key = Some (Spec.Fractions 0 1) →
  0 <= n <= 100 → Spec.field_ok key (Fin (Spec.double_hundredths n)).
Proof.
  intros Hr Hn. unfold Spec.field_ok. rewrite Hr. simpl. split.
  - rewrite <- double_hundredths_0. apply double_hundredths_le. lia.
  - rewrite <- double_hundredths_100. apply double_hundredths_le. lia.
Qed.

Lemma land_1_range (value : Z) : 0 <= Z.land value 1 <= 1.
Proof.
  change (Z.land value 1) with (Z.land value (Z.ones 1)).
  rewrite Z.land_ones by lia. change (2 ^ 1) with 2.
  pose proof (Z.mod_pos_bound value 2). lia.
Qed.

Lemma min_max_range (x lo hi : Qc) :
  (lo <= hi)%Qc →
  (lo <= Qc_min (Qc_max x lo) hi)%Qc ∧ (Qc_min (Qc_max x lo) hi <= hi)%Qc.
Proof.
  intros Hle. unfold Qc_min, Qc_max.
  destruct (Qclt_le_dec x lo) as [Hx | Hx];
    [destruct (Qclt_le_dec hi lo) as [Hhi | Hhi]
    | destruct (Qclt_le_dec hi x) as [Hhi | Hhi]];
    split; first [ assumption | apply Qcle_refl ].
Qed.

Lemma field_ok_turn (data : list Z) :
  Spec.is_report data → Spec.field_ok "wheel-turn" (DataMap.wheelTurn data).
Proof.
  intros Hrep. unfold DataMap.wheelTurn.
  destruct (report_lookup data 4 Hrep ltac:(lia)) as [-> _].
  destruct (report_lookup data 5 Hrep ltac:(lia)) as [-> _].
  apply min_max_range. apply (proj1 (Z2Qc_inj_le 0 100)). lia.
Qed.

Lemma field_ok_pedal (key : string) (data : list Z) (i : nat) :
  Spec.range_of Spec.field_ranges key = Some (Spec.Fractions 0 1) →
  Spec.is_report data → (i < 12)%nat →
  Spec.field_ok key (DataMap.pedalToPercent (data !!! i)).
Proof.
  intros Hr Hrep Hi.
  destruct (report_lookup data i Hrep Hi) as [_ Hb].
  rewrite pedalToPercent_code by exact Hb. destruct Hb as [Hlo Hhi].
  apply field_ok_hundredths; [exact Hr |].
  split.
  - apply Z.div_pos; lia.
  - apply Z.lt_succ_r, Z.div_lt_upper_bound; lia.
Qed.

(** Every value decoded from a report lies in the range of its field. *)
Lemma pairs_at_ok (data : list Z) (i : nat) :
  Spec.is_report data → Spec.obj_ok (DataMap.pairs_at i data).
Proof.
  intros Hrep. unfold Spec.obj_ok.
  do 12 (try destruct i as [| i]); cbn [DataMap.pairs_at];
    repeat apply List.Forall_cons; try apply List.Forall_nil; cbn [fst snd];
    try (apply field_ok_flag; reflexivity).
  - apply (field_ok_int _ 0 8); [reflexivity | apply dpad_of_code_range].
  - apply (field_ok_int _ 0 1); [reflexivity | apply land_1_range].
  - apply (field_ok_int _ (-1) 6); [reflexivity | apply gear_of_code_range].
  - apply (field_ok_int _ (-1) 1); [reflexivity |].
    destruct (DataMap.truthy _); [lia |]. destruct (DataMap.truthy _); lia.
  - apply (field_ok_int _ 0 1); [reflexivity | apply land_1_range].
  - apply field_ok_turn, Hrep.
  - apply field_ok_turn, Hrep.
  - apply (field_ok_pedal _ data 6); [reflexivity | exact Hrep | lia].
  - apply (field_ok_pedal _ data 7); [reflexivity | exact Hrep | lia].
  - apply (field_ok_pedal _ data 8); [reflexivity | exact Hrep | lia].
  - apply (field_ok_int _ (-1) 6); [reflexivity | apply gear_of_code_range].
Qed.

Lemma obj_set_ok (key : string) (v : number) (o : DataMap.obj) :
  Spec.field_ok key v → Spec.obj_ok o → Spec.obj_ok (DataMap.obj_set key v o).
Proof.
  intros Hv. unfold Spec.obj_ok.
  induction 1 as [| [k' v'] o Hkv Ho IH]; simpl.
  - apply List.Forall_cons; [exact Hv | apply List.Forall_nil].
  - case_bool_decide as Hk.
    + apply List.Forall_cons; [simpl in *; by subst | exact Ho].
    + apply List.Forall_cons; [exact Hkv | exact IH].
Qed.

Lemma insert_ok (key : string) (v : number) (st : gmap string number) :
  Spec.field_ok key v → Spec.state_ok st → Spec.state_ok (<[key := v]> st).
Proof.
  intros Hv Hst k w Hk.
  destruct (decide (key = k)) as [-> | Hne].
  - rewrite lookup_insert_eq in Hk. by injection Hk as <-.
  - rewrite lookup_insert_ne in Hk by exact Hne. by apply Hst.
Qed.

Lemma compareState_ok (pairs : DataMap.obj) sc :
  Spec.obj_ok pairs → Spec.both_ok sc → Spec.both_ok (DataMap.compareState pairs sc).
Proof.
  intros Hpairs. revert sc. unfold Spec.obj_ok in Hpairs.
  induction Hpairs as [| [k v] pairs Hkv _ IH]; intros sc Hsc; [exact Hsc |].
  rewrite compareState_cons. apply IH. cbn [fst snd] in *.
  destruct (DataMap.differs _ _); [| exact Hsc].
  destruct Hsc as [Hst Hch]. split; cbn [fst snd].
  - by apply insert_ok.
  - by apply obj_set_ok.
Qed.

Lemma updateState_ok (data lastData : list Z) (st : gmap string number) :
  Spec.is_report data → Spec.state_ok st →
  Spec.both_ok (DataMap.updateState data lastData st).
Proof.
  intros Hrep Hst. unfold DataMap.updateState.
  assert (Hfold : ∀ (l : list nat) sc, Spec.both_ok sc →
            Spec.both_ok (fold_left (DataMap.update_index data lastData) l sc)).
  { induction l as [| i l IH]; intros sc Hsc; [exact Hsc |].
    simpl. apply IH. unfold DataMap.update_index.
    case_bool_decide; [| exact Hsc].
    apply compareState_ok; [by apply pairs_at_ok | exact Hsc]. }
  apply Hfold. split; [exact Hst | apply List.Forall_nil].
Qed.

Lemma reachable_state_ok (self : Rig.LogitechG29) :
  Rig.reachable self → Spec.state_ok (Rig.state self).
Proof.
  apply (reachable_data_ind (λ st _, Spec.state_ok st)).
  - intros k v Hk. by rewrite lookup_empty in Hk.
  - intros data st last IH Hlen Hbytes.
    apply updateState_ok; [by split | exact IH].
Qed.

End Ranges.

(** C7. For a report of 12 bytes in 0..255, every value that decoding
    produces is in the documented range of its field (dpad 0..8, gear −1..6,
    turn in [0,100], pedals in [0,1], spinner −1..1, every flag 0 or 1);
    [updateState] keeps a state with in-range fields in range and returns
    in-range changes only, so the state of every reachable instance is in
    range. *)
Theorem decoded_fields_in_range :
  (∀ (data : list Z) (index : nat),
      Spec.is_report data → Spec.obj_ok (DataMap.pairs_at index data))
  ∧ (∀ (data lastData : list Z) (state : gmap string number),
        Spec.is_report data → Spec.state_ok state →
        Spec.state_ok (DataMap.updateState data lastData state).1
        ∧ Spec.obj_ok (DataMap.updateState data lastData state).2)
  ∧ (∀ self : Rig.LogitechG29,
        Rig.reachable self → Spec.state_ok (Rig.state self)).
Proof.
  split; [| split].
  - intros data index Hrep. by apply pairs_at_ok.
  - intros data lastData state Hrep Hst. by apply updateState_ok.
  - apply reachable_state_ok.
Qed.

(* ===================================================================== *)
(** * Command frames                                                      *)
(* ===================================================================== *)

Section Commands.

Lemma min_max_clamp_int (x lo hi : Z) :
  lo <= hi → Z.min (Z.max x lo) hi = Spec.clamp_int x lo hi.
Proof.
  intros Hle. unfold Spec.clamp_int.
  destruct (x <? lo) eqn:Hlo; [apply Z.ltb_lt in Hlo; lia |].
  apply Z.ltb_ge in Hlo.
  destruct (hi <? x) eqn:Hhi; [apply Z.ltb_lt in Hhi | apply Z.ltb_ge in Hhi];
    lia.
Qed.

(** A call of [leds] with a value other than the last one writes one frame
    carrying the clamped value. *)
Lemma leds_writes (value : Z) (self : Rig.LogitechG29) (log : list (list Z)) :
  Rig.device self = Some log → Rig.lastLedValue self ≠ value →
  Rig.device (Rig.leds value self)
  = Some (log ++ [Rig.os_frame self
                    [0xf8; 0x12; Spec.clamp_int value 0 31; 0; 0; 0; 1]])
  ∧ Rig.lastLedValue (Rig.leds value self) = Spec.clamp_int value 0 31
  ∧ Rig.prependWrite (Rig.leds value self) = Rig.prependWrite self.
Proof.
  intros Hdev Hne. unfold Rig.leds.
  destruct (Rig.lastLedValue self =? value) eqn:Heq;
    [apply Z.eqb_eq in Heq; contradiction |].
  rewrite min_max_clamp_int by lia.
  cbn [Rig.device Rig.lastLedValue Rig.prependWrite
       Rig.relayOS Rig.relay]. rewrite Hdev.
  repeat split.
Qed.

(** A call of [leds] with the last value does nothing at all. *)
Lemma leds_suppressed (value : Z) (self : Rig.LogitechG29) :
  Rig.lastLedValue self = value → Rig.leds value self = self.
Proof.
  intros Heq. unfold Rig.leds. by rewrite (proj2 (Z.eqb_eq _ _) Heq).
Qed.

End Commands.

(** C8. [leds] clamps its value to 0..31 and writes it as the third byte
    of the frame [0xf8, 0x12, mask, 0x00, 0x00, 0x00, 0x01]; a call whose
    value equals the last written value emits no frame and changes nothing,
    so two calls with mask 7 in a row, the first on an instance whose last
    value is not 7, leave exactly one new frame on the device. *)
Theorem leds_mask_frame (self : Rig.LogitechG29) (log : list (list Z)) :
  Rig.device self = Some log →
  (∀ value : Z,
      Rig.lastLedValue self ≠ value →
      0 <= Spec.clamp_int value 0 31 <= 31
      ∧ Rig.device (Rig.leds value self)
        = Some (log ++ [Rig.os_frame self
                          [0xf8; 0x12; Spec.clamp_int value 0 31;
                           0x00; 0x00; 0x00; 0x01]])
      ∧ Rig.lastLedValue (Rig.leds value self) = Spec.clamp_int value 0 31)
  ∧ (∀ value : Z,
        Rig.lastLedValue self = value →
        Rig.leds value self = self
        ∧ Rig.device (Rig.leds value self) = Some log)
  ∧ (Rig.lastLedValue self ≠ 7 →
     Rig.device (Rig.leds 7 (Rig.leds 7 self))
     = Some (log ++ [Rig.os_frame self
                       [0xf8; 0x12; 7; 0x00; 0x00; 0x00; 0x01]])).
Proof.
  intros Hdev. split; [| split].
  - intros value Hne.
    destruct (leds_writes value self log Hdev Hne) as (Hw & Hl & _).
    split; [| by split].
    unfold Spec.clamp_int.
    destruct (value <? 0) eqn:H0; [lia |]. apply Z.ltb_ge in H0.
    destruct (31 <? value) eqn:H31; [lia |]. apply Z.ltb_ge in H31. lia.
  - intros value Heq. rewrite (leds_suppressed value self Heq). by split.
  - intros Hne.
    destruct (leds_writes 7 self log Hdev Hne) as (Hw & Hl & _).
    rewrite (leds_suppressed 7 (Rig.leds 7 self)) by exact Hl.
    exact Hw.
Qed.

(** C9. The range requested at construction is clamped to 40..900, and
    [setRange] writes the frame [0xf8, 0x81, low, high, 0x00, 0x00, 0x00]
    with low = clamped & 0x00ff and high = (clamped & 0xff00) >> 8, the two
    bytes of the clamped value in little-endian order; a request of 2000
    writes the bytes of 900 and a request of 5 the bytes of 40. *)
Theorem setRange_frame (win32 autocenter debug : bool) :
  (∀ range : Z,
      let self :=
        Rig.open_device
          (Rig.new win32 {| Rig.autocenter := autocenter; Rig.debug := debug;
                            Rig.range := range |}) in
      let clamped := Spec.clamp_int range 40 900 in
      let low := Z.land clamped 0x00ff in
      let high := Z.shiftr (Z.land clamped 0xff00) 8 in
      Rig.range (Rig.options self) = clamped
      ∧ 40 <= clamped <= 900
      ∧ Rig.device (Rig.setRange self)
        = Some [Rig.os_frame self [0xf8; 0x81; low; high; 0x00; 0x00; 0x00]]
      ∧ 0 <= low < 256 ∧ 0 <= high < 256 ∧ low + 256 * high = clamped)
  ∧ Rig.setRange
      (Rig.open_device
         (Rig.new win32 {| Rig.autocenter := autocenter; Rig.debug := debug;
                           Rig.range := 2000 |}))
    = Rig.setRange
        (Rig.open_device
           (Rig.new win32 {| Rig.autocenter := autocenter; Rig.debug := debug;
                             Rig.range := 900 |}))
  ∧ Rig.setRange
      (Rig.open_device
         (Rig.new win32 {| Rig.autocenter := autocenter; Rig.debug := debug;
                           Rig.range := 5 |}))
    = Rig.setRange
        (Rig.open_device
           (Rig.new win32 {| Rig.autocenter := autocenter; Rig.debug := debug;
                             Rig.range := 40 |})).
Proof.
  split; [| split; reflexivity].
  intros range self clamped low high.
  assert (Hc : Rig.range (Rig.options self) = clamped).
  { subst self clamped. cbn. apply min_max_clamp_int. lia. }
  assert (Hrange : 40 <= clamped <= 900).
  { rewrite <- Hc. subst self. cbn. lia. }
  split; [exact Hc |]. split; [exact Hrange |]. split.
  - unfold Rig.setRange, Rig.relayOS, Rig.relay, Rig.os_frame.
    rewrite Hc. reflexivity.
  - assert (Hlow : low = clamped mod 256).
    { subst low. change 0x00ff with (Z.ones 8). by rewrite Z.land_ones. }
    assert (Hhigh : high = clamped / 256).
    { subst high. rewrite Z.shiftr_land.
      change (Z.shiftr 0xff00 8) with (Z.ones 8).
      rewrite Z.land_ones, Z.shiftr_div_pow2 by lia.
      change (2 ^ 8) with 256. apply Z.mod_small. split.
      - apply Z.div_pos; lia.
      - apply Z.div_lt_upper_bound; lia. }
    pose proof (Z.mod_pos_bound clamped 256 ltac:(lia)) as Hmod.
    pose proof (Z.div_mod clamped 256 ltac:(lia)) as Hdm.
    assert (0 <= clamped / 256 < 256).
    { split; [apply Z.div_pos | apply Z.div_lt_upper_bound]; lia. }
    rewrite Hlow, Hhigh. change (2 ^ 8) with 256 in *. lia.
Qed.

(* ===================================================================== *)
(** * The theorems at concrete inputs                                     *)
(* ===================================================================== *)

(** Byte 255 with threshold 8: the loop is entered five times. *)
Lemma reduceNumberFromTo_terminates_witness :
  ∃ k : nat,
    (k ≤ 7)%nat
    ∧ DataMap.reduce_fuel 7 (8 * 2) 255 128
      = Some (DataMap.reduceNumberFromTo 255 8, k).
Proof.
  destruct (proj1 (reduceNumberFromTo_terminates 255 8)) as (k & Hk & Hrun).
  exists k. split; [exact Hk |]. apply Hrun. lia.
Defined.

(** Dpad code 6 under the bits 16 and 64, gear code 2 under bit 128. *)
Lemma bitfield_recovery_ignores_flags_witness :
  0 <= 6 <= 8
  ∧ DataMap.wheelDpad (6 + Spec.flag_bits true false true false)
    = DataMap.wheelDpad 6
  ∧ DataMap.shifterGear (2 + 128) = DataMap.shifterGear 2.
Proof.
  assert (H6 : 0 <= 6 <= 8) by lia.
  split; [exact H6 |]. split.
  - apply (proj1 bitfield_recovery_ignores_flags 6 true false true false H6).
  - apply (proj1 (proj2 bitfield_recovery_ignores_flags) 2).
    do 2 (apply elem_of_cons; right). apply elem_of_cons. by left.
Defined.

Lemma turn_test_vectors_witness :
  DataMap.wheelTurn [0; 0; 0; 0; 0; 128; 0; 0; 0; 0; 0; 0]
  = Fin (Spec.hundredths 5000).
Proof.
  apply (proj2 (proj2 (turn_test_vectors
                         [0; 0; 0; 0; 0; 128; 0; 0; 0; 0; 0; 0])));
    reflexivity.
Defined.

(** The bytes (153, 81), where the result is one hundredth below the
    exact formula. *)
Lemma turn_formula_witness :
  Spec.is_byte 153 ∧ Spec.is_byte 81
  ∧ Spec.rounds_down (255 * 81 + 153) = true
  ∧ DataMap.wheelTurn [0; 0; 0; 0; 153; 81; 0; 0; 0; 0; 0; 0]
    = Fin (double (Spec.turn 153 81 - Spec.hundredths 1)%Qc).
Proof.
  assert (H153 : Spec.is_byte 153) by (unfold Spec.is_byte; lia).
  assert (H81 : Spec.is_byte 81) by (unfold Spec.is_byte; lia).
  split; [exact H153 |]. split; [exact H81 |]. split; [reflexivity |].
  destruct (turn_formula 153 81 H153 H81) as (_ & _ & _ & _ & _ & Hdata).
  destruct (Hdata [0; 0; 0; 0; 153; 81; 0; 0; 0; 0; 0; 0] eq_refl eq_refl)
    as (_ & _ & Hdown & _).
  apply Hdown. reflexivity.
Defined.

Lemma identical_report_no_change_witness :
  let self := Rig.new false
                {| Rig.autocenter := false; Rig.debug := false;
                   Rig.range := 900 |} in
  Rig.state (Rig.on_data (replicate 12 0) self) = Rig.state self.
Proof.
  intros self.
  apply (proj1 (proj2 (identical_report_no_change self (replicate 12 0)
                         eq_refl eq_refl (λ i _, eq_refl)))).
Defined.


Lemma decoded_fields_in_range_witness :
  Spec.is_report Spec.scenario_report
  ∧ Spec.state_ok
      (DataMap.updateState Spec.scenario_report (replicate 12 0) ∅).1.
Proof.
  assert (Hrep : Spec.is_report Spec.scenario_report).
  { split; [reflexivity |].
    repeat (apply List.Forall_cons; [unfold Spec.is_byte; lia |]).
    apply List.Forall_nil. }
  split; [exact Hrep |].
  apply (proj1 (proj2 decoded_fields_in_range) _ _ _ Hrep).
  intros key v Hv. rewrite lookup_empty in Hv. discriminate Hv.
Defined.

Lemma leds_mask_frame_witness :
  let self := Rig.open_device
                (Rig.new false
                   {| Rig.autocenter := false; Rig.debug := false;
                      Rig.range := 900 |}) in
  Rig.device (Rig.leds 7 (Rig.leds 7 self))
  = Some [[0xf8; 0x12; 7; 0x00; 0x00; 0x00; 0x01]].
Proof.
  intros self.
  apply (proj2 (proj2 (leds_mask_frame self [] eq_refl))).
  discriminate.
Defined.

(* ===================================================================== *)
(** * Force-feedback commands *)
(* ===================================================================== *)

Section ForceCommands.

(** Read in base 16, the decimal digits of a number give at least that
    number. *)
Lemma hex_value_ge (d : Decimal.uint) :
  ∀ (acc : Z) (n : nat),
    Z.of_nat n <= acc →
    Z.of_nat (Nat.of_uint_acc d n) <= Rig.hex_value d acc.
Proof.
  induction d; intros acc n Hacc; simpl; [exact Hacc | ..];
    apply IHd; rewrite ?Nat2Z.inj_succ, Nat.tail_mul_spec, Nat2Z.inj_mul;
    lia.
Qed.

Lemma slot_opcode_ge (slot : nat) :
  Z.of_nat slot < 10 ^ 21 → 16 * Z.of_nat slot <= Rig.slot_opcode slot.
Proof.
  intros Hlt. unfold Rig.slot_opcode.
  destruct (Z.ltb_spec (Z.of_nat slot) (10 ^ 21)) as [_ | Hge]; [| lia].
  cbn [Rig.hex_value].
  pose proof (hex_value_ge (Nat.to_uint slot) 0 0 ltac:(lia)) as H.
  change (Nat.of_uint_acc (Nat.to_uint slot) 0)
    with (Nat.of_uint (Nat.to_uint slot)) in H.
  rewrite DecimalNat.Unsigned.of_to in H. lia.
Qed.

Lemma first_digit_range (d : Decimal.uint) : 0 <= Rig.first_digit d <= 9.
Proof. destruct d; simpl; lia. Qed.

(** What is read from an exponent notation is at most the two hexadecimal
    digits 9 and e. *)
Lemma slot_opcode_exponent (slot : nat) :
  10 ^ 21 <= Z.of_nat slot → 0 <= Rig.slot_opcode slot <= 0x9e.
Proof.
  intros Hge. unfold Rig.slot_opcode.
  destruct (Z.ltb_spec (Z.of_nat slot) (10 ^ 21)) as [Hlt | _]; [lia |].
  pose proof (first_digit_range (Nat.to_uint slot)) as Hd.
  unfold Rig.single_digit. cbv zeta.
  repeat case_bool_decide;
    [| destruct (Z.eqb_spec (Rig.first_digit (Nat.to_uint slot)) 9) |]; lia.
Qed.

Lemma relayOS_device (frame : list Z) (self : Rig.LogitechG29) :
  Rig.device (Rig.relayOS frame self)
  = (λ log, log ++ [Rig.os_frame self frame]) <$> Rig.device self.
Proof. reflexivity. Qed.

End ForceCommands.

(** X1. [forceOff] writes one 7-byte frame whose first byte addresses the
    slot: 0xf3 when the slot is left out or 0, and 16 × slot (0x10 ... 0x90)
    for slots 1 to 9; for a slot from 10 up to, but not including, 10^21,
    the first value of the frame is at least 256 and so is no byte.  From
    10^21 on the slot is printed in exponent notation, of which at most a
    digit and the letter e are read: the first value is at most 0x9e. *)
Theorem forceOff_opcodes (self : Rig.LogitechG29) (log : list (list Z)) :
  Rig.device self = Some log →
  (∀ slot : option nat,
      slot = None ∨ slot = Some 0%nat →
      Rig.device (Rig.forceOff slot self)
      = Some (log ++ [Rig.os_frame self [0xf3; 0; 0; 0; 0; 0; 0]]))
  ∧ (∀ slot : nat,
        (1 ≤ slot ≤ 9)%nat →
        Rig.device (Rig.forceOff (Some slot) self)
        = Some (log ++ [Rig.os_frame self
                          [16 * Z.of_nat slot; 0; 0; 0; 0; 0; 0]]))
  ∧ (∀ slot : nat,
        (10 ≤ slot)%nat → Z.of_nat slot < 10 ^ 21 →
        ∃ opcode : Z,
          256 <= opcode
          ∧ Rig.device (Rig.forceOff (Some slot) self)
            = Some (log ++ [Rig.os_frame self [opcode; 0; 0; 0; 0; 0; 0]]))
  ∧ (∀ slot : nat,
        10 ^ 21 <= Z.of_nat slot →
        ∃ opcode : Z,
          0 <= opcode <= 0x9e
          ∧ Rig.device (Rig.forceOff (Some slot) self)
            = Some (log ++ [Rig.os_frame self [opcode; 0; 0; 0; 0; 0; 0]])).
Proof.
  intros Hdev. split; [| split; [| split]].
  - intros slot [-> | ->]; unfold Rig.forceOff; simpl default;
      rewrite relayOS_device, Hdev; reflexivity.
  - intros slot Hslot. unfold Rig.forceOff. simpl default.
    rewrite relayOS_device, Hdev.
    do 10 (destruct slot as [| slot]; [try lia; reflexivity |]). lia.
  - intros slot Hslot Hlt. exists (Rig.slot_opcode slot). split.
    + destruct (decide (16 ≤ slot)%nat) as [H16 | H16].
      * pose proof (slot_opcode_ge slot Hlt). lia.
      * do 10 (destruct slot as [| slot]; [lia |]).
        do 6 (destruct slot as [| slot]; [vm_compute; discriminate |]). lia.
    + unfold Rig.forceOff. simpl default.
      rewrite relayOS_device, Hdev.
      destruct slot; [lia | reflexivity].
  - intros slot Hge. exists (Rig.slot_opcode slot).
    split; [by apply slot_opcode_exponent |].
    unfold Rig.forceOff. simpl default.
    rewrite relayOS_device, Hdev.
    destruct slot; [simpl in Hge; lia | reflexivity].
Qed.

Section Magnitudes.

(** [Math.round] is monotone. *)
Lemma Math_round_le (x y : Qc) : (x <= y)%Qc → Math_round x <= Math_round y.
Proof.
  intros Hle. unfold Math_round. apply Qfloor_resp_le.
  apply Qplus_le_compat; [exact Hle | apply Qle_refl].
Qed.

Lemma Math_round_int (z : Z) : Math_round (Qc_of_Z z) = z.
Proof.
  unfold Math_round. cbn [this Qc_of_Z].
  assert (H : (inject_Z z + (1 # 2) == (2 * z + 1) # 2)%Q).
  { unfold Qeq, Qplus, inject_Z. simpl. lia. }
  rewrite (Qfloor_comp _ _ H). unfold Qfloor.
  change (Z.pos 2) with 2. rewrite Z.mul_comm, Z.div_add_l by lia.
  change (1 / 2) with 0. lia.
Qed.

Lemma this_opp (a : Qc) : ((- a)%Qc == - a)%Q.
Proof. unfold Qcopp, Q2Qc. cbn [this]. apply Qred_correct. Qed.

(** [Math.abs(level - 1)] for a level of at most 1. *)
Lemma constant_level (x : Qc) :
  (x <= Qc_of_Z 1)%Qc →
  Qc_abs (fsub x (Qc_of_Z 1)) = (- double (x - Qc_of_Z 1))%Qc
  ∧ (double (x - Qc_of_Z 1) <= 0)%Q.
Proof.
  intros Hx. unfold fsub.
  assert (Hd : (double (x - Qc_of_Z 1) <= double (Qc_of_Z 0))%Qc).
  { apply double_mono. unfold Qcle in *. rewrite this_minus.
    change (this (Qc_of_Z 0)) with 0%Q. change (this (Qc_of_Z 1)) with 1%Q in *.
    lra. }
  change (double (Qc_of_Z 0)) with (Qc_of_Z 0) in Hd.
  split; [| exact Hd].
  unfold Qc_abs. destruct (Qclt_le_dec _ _) as [Hneg | Hpos]; [reflexivity |].
  apply Qc_is_canon. rewrite this_opp.
  unfold Qcle in Hd, Hpos. change (this (Qc_of_Z 0)) with 0%Q in Hd, Hpos.
  lra.
Qed.

(** The magnitude byte of [forceConstant]. *)
Lemma constant_magnitude (x y : Qc) :
  (Qc_of_Z 0 <= x)%Qc → (x <= y)%Qc → (y <= Qc_of_Z 1)%Qc →
  0 <= Math_round (fmul (Qc_abs (fsub y (Qc_of_Z 1))) (Qc_of_Z 255))
  ∧ Math_round (fmul (Qc_abs (fsub y (Qc_of_Z 1))) (Qc_of_Z 255))
    <= Math_round (fmul (Qc_abs (fsub x (Qc_of_Z 1))) (Qc_of_Z 255))
  ∧ Math_round (fmul (Qc_abs (fsub x (Qc_of_Z 1))) (Qc_of_Z 255)) <= 255.
Proof.
  intros H0 Hxy H1.
  assert (Hx1 : (x <= Qc_of_Z 1)%Qc) by (eapply Qcle_trans; eassumption).
  destruct (constant_level x Hx1) as [-> Hdx].
  destruct (constant_level y H1) as [-> Hdy].
  assert (Hxy' : (double (x - Qc_of_Z 1) <= double (y - Qc_of_Z 1))%Qc).
  { apply double_mono. unfold Qcle in *. rewrite !this_minus. lra. }
  assert (Hlow : (double (Qc_of_Z (-1)) <= double (x - Qc_of_Z 1))%Qc).
  { apply double_mono. unfold Qcle in *. rewrite this_minus.
    change (this (Qc_of_Z (-1))) with (-1)%Q.
    change (this (Qc_of_Z 0)) with 0%Q in H0.
    change (this (Qc_of_Z 1)) with 1%Q. lra. }
  replace (double (Qc_of_Z (-1))) with (Qc_of_Z (-1)) in Hlow
    by (apply Qc_is_canon; vm_compute; reflexivity).
  unfold Qcle in Hxy', Hlow. change (this (Qc_of_Z (-1))) with (-1)%Q in Hlow.
  unfold fmul.
  split; [| split].
  - rewrite <- (Math_round_int 0). apply Math_round_le.
    change (Qc_of_Z 0) with (double (Qc_of_Z 0)). apply double_mono.
    unfold Qcle. rewrite this_mult, this_opp.
    change (this (Qc_of_Z 0)) with 0%Q. change (this (Qc_of_Z 255)) with 255%Q.
    lra.
  - apply Math_round_le, double_mono.
    unfold Qcle. rewrite !this_mult, !this_opp.
    change (this (Qc_of_Z 255)) with 255%Q. lra.
  - rewrite <- (Math_round_int 255) at 2. apply Math_round_le.
    replace (Qc_of_Z 255) with (double (Qc_of_Z 255)) at 2
      by (apply Qc_is_canon; vm_compute; reflexivity).
    apply double_mono.
    unfold Qcle. rewrite !this_mult, !this_opp.
    change (this (Qc_of_Z 255)) with 255%Q. lra.
Qed.

(** The rounding error of a positive value below a power of two, from
    above. *)
Lemma nearest_below (y : Q) (k : Z) :
  (0 < y)%Q → (y < 2 ^ k)%Q → -1022 < k →
  (nearest y - y <= 2 ^ (k - 54))%Q.
Proof.
  intros Hy Hk Hmin. unfold nearest.
  destruct (binade_spec y Hy) as [Hb _].
  assert (Hbk : binade y < k).
  { apply (Qpower_lt_compat_l_inv 2); [| reflexivity].
    eapply Qle_lt_trans; eassumption. }
  assert (Hq : (quantum y <= 2 ^ (k - 53))%Q).
  { unfold quantum. apply Qpower_le_compat_l; [lia | discriminate]. }
  pose proof (quantum_pos y) as Hq0.
  set (q := quantum y) in *.
  destruct (round_even_error (y / q)) as [_ Hhi].
  set (r := inject_Z (round_even (y / q))) in *.
  assert (Hyq : (y / q * q == y)%Q) by (field; lra).
  set (z := (y / q)%Q) in *.
  assert (Hhi' : (0 <= ((1 # 2) - (r - z)) * q)%Q)
    by (apply Qmult_le_0_compat; lra).
  assert (E : (2 ^ (k - 53) == 2 * 2 ^ (k - 54))%Q).
  { replace (k - 53) with (1 + (k - 54)) by lia.
    rewrite Qpower_plus by discriminate. reflexivity. }
  rewrite E in Hq. nra.
Qed.

(** The product level × 7 rounds to less than a half exactly when it is
    below the midpoint 1/2 − 2^-55 of the two doubles around it. *)
Lemma friction_zero (x : Qc) :
  (Qc_of_Z 0 < x)%Qc →
  Math_round (fmul x (Qc_of_Z 7)) = 0
  ↔ (x < Q2Qc (2573485501354569 # 36028797018963968))%Qc.
Proof.
  intros H0. unfold Qclt in H0. change (this (Qc_of_Z 0)) with 0%Q in H0.
  assert (Hpos : (0 < (x * Qc_of_Z 7)%Qc)%Q).
  { rewrite this_mult. change (this (Qc_of_Z 7)) with 7%Q. lra. }
  assert (Hnn : (0 <= fmul x (Qc_of_Z 7))%Q).
  { apply double_nonneg. by apply Qlt_le_weak. }
  assert (Hround : Math_round (fmul x (Qc_of_Z 7)) = 0
                   ↔ (fmul x (Qc_of_Z 7) < 1 # 2)%Q).
  { unfold Math_round. split.
    - intros Hr. pose proof (Qlt_floor (fmul x (Qc_of_Z 7) + (1 # 2))) as H.
      rewrite Hr in H. change (inject_Z (0 + 1)) with 1%Q in H. lra.
    - intros Hlt. apply Qfloor_interval.
      + change (inject_Z 0) with 0%Q. lra.
      + change (inject_Z (0 + 1)) with 1%Q. lra. }
  rewrite Hround. unfold fmul. split.
  - intros Hlt. apply Qcnot_le_lt. intros Hge.
    assert (Hm : (double
                    (Q2Qc (2573485501354569 # 36028797018963968)
                     * Qc_of_Z 7)%Qc
                  <= double (x * Qc_of_Z 7))%Qc).
    { apply double_mono. unfold Qcle in *. rewrite !this_mult.
      change (this (Qc_of_Z 7)) with 7%Q. lra. }
    replace (double
               (Q2Qc (2573485501354569 # 36028797018963968) * Qc_of_Z 7))
      with (Q2Qc (1 # 2)) in Hm
      by (apply Qc_is_canon; vm_compute; reflexivity).
    unfold Qcle in Hm. change (this (Q2Qc (1 # 2))) with (1 # 2)%Q in Hm.
    lra.
  - intros Hlt. rewrite (double_pos _ Hpos).
    cbn [this Q2Qc]. rewrite Qred_correct.
    unfold Qclt in Hlt.
    change (this (Q2Qc (2573485501354569 # 36028797018963968)))
      with (2573485501354569 # 36028797018963968)%Q in Hlt.
    pose proof (nearest_below (x * Qc_of_Z 7)%Qc (-1) Hpos) as Hn.
    pose proof (this_mult x (Qc_of_Z 7)) as Hy.
    change (this (Qc_of_Z 7)) with 7%Q in Hy.
    set (y := this (x * Qc_of_Z 7)%Qc) in *.
    change (2 ^ (-1))%Q with (1 # 2)%Q in Hn.
    change (2 ^ (-1 - 54))%Q with (1 # 36028797018963968)%Q in Hn.
    assert ((nearest y - y <= 1 # 36028797018963968)%Q)
      by (apply Hn; [lra | lia]).
    lra.
Qed.

End Magnitudes.

(** X2. [forceConstant] with no argument or with 0.5 is [forceOff(1)] and
    writes [0x10, 0, 0, 0, 0, 0, 0]; with any other level in [0, 1] it writes
    [0x11, 0, m, 0, 0, 0, 0] where m = round(|level − 1| × 255), computed in
    doubles, lies in 0..255, and a higher level never gives a higher m;
    level 0 gives 255 and level 1 gives 0.  The rounding of the doubles
    shows: the level 0.8725490196078431 gives m = 33, while
    (1 − level) × 255 is below 32.5. *)
Theorem forceConstant_frames (self : Rig.LogitechG29) (log : list (list Z)) :
  Rig.device self = Some log →
  (∀ number : option Qc,
      number = None ∨ number = Some (Q2Qc (1 # 2)) →
      Rig.forceConstant number self = Rig.forceOff (Some 1%nat) self
      ∧ Rig.device (Rig.forceConstant number self)
        = Some (log ++ [Rig.os_frame self [0x10; 0; 0; 0; 0; 0; 0]]))
  ∧ (∀ x : Qc,
        (Qc_of_Z 0 <= x)%Qc → (x <= Qc_of_Z 1)%Qc → x ≠ Q2Qc (1 # 2) →
        let m := Math_round
                   (fmul (Qc_abs (fsub x (Qc_of_Z 1))) (Qc_of_Z 255)) in
        0 <= m <= 255
        ∧ Rig.device (Rig.forceConstant (Some x) self)
          = Some (log ++ [Rig.os_frame self [0x11; 0; m; 0; 0; 0; 0]]))
  ∧ (∀ x y : Qc,
        (Qc_of_Z 0 <= x)%Qc → (x <= y)%Qc → (y <= Qc_of_Z 1)%Qc →
        Math_round (fmul (Qc_abs (fsub y (Qc_of_Z 1))) (Qc_of_Z 255))
        <= Math_round (fmul (Qc_abs (fsub x (Qc_of_Z 1))) (Qc_of_Z 255)))
  ∧ Math_round (fmul (Qc_abs (fsub (Qc_of_Z 0) (Qc_of_Z 1))) (Qc_of_Z 255))
    = 255
  ∧ Math_round (fmul (Qc_abs (fsub (Qc_of_Z 1) (Qc_of_Z 1))) (Qc_of_Z 255))
    = 0
  ∧ (let level := Q2Qc (1964805719784187 # 2251799813685248) in
     double level = level
     ∧ Math_round (fmul (Qc_abs (fsub level (Qc_of_Z 1))) (Qc_of_Z 255)) = 33
     ∧ Math_round ((Qc_of_Z 1 - level) * Qc_of_Z 255)%Qc = 32).
Proof.
  intros Hdev. split; [| split; [| split]].
  - intros number Hn.
    assert (Heq : Rig.forceConstant number self
                  = Rig.forceOff (Some 1%nat) self).
    { unfold Rig.forceConstant. destruct Hn as [-> | ->]; simpl default;
        by rewrite bool_decide_eq_true_2. }
    split; [exact Heq |]. rewrite Heq. unfold Rig.forceOff. simpl default.
    rewrite relayOS_device, Hdev. reflexivity.
  - intros x H0 H1 Hne m.
    destruct (constant_magnitude x x H0 (Qcle_refl x) H1) as (Hlo & _ & Hhi).
    split; [split; assumption |].
    unfold Rig.forceConstant. simpl default.
    rewrite bool_decide_eq_false_2 by exact Hne.
    rewrite relayOS_device, Hdev. reflexivity.
  - intros x y H0 Hxy H1.
    by destruct (constant_magnitude x y H0 Hxy H1) as (_ & Hmono & _).
  - split; [vm_compute; reflexivity |]. split; [vm_compute; reflexivity |].
    cbv zeta. split; [apply Qc_is_canon; vm_compute; reflexivity |].
    split; vm_compute; reflexivity.
Qed.

(** X3. [forceFriction] with no argument or with 0 is [forceOff(2)] and
    writes [0x20, 0, 0, 0, 0, 0, 0]; with a level in (0, 1] it writes
    [0x21, 0x02, n, 0, n, 0, 0] where n = round(level × 7), computed in
    doubles, lies in 0..7 and never decreases when the level increases.  A
    positive level gives n = 0, in a friction frame and not the force-off
    frame, exactly when it is below (2^54 − 1) / (7 × 2^55), which is the
    double 0.07142857142857142 and is less than 1/14: that double, whose
    exact product with 7 is below a half, gives n = 1. *)
Theorem forceFriction_frames (self : Rig.LogitechG29) (log : list (list Z)) :
  Rig.device self = Some log →
  (∀ number : option Qc,
      number = None ∨ number = Some (Qc_of_Z 0) →
      Rig.forceFriction number self = Rig.forceOff (Some 2%nat) self
      ∧ Rig.device (Rig.forceFriction number self)
        = Some (log ++ [Rig.os_frame self [0x20; 0; 0; 0; 0; 0; 0]]))
  ∧ (∀ x : Qc,
        (Qc_of_Z 0 < x)%Qc → (x <= Qc_of_Z 1)%Qc →
        let n := Math_round (fmul x (Qc_of_Z 7)) in
        0 <= n <= 7
        ∧ Rig.device (Rig.forceFriction (Some x) self)
          = Some (log ++ [Rig.os_frame self [0x21; 0x02; n; 0; n; 0; 0]])
        ∧ (n = 0
           ↔ (x < Q2Qc (2573485501354569 # 36028797018963968))%Qc))
  ∧ (∀ x y : Qc,
        (Qc_of_Z 0 < x)%Qc → (x <= y)%Qc → (y <= Qc_of_Z 1)%Qc →
        Math_round (fmul x (Qc_of_Z 7)) <= Math_round (fmul y (Qc_of_Z 7)))
  ∧ (let level := Q2Qc (2573485501354569 # 36028797018963968) in
     double level = level
     ∧ (level * Qc_of_Z 14 < Qc_of_Z 1)%Qc
     ∧ Math_round (fmul level (Qc_of_Z 7)) = 1
     ∧ Math_round (level * Qc_of_Z 7)%Qc = 0).
Proof.
  intros Hdev. split; [| split; [| split]].
  - intros number Hn.
    assert (Heq : Rig.forceFriction number self
                  = Rig.forceOff (Some 2%nat) self).
    { unfold Rig.forceFriction. destruct Hn as [-> | ->]; simpl default;
        by rewrite bool_decide_eq_true_2. }
    split; [exact Heq |]. rewrite Heq. unfold Rig.forceOff. simpl default.
    rewrite relayOS_device, Hdev. reflexivity.
  - intros x H0 H1 n.
    split; [split |]; [| | split].
    + subst n. rewrite <- (Math_round_int 0). apply Math_round_le.
      change (Qc_of_Z 0) with (double (Qc_of_Z 0)). apply double_mono.
      unfold Qcle, Qclt in *. rewrite this_mult.
      change (this (Qc_of_Z 0)) with 0%Q in *.
      change (this (Qc_of_Z 7)) with 7%Q. lra.
    + subst n. rewrite <- (Math_round_int 7) at 2. apply Math_round_le.
      replace (Qc_of_Z 7) with (double (Qc_of_Z 7)) at 2
        by (apply Qc_is_canon; vm_compute; reflexivity).
      apply double_mono.
      unfold Qcle, Qclt in *. rewrite this_mult.
      change (this (Qc_of_Z 1)) with 1%Q in *.
      change (this (Qc_of_Z 7)) with 7%Q. lra.
    + unfold Rig.forceFriction. simpl default.
      rewrite bool_decide_eq_false_2
        by (intros ->; exact (Qclt_not_eq _ _ H0 eq_refl)).
      rewrite relayOS_device, Hdev. reflexivity.
    + by apply friction_zero.
  - intros x y _ Hxy _. apply Math_round_le, double_mono.
    unfold Qcle in *. rewrite !this_mult.
    change (this (Qc_of_Z 7)) with 7%Q. lra.
  - cbv zeta. split; [apply Qc_is_canon; vm_compute; reflexivity |].
    split; [unfold Qclt; vm_compute; reflexivity |].
    split; vm_compute; reflexivity.
Qed.

Section Leds.

Lemma leds_unfold (value : Z) (self : Rig.LogitechG29) :
  Rig.lastLedValue self ≠ value →
  Rig.device (Rig.leds value self)
  = (λ log, log ++ [Rig.os_frame self
                      [0xf8; 0x12; Spec.clamp_int value 0 31; 0; 0; 0; 1]])
    <$> Rig.device self
  ∧ Rig.lastLedValue (Rig.leds value self) = Spec.clamp_int value 0 31
  ∧ Rig.prependWrite (Rig.leds value self) = Rig.prependWrite self.
Proof.
  intros Hne. unfold Rig.leds.
  destruct (Rig.lastLedValue self =? value) eqn:Heq;
    [apply Z.eqb_eq in Heq; contradiction |].
  rewrite min_max_clamp_int by lia. repeat split.
Qed.

Lemma clamp_int_id (x lo hi : Z) : lo <= x <= hi → Spec.clamp_int x lo hi = x.
Proof.
  intros Hx. unfold Spec.clamp_int.
  destruct (x <? lo) eqn:Hlo; [apply Z.ltb_lt in Hlo; lia |].
  destruct (hi <? x) eqn:Hhi; [apply Z.ltb_lt in Hhi; lia | reflexivity].
Qed.

Lemma clamp_int_out (x lo hi : Z) :
  lo <= hi → ¬ lo <= x <= hi → Spec.clamp_int x lo hi ≠ x.
Proof.
  intros Hle Hx. unfold Spec.clamp_int.
  destruct (x <? lo) eqn:Hlo; [apply Z.ltb_lt in Hlo; lia |].
  apply Z.ltb_ge in Hlo.
  destruct (hi <? x) eqn:Hhi; [apply Z.ltb_lt in Hhi; lia |].
  apply Z.ltb_ge in Hhi. lia.
Qed.

(** The mask chosen by [ledsSimple]. *)
Lemma ledsSimple_mask (value : Z) (self : Rig.LogitechG29) :
  Rig.ledsSimple value self
  = Rig.leds (2 ^ Spec.clamp_int value 0 5 - 1) self.
Proof.
  unfold Rig.ledsSimple, Spec.clamp_int.
  destruct (5 <=? value) eqn:H5.
  { apply Z.leb_le in H5.
    assert ((value <? 0) = false) as -> by (apply Z.ltb_ge; lia).
    destruct (5 <? value) eqn:H5'; [reflexivity |].
    apply Z.ltb_ge in H5'. by replace value with 5 by lia. }
  apply Z.leb_gt in H5.
  assert ((5 <? value) = false) as -> by (apply Z.ltb_ge; lia).
  destruct (value <? 0) eqn:H0.
  { apply Z.ltb_lt in H0.
    repeat match goal with
           | |- context [?a <=? value] =>
               assert ((a <=? value) = false) as -> by (apply Z.leb_gt; lia)
           end.
    reflexivity. }
  apply Z.ltb_ge in H0.
  assert (Hv : value = 0 ∨ value = 1 ∨ value = 2 ∨ value = 3 ∨ value = 4)
    by lia.
  destruct Hv as [-> | [-> | [-> | [-> | ->]]]]; reflexivity.
Qed.

End Leds.

(** X5. On an open device, a second [leds] call with the same value
    changes nothing when the value is in 0..31; when it is out of that range
    (and is not the value already recorded) the second call is not
    suppressed, and the same clamped frame is written twice. *)
Theorem leds_repeated (value : Z) (self : Rig.LogitechG29)
    (log : list (list Z)) :
  Rig.device self = Some log →
  (0 <= value <= 31 →
   Rig.leds value (Rig.leds value self) = Rig.leds value self)
  ∧ (¬ 0 <= value <= 31 → Rig.lastLedValue self ≠ value →
     let frame :=
       Rig.os_frame self
         [0xf8; 0x12; Spec.clamp_int value 0 31; 0; 0; 0; 1] in
     Rig.device (Rig.leds value (Rig.leds value self))
     = Some (log ++ [frame; frame])).
Proof.
  intros Hdev. split.
  - intros Hin.
    destruct (decide (Rig.lastLedValue self = value)) as [Heq | Hne].
    + by rewrite !(leds_suppressed value self Heq).
    + apply leds_suppressed.
      destruct (leds_unfold value self Hne) as (_ & -> & _).
      by apply clamp_int_id.
  - intros Hout Hne frame.
    destruct (leds_unfold value self Hne) as (Hd1 & Hl1 & Hp1).
    assert (Hne' : Rig.lastLedValue (Rig.leds value self) ≠ value).
    { rewrite Hl1. apply clamp_int_out; [lia | exact Hout]. }
    destruct (leds_unfold value _ Hne') as (Hd2 & _ & _).
    rewrite Hd2, Hd1, Hdev. cbn [fmap option_fmap option_map].
    unfold Rig.os_frame in *. rewrite Hp1.
    by rewrite <- app_assoc.
Qed.

(** X4. [ledsSimple(value)] is [leds] of the mask 2^c − 1 with c the value
    clamped to 0..5, one of 0, 1, 3, 7, 15, 31; that mask is what the
    instance records, so repeating the call never writes a second frame. *)
Theorem ledsSimple_levels (value : Z) (self : Rig.LogitechG29) :
  let mask := 2 ^ Spec.clamp_int value 0 5 - 1 in
  Rig.ledsSimple value self = Rig.leds mask self
  ∧ mask ∈ [0; 1; 3; 7; 15; 31]
  ∧ Rig.lastLedValue (Rig.ledsSimple value self) = mask
  ∧ Rig.ledsSimple value (Rig.ledsSimple value self)
    = Rig.ledsSimple value self.
Proof.
  intros mask.
  assert (Hmask : mask ∈ [0; 1; 3; 7; 15; 31]).
  { subst mask. unfold Spec.clamp_int.
    destruct (value <? 0) eqn:H0; [apply elem_of_cons; by left |].
    apply Z.ltb_ge in H0.
    destruct (5 <? value) eqn:H5;
      [do 5 (apply elem_of_cons; right); apply elem_of_cons; by left |].
    apply Z.ltb_ge in H5.
    assert (Hv : value = 0 ∨ value = 1 ∨ value = 2 ∨ value = 3 ∨ value = 4
                 ∨ value = 5) by lia.
    destruct Hv as [-> | [-> | [-> | [-> | [-> | ->]]]]];
      repeat first [ apply elem_of_cons; left; reflexivity
                   | apply elem_of_cons; right ]. }
  assert (Hrange : 0 <= mask <= 31).
  { repeat (apply elem_of_cons in Hmask as [-> | Hmask]; [lia |]).
    by apply elem_of_nil in Hmask. }
  assert (Hlast : Rig.lastLedValue (Rig.leds mask self) = mask).
  { destruct (decide (Rig.lastLedValue self = mask)) as [Heq | Hne].
    - by rewrite (leds_suppressed mask self Heq).
    - destruct (leds_unfold mask self Hne) as (_ & -> & _).
      by apply clamp_int_id. }
  rewrite !ledsSimple_mask. fold mask.
  split; [reflexivity |]. split; [exact Hmask |]. split; [exact Hlast |].
  by apply leds_suppressed.
Qed.

(* ===================================================================== *)
(** * Platform flag and closed device *)
(* ===================================================================== *)

Section Platform.

Lemma relayOS_fields (frame : list Z) (self : Rig.LogitechG29) :
  Rig.emitted (Rig.relayOS frame self) = Rig.emitted self
  ∧ Rig.lastData (Rig.relayOS frame self) = Rig.lastData self
  ∧ Rig.lastLedValue (Rig.relayOS frame self) = Rig.lastLedValue self
  ∧ Rig.options (Rig.relayOS frame self) = Rig.options self
  ∧ Rig.prependWrite (Rig.relayOS frame self) = Rig.prependWrite self
  ∧ Rig.state (Rig.relayOS frame self) = Rig.state self.
Proof. repeat split. Qed.





Lemma do_call_no_device (c : Rig.call) (self : Rig.LogitechG29) :
  Rig.device self = None → Rig.device (Rig.do_call c self) = None.
Proof.
  intros Hdev.
  assert (Hleds : ∀ v, Rig.device (Rig.leds v self) = None).
  { intros v. unfold Rig.leds. destruct (_ =? _); [exact Hdev |].
    cbn [Rig.device]. by rewrite relayOS_device, Hdev. }
  destruct c as [| | value | value | slot | number | number | data];
    cbn [Rig.do_call].
  - unfold Rig.setRange. by rewrite relayOS_device, Hdev.
  - unfold Rig.autoCenter. destruct (Rig.autocenter _);
      by rewrite !relayOS_device, Hdev.
  - apply Hleds.
  - apply Hleds.
  - unfold Rig.forceOff. by rewrite relayOS_device, Hdev.
  - unfold Rig.forceConstant, Rig.forceOff. case_bool_decide;
      by rewrite relayOS_device, Hdev.
  - unfold Rig.forceFriction, Rig.forceOff. case_bool_decide;
      by rewrite relayOS_device, Hdev.
  - exact Hdev.
Qed.

End Platform.


(** X6. While no device is open, no call writes anything; [leds] still
    records the value it was given (clamped), so that the same in-range mask
    requested again after the device is opened is suppressed and never
    reaches the device. *)
Theorem calls_before_open (self : Rig.LogitechG29) :
  Rig.device self = None →
  (∀ cs : list Rig.call, Rig.device (Rig.do_calls cs self) = None)
  ∧ (∀ value : Z,
        Rig.lastLedValue (Rig.leds value self)
        = (if Rig.lastLedValue self =? value then value
           else Spec.clamp_int value 0 31))
  ∧ (∀ value : Z,
        0 <= value <= 31 →
        Rig.device (Rig.leds value (Rig.open_device (Rig.leds value self)))
        = Some []).
Proof.
  intros Hdev.
  assert (Hlast : ∀ value : Z,
            Rig.lastLedValue (Rig.leds value self)
            = (if Rig.lastLedValue self =? value then value
               else Spec.clamp_int value 0 31)).
  { intros value. destruct (Rig.lastLedValue self =? value) eqn:Heq.
    - apply Z.eqb_eq in Heq. by rewrite (leds_suppressed value self Heq).
    - apply Z.eqb_neq in Heq.
      by destruct (leds_unfold value self Heq) as (_ & -> & _). }
  split; [| split].
  - unfold Rig.do_calls. intros cs. clear Hlast. revert self Hdev.
    induction cs as [| c cs IH]; intros self Hdev; [exact Hdev |].
    simpl. by apply IH, do_call_no_device.
  - exact Hlast.
  - intros value Hin. rewrite leds_suppressed; [reflexivity |].
    cbn [Rig.open_device Rig.lastLedValue]. rewrite Hlast.
    destruct (_ =? _); [reflexivity | by apply clamp_int_id].
Qed.

(* ===================================================================== *)
(** * The changes of a report *)
(* ===================================================================== *)

Ltac split_elem H :=
  repeat (apply elem_of_cons in H as [H | H]);
  [.. | by apply elem_of_nil in H].

Section Diff.

Implicit Types (st : gmap string number) (ch pairs : DataMap.obj).
Implicit Types (sc : gmap string number * DataMap.obj).
Implicit Types (data lastData : list Z) (k : string) (v : number).

(** A report of at least six bytes gives finite values only. *)
Lemma pairs_at_finite data (i : nat) k v :
  (6 ≤ length data)%nat → (k, v) ∈ DataMap.pairs_at i data → ∃ q, v = Fin q.
Proof.
  intros Hlen Hin.
  assert (Hturn : ∃ q, DataMap.wheelTurn data = Fin q).
  { unfold DataMap.wheelTurn.
    destruct (lookup_lt_is_Some_2 data 4 ltac:(lia)) as [d4 ->].
    destruct (lookup_lt_is_Some_2 data 5 ltac:(lia)) as [d5 ->]. eauto. }
  do 12 (try destruct i as [| i]); cbn [DataMap.pairs_at] in Hin;
    split_elem Hin; injection Hin as -> ->;
    try exact Hturn; unfold DataMap.flag, int;
    try destruct (DataMap.truthy _); eauto.
Qed.

(** Two indices that write the same key write the same value. *)
Lemma pairs_at_functional data (i j : nat) k v v' :
  (k, v) ∈ DataMap.pairs_at i data → (k, v') ∈ DataMap.pairs_at j data →
  v = v'.
Proof.
  intros Hi Hj.
  do 12 (try destruct i as [| i]); cbn [DataMap.pairs_at] in Hi;
    split_elem Hi; injection Hi as -> ->;
    do 12 (try destruct j as [| j]); cbn [DataMap.pairs_at] in Hj;
    split_elem Hj; first [ discriminate Hj | by injection Hj as -> ].
Qed.

Lemma obj_set_fresh k v (o : DataMap.obj) :
  k ∉ o.*1 → DataMap.obj_set k v o = o ++ [(k, v)].
Proof.
  induction o as [| [k' v'] o IH]; intros Hk; [reflexivity |].
  rewrite fmap_cons in Hk. apply not_elem_of_cons in Hk as [Hne Hk].
  simpl. rewrite bool_decide_eq_false_2 by (intros ->; by apply Hne).
  by rewrite IH.
Qed.

Lemma differs_true_finite (old : option number) (q : Qc) :
  DataMap.differs old (Fin q) = true → old ≠ Some (Fin q).
Proof.
  intros Hd ->. simpl in Hd.
  by rewrite bool_decide_eq_true_2 in Hd.
Qed.

(** One comparison of [compareState] keeps the difference exact. *)
Lemma compare_step_is_diff data st0 sc k v :
  (6 ≤ length data)%nat → Spec.decodes data k v →
  Spec.is_diff data st0 sc →
  Spec.is_diff data st0
    (if DataMap.differs (sc.1 !! k) v
     then (<[k := v]> sc.1, DataMap.obj_set k v sc.2) else sc).
Proof.
  intros Hlen Hdec Hsc. destruct (DataMap.differs _ _) eqn:Hd; [| exact Hsc].
  destruct Hsc as (Hnd & Hin & Hout).
  destruct Hdec as [i Hi].
  destruct (pairs_at_finite data i k v Hlen Hi) as [q ->].
  apply differs_true_finite in Hd.
  assert (Hfresh : k ∉ sc.2.*1).
  { intros Hk. apply list_elem_of_fmap in Hk as ([k' v'] & Hk' & Hkv).
    simpl in Hk'. subst k'.
    destruct (Hin k v' Hkv) as (Hst & _ & [j Hj]).
    rewrite (pairs_at_functional data i j k _ _ Hi Hj) in Hd. by apply Hd. }
  unfold Spec.is_diff. cbn [fst snd]. rewrite obj_set_fresh by exact Hfresh.
  split; [| split].
  - rewrite fmap_app. apply NoDup_app. split; [exact Hnd |]. split.
    + intros k' Hk' Hk''. apply elem_of_cons in Hk'' as [-> | Hk''];
        [by apply Hfresh | by apply elem_of_nil in Hk''].
    + apply NoDup_singleton.
  - intros k' v' Hkv. apply elem_of_app in Hkv as [Hkv | Hkv].
    + destruct (Hin k' v' Hkv) as (Hst & Hne & Hdec).
      split; [| by split]. rewrite lookup_insert_ne; [exact Hst |].
      intros ->. apply Hfresh, list_elem_of_fmap. by exists (k', v').
    + apply elem_of_cons in Hkv as [[= -> ->] | Hkv];
        [| by apply elem_of_nil in Hkv].
      split; [apply lookup_insert_eq |]. split; [| by exists i].
      by rewrite <- (Hout k Hfresh).
  - intros k' Hk'. rewrite fmap_app in Hk'.
    apply not_elem_of_app in Hk' as [Hk' Hne].
    rewrite lookup_insert_ne; [by apply Hout |].
    intros ->. apply Hne, elem_of_cons. by left.
Qed.

Lemma compareState_is_diff data st0 pairs sc :
  (6 ≤ length data)%nat →
  (∀ k v, (k, v) ∈ pairs → Spec.decodes data k v) →
  Spec.is_diff data st0 sc →
  Spec.is_diff data st0 (DataMap.compareState pairs sc).
Proof.
  intros Hlen. revert sc.
  induction pairs as [| [k v] pairs IH]; intros sc Hdec Hsc; [exact Hsc |].
  rewrite compareState_cons. apply IH.
  - intros k' v' Hkv. apply Hdec, elem_of_cons. by right.
  - apply compare_step_is_diff; [exact Hlen | | exact Hsc].
    apply Hdec, elem_of_cons. by left.
Qed.

Lemma updateState_is_diff data lastData st :
  (6 ≤ length data)%nat →
  Spec.is_diff data st (DataMap.updateState data lastData st).
Proof.
  intros Hlen. unfold DataMap.updateState.
  assert (Hfold : ∀ (l : list nat) sc, Spec.is_diff data st sc →
            Spec.is_diff data st
              (fold_left (DataMap.update_index data lastData) l sc)).
  { induction l as [| i l IH]; intros sc Hsc; [exact Hsc |].
    simpl. apply IH. unfold DataMap.update_index.
    case_bool_decide; [| exact Hsc].
    apply compareState_is_diff; [exact Hlen | | exact Hsc].
    intros k v Hkv. by exists i. }
  apply Hfold. split; [constructor |]. split.
  - intros k v Hkv. by apply elem_of_nil in Hkv.
  - reflexivity.
Qed.

End Diff.

(** Membership in the changes of an exact difference. *)
Lemma is_diff_member (data : list Z) (st0 : gmap string number)
    (sc : gmap string number * DataMap.obj) (key : string) (v : number) :
  Spec.is_diff data st0 sc →
  (key, v) ∈ sc.2 ↔ sc.1 !! key = Some v ∧ st0 !! key ≠ Some v.
Proof.
  intros (Hnd & Hin & Hout). split.
  - intros Hkv. destruct (Hin key v Hkv) as (? & ? & _). by split.
  - intros [Hnew Hold].
    destruct (decide (key ∈ sc.2.*1)) as [Hk | Hk].
    + apply list_elem_of_fmap in Hk as ([k' v'] & Hk' & Hkv).
      simpl in Hk'. subst k'.
      destruct (Hin key v' Hkv) as (Hst & _ & _).
      by replace v with v' by congruence.
    + rewrite (Hout key Hk) in Hnew. contradiction.
Qed.

(** An exact difference is empty exactly when nothing changed. *)
Lemma is_diff_nil (data : list Z) (st0 : gmap string number)
    (sc : gmap string number * DataMap.obj) :
  Spec.is_diff data st0 sc → sc.2 = [] ↔ sc.1 = st0.
Proof.
  intros (Hnd & Hin & Hout). split.
  - intros Hnil. apply map_eq. intros key. apply Hout.
    rewrite Hnil. apply not_elem_of_nil.
  - intros Heq. destruct sc as [st' [| [k v] ch]]; [reflexivity |].
    destruct (Hin k v) as (Hst & Hne & _); [apply elem_of_cons; by left |].
    simpl in Heq, Hst. rewrite Heq in Hst. contradiction.
Qed.

(** X8. For a 12-byte report, the changes returned by [updateState] are
    the difference between the old and the new state: their keys are
    distinct, [(key, v)] is a change exactly when the new state has [v] at
    [key] and the old state did not, every change is a value decoded from
    the report, and the changes are empty exactly when the state is
    unchanged. *)
Theorem changes_are_the_difference (data lastData : list Z)
    (state : gmap string number) :
  length data = 12%nat →
  let r := DataMap.updateState data lastData state in
  NoDup r.2.*1
  ∧ (∀ key v, (key, v) ∈ r.2 ↔ r.1 !! key = Some v ∧ state !! key ≠ Some v)
  ∧ (∀ key v, (key, v) ∈ r.2 → Spec.decodes data key v)
  ∧ (r.2 = [] ↔ r.1 = state).
Proof.
  intros Hlen r.
  assert (Hd : Spec.is_diff data state r)
    by (apply updateState_is_diff; lia).
  split; [exact (proj1 Hd) |]. split; [| split].
  - intros key v. by apply (is_diff_member data).
  - intros key v Hkv.
    by destruct (proj1 (proj2 Hd) key v Hkv) as (_ & _ & ?).
  - by apply (is_diff_nil data).
Qed.

(* ===================================================================== *)
(** * State and events across reports *)
(* ===================================================================== *)

Section LastReport.

Implicit Types (st : gmap string number) (data lastData : list Z).
Implicit Types (k : string) (v : number).

Lemma keys_at_bound (i : nat) k : k ∈ DataMap.keys_at i → (i < 12)%nat.
Proof.
  intros Hk. do 12 (try destruct i as [| i]); try lia.
  by apply elem_of_nil in Hk.
Qed.

Lemma keys_at_pair data (i : nat) k :
  k ∈ DataMap.keys_at i → ∃ v, (k, v) ∈ DataMap.pairs_at i data.
Proof.
  rewrite <- (pairs_at_keys i data). intros Hk.
  apply list_elem_of_fmap in Hk as ([k' v] & -> & Hkv). by exists v.
Qed.

Lemma pair_keys_at data (i : nat) k v :
  (k, v) ∈ DataMap.pairs_at i data → k ∈ DataMap.keys_at i.
Proof.
  intros Hkv. rewrite <- (pairs_at_keys i data).
  apply list_elem_of_fmap. by exists (k, v).
Qed.

(** A value written for a changed index is still there at the end. *)
Lemma updateState_lookup_changed data lastData st (i : nat) k v :
  (i < length data)%nat → data !! i ≠ lastData !! i →
  (k, v) ∈ DataMap.pairs_at i data →
  (DataMap.updateState data lastData st).1 !! k = Some v.
Proof.
  intros Hi Hch Hkv. unfold DataMap.updateState.
  replace (length data) with (i + S (length data - S i))%nat by lia.
  rewrite seq_app, fold_left_app. simpl seq. simpl fold_left.
  set (sc := fold_left _ (seq 0 i) _).
  assert (Hkeep : ∀ (l : list nat) sc', sc'.1 !! k = Some v →
            (fold_left (DataMap.update_index data lastData) l sc').1 !! k
            = Some v).
  { induction l as [| j l IH]; intros sc' Hsc'; [exact Hsc' |].
    simpl. apply IH. unfold DataMap.update_index.
    case_bool_decide; [| exact Hsc'].
    destruct (decide (k ∈ (DataMap.pairs_at j data).*1)) as [Hk | Hk].
    - apply list_elem_of_fmap in Hk as ([k' v'] & -> & Hkv').
      rewrite (pairs_at_functional data i j _ _ _ Hkv Hkv').
      apply compareState_lookup_in; [apply pairs_at_NoDup | exact Hkv'].
    - by rewrite compareState_lookup_other. }
  apply Hkeep. rewrite update_index_changed by exact Hch.
  apply compareState_lookup_in; [apply pairs_at_NoDup | exact Hkv].
Qed.

(** What a report gives for a key only depends on the bytes at the indices
    that write the key. *)
Lemma pairs_at_stable data lastData (i : nat) k v :
  (∀ j : nat, k ∈ DataMap.keys_at j → data !! j = lastData !! j) →
  (k, v) ∈ DataMap.pairs_at i lastData → Spec.decodes data k v.
Proof.
  intros Hsame Hkv.
  assert (Htot : ∀ j : nat, k ∈ DataMap.keys_at j →
            data !!! j = lastData !!! j).
  { intros j Hj. by rewrite !list_lookup_total_alt, (Hsame j Hj). }
  pose proof (pair_keys_at _ _ _ _ Hkv) as Hk.
  do 12 (try destruct i as [| i]); cbn [DataMap.pairs_at] in Hkv;
    try (by apply elem_of_nil in Hkv).
  - exists 0%nat. cbn [DataMap.pairs_at]. by rewrite (Htot _ Hk).
  - exists 1%nat. cbn [DataMap.pairs_at]. by rewrite (Htot _ Hk).
  - exists 2%nat. cbn [DataMap.pairs_at]. by rewrite (Htot _ Hk).
  - exists 3%nat. cbn [DataMap.pairs_at]. by rewrite (Htot _ Hk).
  - exists 4%nat. cbn [DataMap.pairs_at]. split_elem Hkv.
    injection Hkv as -> ->. apply elem_of_cons. left. f_equal.
    unfold DataMap.wheelTurn.
    rewrite (Hsame 4%nat), (Hsame 5%nat);
      [reflexivity | apply elem_of_cons; by left ..].
  - exists 5%nat. cbn [DataMap.pairs_at]. split_elem Hkv.
    injection Hkv as -> ->. apply elem_of_cons. left. f_equal.
    unfold DataMap.wheelTurn.
    rewrite (Hsame 4%nat), (Hsame 5%nat);
      [reflexivity | apply elem_of_cons; by left ..].
  - exists 6%nat. cbn [DataMap.pairs_at]. by rewrite (Htot _ Hk).
  - exists 7%nat. cbn [DataMap.pairs_at]. by rewrite (Htot _ Hk).
  - exists 8%nat. cbn [DataMap.pairs_at]. by rewrite (Htot _ Hk).
  - exists 11%nat. cbn [DataMap.pairs_at]. split_elem Hkv.
    injection Hkv as -> ->. apply elem_of_cons. left. do 3 f_equal.
    symmetry. apply Htot. apply elem_of_cons. by left.
Qed.

(** Either no index that writes [k] changed, or one did. *)
Lemma key_changed_dec data lastData k :
  (∀ j : nat, k ∈ DataMap.keys_at j → data !! j = lastData !! j)
  ∨ (∃ j : nat, k ∈ DataMap.keys_at j ∧ data !! j ≠ lastData !! j).
Proof.
  destruct (decide (Exists (λ j : nat, k ∈ DataMap.keys_at j
                                       ∧ data !! j ≠ lastData !! j)
                      (seq 0 12))) as [Hex | Hno].
  - right. apply Exists_exists in Hex as (j & _ & Hj). by exists j.
  - left. intros j Hk.
    apply not_Exists_Forall in Hno; [| intros ?; apply _].
    rewrite Forall_forall in Hno.
    pose proof (keys_at_bound j k Hk) as Hj.
    specialize (Hno j ltac:(apply elem_of_seq; lia)). simpl in Hno.
    destruct (decide (data !! j = lastData !! j)) as [Heq | Hne];
      [exact Heq | exfalso; by apply Hno].
Qed.

(** One report keeps the state in line with the last report. *)
Lemma updateState_follows data lastData (st : gmap string number) :
  length data = 12%nat →
  Spec.follows_last_report lastData st →
  Spec.follows_last_report data (DataMap.updateState data lastData st).1.
Proof.
  intros Hlen IH k v Hv.
  destruct (updateState_is_diff data lastData st ltac:(lia))
    as (_ & Hin & Hout).
  destruct (key_changed_dec data lastData k) as [Hsame | Hch].
  - destruct (decide (k ∈ (DataMap.updateState data lastData st).2.*1))
      as [Hk | Hk].
    + apply list_elem_of_fmap in Hk as ([k' v'] & -> & Hkv).
      destruct (Hin _ _ Hkv) as (Hst & _ & Hdec).
      simpl in Hv. by replace v with v' by congruence.
    + rewrite (Hout k Hk) in Hv. destruct (IH k v Hv) as [i Hi].
      by apply (pairs_at_stable data lastData i).
  - destruct Hch as (j & Hk & Hne).
    destruct (keys_at_pair data j k Hk) as [v' Hkv].
    pose proof (keys_at_bound j k Hk) as Hj.
    rewrite (updateState_lookup_changed data _ _ j k v') in Hv;
      [| lia | exact Hne | exact Hkv].
    injection Hv as <-. by exists j.
Qed.

Lemma reachable_follows (self : Rig.LogitechG29) :
  Rig.reachable self →
  Spec.follows_last_report (Rig.lastData self) (Rig.state self).
Proof.
  apply (reachable_data_ind (λ st last, Spec.follows_last_report last st)).
  - intros k v Hv. by rewrite lookup_empty in Hv.
  - intros data st last IH Hlen _. by apply updateState_follows.
Qed.

End LastReport.

(** X10. In every reachable instance the state holds, for each field it
    has, the value that the last report gives for that field; in particular
    the stored turn, gear and dpad are the ones decoded from the last
    report. *)
Theorem state_follows_last_report (self : Rig.LogitechG29) :
  Rig.reachable self →
  Spec.follows_last_report (Rig.lastData self) (Rig.state self)
  ∧ (∀ v, Rig.state self !! "wheel-turn" = Some v →
          v = DataMap.wheelTurn (Rig.lastData self))
  ∧ (∀ v, Rig.state self !! "shifter-gear" = Some v →
          v = int (DataMap.shifterGear (Rig.lastData self !!! 2%nat)))
  ∧ (∀ v, Rig.state self !! "wheel-dpad" = Some v →
          v = int (DataMap.wheelDpad (Rig.lastData self !!! 0%nat))).
Proof.
  intros Hreach. pose proof (reachable_follows self Hreach) as Hf.
  split; [exact Hf |].
  repeat split; intros v Hv; destruct (Hf _ _ Hv) as [i Hi];
    do 12 (try destruct i as [| i]); cbn [DataMap.pairs_at] in Hi;
    repeat (apply elem_of_cons in Hi as [Hi | Hi]);
    try (by apply elem_of_nil in Hi); try discriminate Hi;
    by injection Hi as ->.
Qed.

(** X9. For a 12-byte report the handler appends to the emitted events: a
    per-field event [(key, v)] exactly when the field [key] changed to [v],
    a 'changes' event exactly when the state changed, and then always 'all'
    with the copy of the new state and 'data' with the report; the events
    before those two are one per change, plus 'changes' when there is a
    change. *)
Theorem events_of_a_report (self : Rig.LogitechG29) (data : list Z) :
  length data = 12%nat →
  let r := DataMap.updateState data (Rig.lastData self) (Rig.state self) in
  let events := Rig.report_events data r.1 r.2 in
  Rig.emitted (Rig.on_data data self) = Rig.emitted self ++ events
  ∧ (∀ key v,
        Rig.Emit key (Rig.PNumber v) ∈ events
        ↔ Rig.state (Rig.on_data data self) !! key = Some v
          ∧ Rig.state self !! key ≠ Some v)
  ∧ ((∃ changes, Rig.Emit "changes" (Rig.PChanges changes) ∈ events)
     ↔ Rig.state (Rig.on_data data self) ≠ Rig.state self)
  ∧ (∃ before,
        events = before
                 ++ [Rig.Emit "all"
                       (Rig.PState
                          (Rig.snapshot (Rig.state (Rig.on_data data self))));
                     Rig.Emit "data" (Rig.PData data)]
        ∧ length before
          = (length r.2 + if bool_decide (r.2 = []) then 0 else 1)%nat).
Proof.
  intros Hlen r events.
  assert (Hd : Spec.is_diff data (Rig.state self) r)
    by (apply updateState_is_diff; lia).
  pose proof (λ key v, is_diff_member data _ r key v Hd) as Hiff.
  pose proof (is_diff_nil data _ r Hd) as Hnil.
  cbn [Rig.on_data Rig.state Rig.emitted]. fold r. fold events.
  split; [reflexivity |].
  subst events. unfold Rig.report_events.
  destruct r.2 as [| kv ch] eqn:Hch.
  - rewrite bool_decide_eq_false_2 by (simpl; lia).
    split; [| split].
    + intros key v. rewrite <- Hiff. split.
      * intros Hin. repeat (apply elem_of_cons in Hin as [Hin | Hin]);
          try discriminate Hin. by apply elem_of_nil in Hin.
      * intros Hin. by apply elem_of_nil in Hin.
    + split.
      * intros [c Hin]. repeat (apply elem_of_cons in Hin as [Hin | Hin]);
          try discriminate Hin. by apply elem_of_nil in Hin.
      * intros Hne. exfalso. by apply Hne, Hnil.
    + exists []. split; reflexivity.
  - rewrite bool_decide_eq_true_2 by (simpl; lia).
    split; [| split].
    + intros key v. rewrite <- Hiff. split.
      * intros Hin. apply elem_of_app in Hin as [Hin | Hin].
        -- apply elem_of_app in Hin as [Hin | Hin].
           ++ apply list_elem_of_fmap in Hin as ([k' v'] & [= -> ->] & Hin).
              exact Hin.
           ++ apply elem_of_cons in Hin as [Hin | Hin];
                [discriminate Hin | by apply elem_of_nil in Hin].
        -- repeat (apply elem_of_cons in Hin as [Hin | Hin]);
             try discriminate Hin. by apply elem_of_nil in Hin.
      * intros Hin. apply elem_of_app. left. apply elem_of_app. left.
        apply list_elem_of_fmap. by exists (key, v).
    + split.
      * intros _ Heq. apply Hnil in Heq. discriminate Heq.
      * intros _. exists (kv :: ch). apply elem_of_app. left.
        apply elem_of_app. right. apply elem_of_cons. by left.
    + eexists. split; [reflexivity |].
      rewrite length_app, length_map. simpl. lia.
Qed.

(* ===================================================================== *)
(** * Decoding of the flag and code bytes *)
(* ===================================================================== *)

Section Bytes.

Lemma flag_bit (value mask : Z) :
  DataMap.flag value mask = int (Spec.bit value mask).
Proof. unfold DataMap.flag, Spec.bit. by destruct (DataMap.truthy _). Qed.

Lemma land_1_bit (value : Z) : Z.land value 1 = Spec.bit value 1.
Proof.
  pose proof (land_1_range value) as H. unfold Spec.bit, DataMap.truthy.
  destruct (Z.land value 1 =? 0) eqn:H0; simpl.
  - by apply Z.eqb_eq in H0.
  - apply Z.eqb_neq in H0. lia.
Qed.

Lemma bit_range (value mask : Z) : 0 <= Spec.bit value mask <= 1.
Proof. unfold Spec.bit. destruct (DataMap.truthy _); lia. Qed.

End Bytes.

(** X11. Byte 0 splits into a dpad code and four flags, and byte 2 into a
    gear code and one flag: the decoded dpad is the switch applied to the low
    four bits and the buttons are bits 16, 32, 64, 128, the decoded gear is
    the switch applied to the low seven bits and buttonPlus is bit 128, and
    the byte is the sum of its code and its weighted flags.  A dpad code of
    9 to 15 decodes to 0, and so does a gear code that is not 0 or a single
    gear bit. *)
Theorem code_bytes_decompose (data : list Z) (b : Z) :
  Spec.is_byte b →
  (data !! 0%nat = Some b →
   DataMap.pairs_at 0 data
   = [("wheel-dpad", int (DataMap.dpad_of_code (b mod 16)));
      ("wheel-button_x", int (Spec.bit b 16));
      ("wheel-button_square", int (Spec.bit b 32));
      ("wheel-button_circle", int (Spec.bit b 64));
      ("wheel-button_triangle", int (Spec.bit b 128))]
   ∧ b = b mod 16 + 16 * Spec.bit b 16 + 32 * Spec.bit b 32
         + 64 * Spec.bit b 64 + 128 * Spec.bit b 128
   ∧ (9 <= b mod 16 → DataMap.wheelDpad b = 0))
  ∧ (data !! 2%nat = Some b →
     DataMap.pairs_at 2 data
     = [("shifter-gear", int (DataMap.gear_of_code (b mod 128)));
        ("wheel-button_plus", int (Spec.bit b 128))]
     ∧ b = b mod 128 + 128 * Spec.bit b 128
     ∧ (b mod 128 ∉ [0; 1; 2; 4; 8; 16; 32; 64] → DataMap.shifterGear b = 0)).
Proof.
  intros Hb. split; intros Hd; cbn [DataMap.pairs_at];
    rewrite (list_lookup_total_correct _ _ _ Hd), !flag_bit.
  - unfold DataMap.wheelDpad. rewrite reduce_byte_8 by exact Hb.
    split; [reflexivity |]. split.
    + apply Z.eqb_eq.
      apply (forall_bytes
               (λ b, b =? b mod 16 + 16 * Spec.bit b 16 + 32 * Spec.bit b 32
                          + 64 * Spec.bit b 64 + 128 * Spec.bit b 128));
        [vm_compute; reflexivity | exact Hb].
    + intros H9. pose proof (Z.mod_pos_bound b 16 ltac:(lia)) as Hm.
      assert (Hc : b mod 16 = 9 ∨ b mod 16 = 10 ∨ b mod 16 = 11
                   ∨ b mod 16 = 12 ∨ b mod 16 = 13 ∨ b mod 16 = 14
                   ∨ b mod 16 = 15) by lia.
      destruct Hc as [-> | [-> | [-> | [-> | [-> | [-> | ->]]]]]];
        reflexivity.
  - unfold DataMap.shifterGear. rewrite reduce_byte_64 by exact Hb.
    split; [reflexivity |]. split.
    + apply Z.eqb_eq.
      apply (forall_bytes (λ b, b =? b mod 128 + 128 * Spec.bit b 128));
        [vm_compute; reflexivity | exact Hb].
    + intros Hout. rewrite gear_of_code_table. unfold Spec.gear_table.
      simpl.
      repeat match goal with
             | |- context [b mod 128 =? ?c] =>
                 destruct (b mod 128 =? c) eqn:?H;
                 [ exfalso; apply Hout; apply Z.eqb_eq in H; rewrite H;
                   repeat first [ apply elem_of_cons; left; reflexivity
                                | apply elem_of_cons; right ]
                 | clear H ]
             end.
      reflexivity.
Qed.

(** X12. Byte 1 is the weighted sum of its eight decoded flags, so
    nothing of it is lost.  Byte 3 decodes through its five low bits only:
    spinner is 1 when bit 2 is set (also when bit 4 is set as well), −1 when
    only bit 4 is set, and the three high bits are ignored. *)
Theorem flag_bytes_decompose (data : list Z) (b : Z) :
  Spec.is_byte b →
  (data !! 1%nat = Some b →
   DataMap.pairs_at 1 data
   = [("wheel-shift_right", int (Spec.bit b 1));
      ("wheel-shift_left", int (Spec.bit b 2));
      ("wheel-button_r2", int (Spec.bit b 4));
      ("wheel-button_l2", int (Spec.bit b 8));
      ("wheel-button_share", int (Spec.bit b 16));
      ("wheel-button_option", int (Spec.bit b 32));
      ("wheel-button_r3", int (Spec.bit b 64));
      ("wheel-button_l3", int (Spec.bit b 128))]
   ∧ b = Spec.bit b 1 + 2 * Spec.bit b 2 + 4 * Spec.bit b 4
         + 8 * Spec.bit b 8 + 16 * Spec.bit b 16 + 32 * Spec.bit b 32
         + 64 * Spec.bit b 64 + 128 * Spec.bit b 128)
  ∧ (data !! 3%nat = Some b →
     DataMap.pairs_at 3 data
     = [("wheel-spinner",
         int (if Spec.bit b 2 =? 1 then 1
              else if Spec.bit b 4 =? 1 then -1 else 0));
        ("wheel-button_minus", int (Spec.bit b 1));
        ("wheel-button_spinner", int (Spec.bit b 8));
        ("wheel-button_playstation", int (Spec.bit b 16))]
     ∧ b mod 32 = Spec.bit b 1 + 2 * Spec.bit b 2 + 4 * Spec.bit b 4
                  + 8 * Spec.bit b 8 + 16 * Spec.bit b 16
     ∧ ∀ data' : list Z,
         data' !! 3%nat = Some (b mod 32) →
         DataMap.pairs_at 3 data' = DataMap.pairs_at 3 data).
Proof.
  intros Hb. split; intros Hd.
  - split.
    + cbn [DataMap.pairs_at].
      by rewrite (list_lookup_total_correct _ _ _ Hd), !flag_bit, land_1_bit.
    + apply Z.eqb_eq.
      apply (forall_bytes
               (λ b, b =? Spec.bit b 1 + 2 * Spec.bit b 2 + 4 * Spec.bit b 4
                          + 8 * Spec.bit b 8 + 16 * Spec.bit b 16
                          + 32 * Spec.bit b 32 + 64 * Spec.bit b 64
                          + 128 * Spec.bit b 128));
        [vm_compute; reflexivity | exact Hb].
  - assert (Hshape : ∀ (d : list Z) (c : Z), d !! 3%nat = Some c →
              DataMap.pairs_at 3 d
              = [("wheel-spinner",
                  int (if Spec.bit c 2 =? 1 then 1
                       else if Spec.bit c 4 =? 1 then -1 else 0));
                 ("wheel-button_minus", int (Spec.bit c 1));
                 ("wheel-button_spinner", int (Spec.bit c 8));
                 ("wheel-button_playstation", int (Spec.bit c 16))]).
    { intros d c Hc. cbn [DataMap.pairs_at].
      rewrite (list_lookup_total_correct _ _ _ Hc), !flag_bit, land_1_bit.
      unfold Spec.bit.
      by destruct (DataMap.truthy (Z.land c 2)),
                  (DataMap.truthy (Z.land c 4)). }
    split; [by apply Hshape |]. split.
    + apply Z.eqb_eq.
      apply (forall_bytes
               (λ b, b mod 32 =? Spec.bit b 1 + 2 * Spec.bit b 2
                                 + 4 * Spec.bit b 4 + 8 * Spec.bit b 8
                                 + 16 * Spec.bit b 16));
        [vm_compute; reflexivity | exact Hb].
    + intros data' Hd'. rewrite (Hshape _ _ Hd), (Hshape _ _ Hd').
      assert (Hbits : ∀ m, m ∈ [1; 2; 4; 8; 16] →
                Spec.bit (b mod 32) m = Spec.bit b m).
      { intros m Hm. apply Z.eqb_eq. clear Hd Hd'. revert b Hb.
        repeat (apply elem_of_cons in Hm as [-> | Hm]);
          [.. | by apply elem_of_nil in Hm];
          apply (forall_bytes (λ b, Spec.bit (b mod 32) _ =? Spec.bit b _));
          vm_compute; reflexivity. }
      rewrite !Hbits;
        [reflexivity
        | repeat first [ apply elem_of_cons; left; reflexivity
                       | apply elem_of_cons; right ] ..].
Qed.

(* ===================================================================== *)
(** * Monotone decoders and the recovery loop *)
(* ===================================================================== *)

(** X13. The decoded turn is monotone in 255 × byte5 + byte4: a report
    with a larger such value never decodes to a smaller turn, and two
    reports with the same value decode to the same turn; the turn is 0.00
    exactly when the value is at most 3, and 100.00 exactly when it is at
    least 65277. *)
Theorem wheelTurn_monotone (data data' : list Z) (b4 b5 b4' b5' : Z) :
  data !! 4%nat = Some b4 → data !! 5%nat = Some b5 →
  data' !! 4%nat = Some b4' → data' !! 5%nat = Some b5' →
  Spec.is_byte b4 → Spec.is_byte b5 → Spec.is_byte b4' → Spec.is_byte b5' →
  255 * b5 + b4 <= 255 * b5' + b4' →
  ∃ t t' : Qc,
    DataMap.wheelTurn data = Fin t ∧ DataMap.wheelTurn data' = Fin t'
    ∧ (t <= t')%Qc
    ∧ (255 * b5 + b4 = 255 * b5' + b4' → t = t')
    ∧ (t = Qc_of_Z 0 ↔ 255 * b5 + b4 <= 3)
    ∧ (t = Qc_of_Z 100 ↔ 65277 <= 255 * b5 + b4).
Proof.
  intros H4 H5 H4' H5' Hb4 Hb5 Hb4' Hb5' Hle.
  exists (Spec.double_hundredths (Spec.turn_code b4 b5)),
    (Spec.double_hundredths (Spec.turn_code b4' b5')).
  split; [by apply wheelTurn_code |]. split; [by apply wheelTurn_code |].
  pose proof (turn_code_range b4 b5 Hb4 Hb5) as Hr.
  pose proof (turn_code_range b4' b5' Hb4' Hb5') as Hr'.
  pose proof (turn_code_cases b4 b5) as Hc.
  pose proof (turn_code_cases b4' b5') as Hc'.
  destruct Hb4, Hb5, Hb4', Hb5'.
  set (c := Spec.turn_code b4 b5) in *.
  set (c' := Spec.turn_code b4' b5') in *.
  set (N := 255 * b5 + b4) in *. set (N' := 255 * b5' + b4') in *.
  pose proof (Z.mul_div_le (125 * N + 408) 816 eq_refl) as Hk1.
  pose proof (Z.mul_succ_div_gt (125 * N + 408) 816 eq_refl) as Hk2.
  pose proof (Z.mul_div_le (125 * N' + 408) 816 eq_refl) as Hk1'.
  pose proof (Z.mul_succ_div_gt (125 * N' + 408) 816 eq_refl) as Hk2'.
  set (k := (125 * N + 408) / 816) in *.
  set (k' := (125 * N' + 408) / 816) in *.
  split; [| split; [| split]].
  - apply double_hundredths_le. lia.
  - intros E. f_equal. lia.
  - rewrite <- double_hundredths_0. split.
    + intros Heq. apply double_hundredths_inj in Heq; lia.
    + intros HN. f_equal. lia.
  - rewrite <- double_hundredths_10000. split.
    + intros Heq. apply double_hundredths_inj in Heq; lia.
    + intros HN. f_equal. lia.
Qed.

(** X14. A larger pedal byte never decodes to a larger fraction; the
    decoded value is 1.00 exactly for bytes 0 and 1, and 0.00 exactly for
    bytes 254 and 255. *)
Theorem pedalToPercent_antitone (b b' : Z) :
  Spec.is_byte b → Spec.is_byte b' → b <= b' →
  ∃ p p' : Qc,
    DataMap.pedalToPercent b = Fin p ∧ DataMap.pedalToPercent b' = Fin p'
    ∧ (p' <= p)%Qc
    ∧ (p = Qc_of_Z 1 ↔ b <= 1)
    ∧ (p = Qc_of_Z 0 ↔ 254 <= b).
Proof.
  intros Hb Hb' Hle.
  exists (Spec.double_hundredths ((200 * (255 - b) + 255) / 510)),
    (Spec.double_hundredths ((200 * (255 - b') + 255) / 510)).
  split; [by apply pedalToPercent_code |].
  split; [by apply pedalToPercent_code |].
  destruct Hb as [Hlo Hhi], Hb' as [Hlo' Hhi'].
  pose proof (Z.mul_div_le (200 * (255 - b) + 255) 510 eq_refl) as Hk1.
  pose proof (Z.mul_succ_div_gt (200 * (255 - b) + 255) 510 eq_refl) as Hk2.
  pose proof (Z.mul_div_le (200 * (255 - b') + 255) 510 eq_refl) as Hk1'.
  pose proof (Z.mul_succ_div_gt (200 * (255 - b') + 255) 510 eq_refl) as Hk2'.
  set (k := (200 * (255 - b) + 255) / 510) in *.
  set (k' := (200 * (255 - b') + 255) / 510) in *.
  split; [| split].
  - apply double_hundredths_le. lia.
  - rewrite <- double_hundredths_100. split.
    + intros Heq. apply double_hundredths_inj in Heq; lia.
    + intros Hb. f_equal. lia.
  - rewrite <- double_hundredths_0. split.
    + intros Heq. apply double_hundredths_inj in Heq; lia.
    + intros Hb. f_equal. lia.
Qed.

Section ReduceBounds.


End ReduceBounds.


(* ===================================================================== *)
(** * Device discovery *)
(* ===================================================================== *)

Section Discovery.

(** [find] returns the first element that satisfies the predicate. *)
Lemma find_first {A : Type} (f : A → bool) (l : list A) (x : A) :
  List.find f l = Some x ↔
  ∃ before after,
    l = before ++ x :: after
    ∧ Forall (λ y, f y = false) before ∧ f x = true.
Proof.
  split.
  - induction l as [| y l IH]; [discriminate |]. simpl.
    destruct (f y) eqn:Hy.
    + intros [= ->]. exists [], l. repeat split; [constructor | exact Hy].
    + intros Hfind. destruct (IH Hfind) as (before & after & -> & Hb & Hx).
      exists (y :: before), after. repeat split; [| exact Hx].
      by apply List.Forall_cons.
  - intros (before & after & -> & Hb & Hx).
    induction Hb as [| y before Hy _ IH]; simpl.
    + by rewrite Hx.
    + by rewrite Hy.
Qed.

Lemma find_none_all {A : Type} (f : A → bool) (l : list A) :
  List.find f l = None ↔ Forall (λ y, f y = false) l.
Proof.
  induction l as [| y l IH]; simpl.
  - split; [constructor | reflexivity].
  - destruct (f y) eqn:Hy.
    + split; [discriminate |]. intros H. inversion H; congruence.
    + rewrite IH. split.
      * intros H. by apply List.Forall_cons.
      * intros H. by inversion H.
Qed.

Lemma is_wheel_spec (d : Utils.Device) :
  Utils.is_wheel d = true ↔
  Utils.vendorId d = 1133
  ∧ (Utils.productId d = 49743
     ∨ Utils.product d = Some "G29 Driving Force Racing Wheel")
  ∧ (Utils.interface d = 0 ∨ Utils.usagePage d = Some 1).
Proof.
  unfold Utils.is_wheel.
  rewrite !andb_true_iff, !orb_true_iff, !Z.eqb_eq, !bool_decide_eq_true.
  tauto.
Qed.

End Discovery.

(** X16. [getWheelDevicePath] returns a path exactly when the first device
    of the list that passes the test has that path; it fails, always with
    DEVICE_NOT_FOUND, when no device passes or when the first one that
    passes has no path; and a device passes exactly when its vendor is 1133,
    its product id is 49743 or its product name is the G29 name, and its
    interface is 0 or its usage page is 1. *)
Theorem getWheelDevicePath_first_match (devices : list Utils.Device) :
  (∀ p : string,
      Utils.getWheelDevicePath devices = inl p ↔
      ∃ before d after,
        devices = before ++ d :: after
        ∧ Forall (λ x, Utils.is_wheel x = false) before
        ∧ Utils.is_wheel d = true ∧ Utils.path d = Some p)
  ∧ (∀ e : Utils.DeviceError,
        Utils.getWheelDevicePath devices = inr e →
        Utils.name e = "DEVICE_NOT_FOUND"
        ∧ (Forall (λ x, Utils.is_wheel x = false) devices
           ∨ ∃ before d after,
               devices = before ++ d :: after
               ∧ Forall (λ x, Utils.is_wheel x = false) before
               ∧ Utils.is_wheel d = true ∧ Utils.path d = None))
  ∧ (∀ d : Utils.Device,
        Utils.is_wheel d = true ↔
        Utils.vendorId d = 1133
        ∧ (Utils.productId d = 49743
           ∨ Utils.product d = Some "G29 Driving Force Racing Wheel")
        ∧ (Utils.interface d = 0 ∨ Utils.usagePage d = Some 1)).
Proof.
  split; [| split; [| apply is_wheel_spec]].
  - intros p. unfold Utils.getWheelDevicePath.
    destruct (List.find Utils.is_wheel devices) as [d |] eqn:Hfind.
    + apply find_first in Hfind as (before & after & -> & Hb & Hd).
      split.
      * destruct (Utils.path d) as [p' |] eqn:Hp; [| discriminate].
        intros [= ->]. by exists before, d, after.
      * intros (before' & d' & after' & Heq & Hb' & Hd' & Hp').
        assert (Hfirst : List.find Utils.is_wheel (before ++ d :: after)
                         = Some d) by (apply find_first; eauto).
        rewrite Heq in Hfirst.
        assert (Hfirst' : List.find Utils.is_wheel (before' ++ d' :: after')
                          = Some d') by (apply find_first; eauto).
        rewrite Hfirst' in Hfirst. injection Hfirst as ->.
        by rewrite Hp'.
    + apply find_none_all in Hfind. split; [discriminate |].
      intros (before & d & after & -> & _ & Hd & _).
      apply Forall_app in Hfind as [_ Hfind]. inversion Hfind; congruence.
  - intros e. unfold Utils.getWheelDevicePath.
    destruct (List.find Utils.is_wheel devices) as [d |] eqn:Hfind.
    + apply find_first in Hfind as (before & after & -> & Hb & Hd).
      destruct (Utils.path d) as [p |] eqn:Hp; [discriminate |].
      intros [= <-]. split; [reflexivity |]. right.
      by exists before, d, after.
    + apply find_none_all in Hfind.
      intros [= <-]. split; [reflexivity | by left].
Qed.

(* ===================================================================== *)
(** * Separation of commands and reports *)
(* ===================================================================== *)

Section Separation.



End Separation.


(* ===================================================================== *)
(** * Further theorems at concrete inputs                                 *)
(* ===================================================================== *)

Lemma forceOff_opcodes_witness :
  let self := Rig.open_device
                (Rig.new false
                   {| Rig.autocenter := false; Rig.debug := false;
                      Rig.range := 900 |}) in
  Rig.device (Rig.forceOff (Some 3%nat) self)
  = Some [[0x30; 0; 0; 0; 0; 0; 0]].
Proof.
  intros self.
  apply (proj1 (proj2 (forceOff_opcodes self [] eq_refl)) 3%nat). lia.
Defined.

(** The level 0.8725490196078431, which the doubles round to 33. *)
Lemma forceConstant_frames_witness :
  let self := Rig.open_device
                (Rig.new false
                   {| Rig.autocenter := false; Rig.debug := false;
                      Rig.range := 900 |}) in
  Rig.device
    (Rig.forceConstant
       (Some (Q2Qc (1964805719784187 # 2251799813685248))) self)
  = Some [[0x11; 0; 33; 0; 0; 0; 0]].
Proof.
  intros self.
  destruct (proj1 (proj2 (forceConstant_frames self [] eq_refl))
              (Q2Qc (1964805719784187 # 2251799813685248)))
    as [_ Hdev].
  - unfold Qcle. vm_compute. discriminate.
  - unfold Qcle. vm_compute. discriminate.
  - intros H. symmetry in H. revert H. apply Qclt_not_eq.
    unfold Qclt. vm_compute. reflexivity.
  - rewrite Hdev. vm_compute. reflexivity.
Defined.

(** The level 0.07142857142857142, just below 1/14, which gives 1. *)
Lemma forceFriction_frames_witness :
  let self := Rig.open_device
                (Rig.new false
                   {| Rig.autocenter := false; Rig.debug := false;
                      Rig.range := 900 |}) in
  Rig.device
    (Rig.forceFriction
       (Some (Q2Qc (2573485501354569 # 36028797018963968))) self)
  = Some [[0x21; 0x02; 1; 0; 1; 0; 0]].
Proof.
  intros self.
  destruct (proj1 (proj2 (forceFriction_frames self [] eq_refl))
              (Q2Qc (2573485501354569 # 36028797018963968)))
    as (_ & Hdev & _).
  - unfold Qclt. vm_compute. reflexivity.
  - unfold Qcle. vm_compute. discriminate.
  - rewrite Hdev. vm_compute. reflexivity.
Defined.

Lemma leds_repeated_witness :
  let self := Rig.open_device
                (Rig.new false
                   {| Rig.autocenter := false; Rig.debug := false;
                      Rig.range := 900 |}) in
  Rig.device (Rig.leds 40 (Rig.leds 40 self))
  = Some [[0xf8; 0x12; 31; 0; 0; 0; 1]; [0xf8; 0x12; 31; 0; 0; 0; 1]].
Proof.
  intros self.
  apply (proj2 (leds_repeated 40 self [] eq_refl)); [lia | discriminate].
Defined.

Lemma calls_before_open_witness :
  let self := Rig.new false
                {| Rig.autocenter := false; Rig.debug := false;
                   Rig.range := 900 |} in
  Rig.device (Rig.leds 7 (Rig.open_device (Rig.leds 7 self))) = Some [].
Proof.
  intros self.
  apply (proj2 (proj2 (calls_before_open self eq_refl)) 7). lia.
Defined.

Lemma changes_are_the_difference_witness :
  NoDup (DataMap.updateState Spec.scenario_report (replicate 12 0) ∅).2.*1.
Proof.
  apply (proj1 (changes_are_the_difference
                  Spec.scenario_report (replicate 12 0) ∅ eq_refl)).
Defined.

(** An instance that is listening, has been sent a force command and has
    received a report. *)
Lemma state_follows_last_report_witness :
  let self := Rig.on_data Spec.scenario_report
                (Rig.forceOff None
                   (Rig.listen true
                      (Rig.open_device
                         (Rig.new false
                            {| Rig.autocenter := true; Rig.debug := false;
                               Rig.range := 900 |})))) in
  Rig.reachable self
  ∧ Spec.follows_last_report (Rig.lastData self) (Rig.state self).
Proof.
  intros self.
  assert (Hreach : Rig.reachable self).
  { apply Rig.reach_data;
      [apply Rig.reach_forceOff, Rig.reach_listen, Rig.reach_open,
         Rig.reach_new
      | reflexivity |].
    repeat (apply List.Forall_cons; [lia |]). apply List.Forall_nil. }
  split; [exact Hreach |].
  apply (proj1 (state_follows_last_report self Hreach)).
Defined.

Lemma events_of_a_report_witness :
  let self := Rig.new false
                {| Rig.autocenter := false; Rig.debug := false;
                   Rig.range := 900 |} in
  Rig.emitted (Rig.on_data Spec.scenario_report self)
  = Rig.emitted self
    ++ Rig.report_events Spec.scenario_report
         (DataMap.updateState Spec.scenario_report
            (Rig.lastData self) (Rig.state self)).1
         (DataMap.updateState Spec.scenario_report
            (Rig.lastData self) (Rig.state self)).2.
Proof.
  intros self.
  apply (proj1 (events_of_a_report self Spec.scenario_report eq_refl)).
Defined.

Lemma code_bytes_decompose_witness :
  86 = 86 mod 16 + 16 * Spec.bit 86 16 + 32 * Spec.bit 86 32
       + 64 * Spec.bit 86 64 + 128 * Spec.bit 86 128.
Proof.
  assert (Hb : Spec.is_byte 86) by (unfold Spec.is_byte; lia).
  apply (proj1 (proj2 (proj1
           (code_bytes_decompose [86; 0; 0; 0; 0; 0; 0; 0; 0; 0; 0; 0] 86 Hb)
           eq_refl))).
Defined.

Lemma flag_bytes_decompose_witness :
  165 = Spec.bit 165 1 + 2 * Spec.bit 165 2 + 4 * Spec.bit 165 4
        + 8 * Spec.bit 165 8 + 16 * Spec.bit 165 16 + 32 * Spec.bit 165 32
        + 64 * Spec.bit 165 64 + 128 * Spec.bit 165 128.
Proof.
  assert (Hb : Spec.is_byte 165) by (unfold Spec.is_byte; lia).
  apply (proj2 (proj1
           (flag_bytes_decompose [0; 165; 0; 0; 0; 0; 0; 0; 0; 0; 0; 0] 165 Hb)
           eq_refl)).
Defined.

Lemma wheelTurn_monotone_witness :
  ∃ t t' : Qc,
    DataMap.wheelTurn [0; 0; 0; 0; 255; 127; 0; 0; 0; 0; 0; 0] = Fin t
    ∧ DataMap.wheelTurn [0; 0; 0; 0; 0; 128; 0; 0; 0; 0; 0; 0] = Fin t'
    ∧ (t <= t')%Qc.
Proof.
  assert (Hb : ∀ b, 0 <= b <= 255 → Spec.is_byte b) by (intros b Hb; exact Hb).
  destruct (wheelTurn_monotone
              [0; 0; 0; 0; 255; 127; 0; 0; 0; 0; 0; 0]
              [0; 0; 0; 0; 0; 128; 0; 0; 0; 0; 0; 0]
              255 127 0 128 eq_refl eq_refl eq_refl eq_refl
              (Hb 255 ltac:(lia)) (Hb 127 ltac:(lia))
              (Hb 0 ltac:(lia)) (Hb 128 ltac:(lia)) ltac:(lia))
    as (t & t' & Ht & Ht' & Hle & _).
  exists t, t'. repeat split; assumption.
Defined.

Lemma pedalToPercent_antitone_witness :
  ∃ p p' : Qc,
    DataMap.pedalToPercent 0 = Fin p ∧ DataMap.pedalToPercent 128 = Fin p'
    ∧ (p' <= p)%Qc.
Proof.
  assert (Hb : ∀ b, 0 <= b <= 255 → Spec.is_byte b) by (intros b Hb; exact Hb).
  destruct (pedalToPercent_antitone 0 128
              (Hb 0 ltac:(lia)) (Hb 128 ltac:(lia)) ltac:(lia))
    as (p & p' & Hp & Hp' & Hle & _).
  exists p, p'. repeat split; assumption.
Defined.


Lemma getWheelDevicePath_first_match_witness :
  let hub := {| Utils.vendorId := 1118; Utils.productId := 49743;
                Utils.path := Some "usb-1"; Utils.product := None;
                Utils.interface := 0; Utils.usagePage := Some 1 |} in
  let wheel := {| Utils.vendorId := 1133; Utils.productId := 49743;
                  Utils.path := Some "usb-2"; Utils.product := None;
                  Utils.interface := 0; Utils.usagePage := None |} in
  Utils.getWheelDevicePath [hub; wheel] = inl "usb-2".
Proof.
  intros hub wheel.
  apply (proj1 (getWheelDevicePath_first_match [hub; wheel])).
  exists [hub], wheel, []. repeat split.
  apply List.Forall_cons; [reflexivity | apply List.Forall_nil].
Defined.

